(** * Space Dystopia: the combat and quest core of the final checkpoint

    A shallow embedding of [src/checkpoint/checkpoint5.cpp] (and, for the
    combat loop, of its predecessor [checkpoint3.cpp]): the [Stat] template,
    [QuestObjective] and [Quest], the [CombatEntity] hierarchy, the overworld
    [Player] with its quest flags, and [Game::handleCombat].

    Conventions.
    - A C++ [int] is a [Z]; every arithmetic operator of the source is
      written with the two's-complement result ([Int.add], [Int.sub],
      [Int.mul]).  C++ leaves signed overflow undefined; the wrap-around is
      what the usual targets compute, and every theorem that speaks of the
      mathematical result says which values have to be representable.
    - Each class is a module holding a record [t] with the fields of the
      class under their source names; a derived class keeps its base-class
      part in the field [base] ([Character] and [Player], which the source
      never uses apart, are one record).
    - [std::cout], [std::cerr] and [typewriterEffect] append to an output
      trace of [Console.output] values that carry the data printed.
    - [std::cin] and the [std::uniform_int_distribution] draws are inputs of
      the functions that read them. *)

From Stdlib Require Import ZArith List Bool Lia.
From stdpp Require Import base gmap strings list.

Local Open Scope Z_scope.

(** ** The [int] type *)

Module Int.

Definition INT_MIN : Z := - 2 ^ 31.
Definition INT_MAX : Z := 2 ^ 31 - 1.

(** The values an [int] variable can hold. *)
Definition in_range (z : Z) : Prop := INT_MIN <= z <= INT_MAX.

(** The two's-complement representative of [z]. *)
Definition wrap (z : Z) : Z := (z + 2 ^ 31) mod 2 ^ 32 - 2 ^ 31.

Definition add (a b : Z) : Z := wrap (a + b).
Definition sub (a b : Z) : Z := wrap (a - b).
Definition mul (a b : Z) : Z := wrap (a * b).
Definition neg (a : Z) : Z := wrap (- a).

Lemma wrap_in_range z : in_range (wrap z).
Proof.
  unfold in_range, wrap, INT_MIN, INT_MAX.
  pose proof (Z.mod_pos_bound (z + 2 ^ 31) (2 ^ 32) ltac:(lia)). lia.
Qed.

Lemma wrap_id z : in_range z -> wrap z = z.
Proof.
  unfold in_range, wrap, INT_MIN, INT_MAX. intros H.
  rewrite Z.mod_small by lia. lia.
Qed.

Lemma add_exact a b : in_range (a + b) -> add a b = a + b.
Proof. apply wrap_id. Qed.

Lemma sub_exact a b : in_range (a - b) -> sub a b = a - b.
Proof. apply wrap_id. Qed.

Lemma mul_exact a b : in_range (a * b) -> mul a b = a * b.
Proof. apply wrap_id. Qed.

End Int.

(** Unfolds the range predicate so that [lia] sees the bounds. *)
Ltac int_bounds :=
  unfold Int.in_range, Int.INT_MIN, Int.INT_MAX in *.

(** ** Output trace *)

Module Console.

(** One value per message of the source; the arguments are the data the
    message interpolates. *)
Inductive output : Type :=
| LevelUp (level : Z)
    (* "Level Up! Now level <level>", "Health +10", "Attack +5", "Defense +3" *)
| GainedExperience (exp : Z)            (* "Gained <exp> experience!" *)
| TakeDamageError                       (* cerr: "Error in takeDamage: Damage cannot be negative!" *)
| CombatInitiated (enemy : string)      (* "Combat with <enemy> initiated!" *)
| CombatMenu                            (* "1. Attack / 2. Use EMP (if available)" *)
| EmpDeployed                           (* "EMP deployed successfully!" *)
| YouDeal (damage : Z)                  (* "You deal <damage> damage!" *)
| YouDefeated (enemy : string)          (* "You defeated <enemy>!" *)
| EnemyDeals (enemy : string) (damage : Z)  (* "<enemy> deals <damage> damage!" *)
| YouWereDefeated                       (* "You were defeated! But you manage to escape..." *)
| HealthReport (yours : Z) (enemy : string) (theirs : Z)
    (* "Your Health: <yours>", "<enemy>'s Health: <theirs>" *)
| PressEnter.                           (* "Press Enter to continue..." *)

End Console.

(** ** [Stat<int>] *)

Module Stat.

Record t : Type := mk { current : Z; maximum : Z; name : string }.

(** [Stat(statName, initial)]: both bounds start at [initial]. *)
Definition new (statName : string) (initial : Z) : t :=
  {| current := initial; maximum := initial; name := statName |}.

(** [modify]: [current = min(maximum, current + amount)] and then
    [current = max(0, current)]. *)
Definition modify (s : t) (amount : Z) : t :=
  let c1 := Z.min (maximum s) (Int.add (current s) amount) in
  let c2 := Z.max 0 c1 in
  {| current := c2; maximum := maximum s; name := name s |}.

(** The invariant of the data model. *)
Definition bounded (s : t) : Prop := 0 <= current s <= maximum s.

End Stat.

(** ** [CombatEntity] *)

Module CombatEntity.

Record t : Type := mk { name : string; health : Z; attack : Z; defense : Z }.

(** [takeDamage]: [health = max(0, health - max(0, damage - defense))]. *)
Definition takeDamage (e : t) (damage : Z) : t :=
  {| name := name e;
     health := Z.max 0 (Int.sub (health e) (Z.max 0 (Int.sub damage (defense e))));
     attack := attack e;
     defense := defense e |}.

Definition isAlive (e : t) : bool := 0 <? health e.

(** The fields hold [int] values. *)
Definition well_typed (e : t) : Prop :=
  Int.in_range (health e) /\ Int.in_range (attack e) /\ Int.in_range (defense e).

End CombatEntity.

(** ** [QuestObjective<int>] and [Quest] *)

Module QuestObjective.

Record t : Type :=
  mk { description : string; target : Z; current : Z; completed : bool }.

(** The constructor: [current(T())], [completed(false)]. *)
Definition new (desc : string) (targetValue : Z) : t :=
  {| description := desc; target := targetValue; current := 0; completed := false |}.

(** [current = value; completed = (current >= target);] *)
Definition updateProgress (o : t) (value : Z) : t :=
  {| description := description o;
     target := target o;
     current := value;
     completed := target o <=? value |}.

Definition isCompleted (o : t) : bool := completed o.
Definition getProgress (o : t) : Z := current o.
Definition getTarget (o : t) : Z := target o.

End QuestObjective.

Module Quest.

(** [objectives] is a vector of [shared_ptr]s; no second owner of an
    objective outlives [initializeQuests], so the objectives are held by
    value.  The [size_t] index is a [nat]. *)
Record t : Type :=
  mk { name : string;
       description : string;
       objectives : list QuestObjective.t;
       completed : bool }.

Definition new (n desc : string) : t :=
  {| name := n; description := desc; objectives := []; completed := false |}.

Definition addObjective (q : t) (desc : string) (target : Z) : t :=
  {| name := name q;
     description := description q;
     objectives := objectives q ++ [QuestObjective.new desc target];
     completed := completed q |}.

(** [std::all_of] over the objectives' [isCompleted()]. *)
Definition checkCompletion (q : t) : t :=
  {| name := name q;
     description := description q;
     objectives := objectives q;
     completed := forallb QuestObjective.isCompleted (objectives q) |}.

(** [if (index < objectives.size())] update that objective and recompute
    the quest's flag; nothing otherwise. *)
Definition updateObjective (q : t) (index : nat) (value : Z) : t :=
  if (index <? length (objectives q))%nat then
    checkCompletion
      {| name := name q;
         description := description q;
         objectives :=
           alter (fun o => QuestObjective.updateProgress o value) index (objectives q);
         completed := completed q |}
  else q.

Definition isCompleted (q : t) : bool := completed q.

(** What the data model calls the quest's completion: every objective has
    [current >= target]. *)
Definition thresholdsMet (q : t) : bool :=
  forallb (fun o => QuestObjective.target o <=? QuestObjective.current o) (objectives q).

(** An objective whose flag agrees with its counters. *)
Definition flagAgrees (o : QuestObjective.t) : Prop :=
  QuestObjective.completed o = (QuestObjective.target o <=? QuestObjective.current o).

End Quest.

(** ** [CombatPlayer] and [Enemy] *)

Module CombatPlayer.

Record t : Type :=
  mk { base : CombatEntity.t; level : Z; experience : Z; abilities : list string }.

(** [CombatPlayer(n) : CombatEntity(n, 100, 15, 5), level(1), experience(0)]. *)
Definition new (n : string) : t :=
  {| base := CombatEntity.mk n 100 15 5;
     level := 1;
     experience := 0;
     abilities := ["Quick Attack"; "Defensive Stance"] |}.

(** [attack + dis(gen)]; [dis] is the draw from [uniform_int_distribution(-2, 2)]. *)
Definition calculateDamage (p : t) (dis : Z) : Z :=
  Int.add (CombatEntity.attack (base p)) dis.

Definition validDraw (dis : Z) : Prop := -2 <= dis <= 2.

(** Inherited from [CombatEntity]. *)
Definition takeDamage (p : t) (damage : Z) : t :=
  {| base := CombatEntity.takeDamage (base p) damage;
     level := level p;
     experience := experience p;
     abilities := abilities p |}.

Definition isAlive (p : t) : bool := CombatEntity.isAlive (base p).
Definition getHealth (p : t) : Z := CombatEntity.health (base p).

Definition levelUp (p : t) : t * list Console.output :=
  let level' := Int.add (level p) 1 in
  ({| base :=
        {| CombatEntity.name := CombatEntity.name (base p);
           CombatEntity.health := Int.add (CombatEntity.health (base p)) 10;
           CombatEntity.attack := Int.add (CombatEntity.attack (base p)) 5;
           CombatEntity.defense := Int.add (CombatEntity.defense (base p)) 3 |};
      level := level';
      experience := 0;
      abilities := abilities p |},
   [Console.LevelUp level']).

(** [experience += exp; if (experience >= level * 100) levelUp();] *)
Definition gainExperience (p : t) (exp : Z) : t * list Console.output :=
  let p1 :=
    {| base := base p;
       level := level p;
       experience := Int.add (experience p) exp;
       abilities := abilities p |} in
  if Int.mul (level p1) 100 <=? experience p1 then levelUp p1 else (p1, []).

Definition well_typed (p : t) : Prop :=
  CombatEntity.well_typed (base p) /\ Int.in_range (level p) /\ Int.in_range (experience p).

(** The increments of [levelUp] fit an [int]. *)
Definition levelUpFits (p : t) : Prop :=
  Int.in_range (level p + 1) /\
  Int.in_range (CombatEntity.health (base p) + 10) /\
  Int.in_range (CombatEntity.attack (base p) + 5) /\
  Int.in_range (CombatEntity.defense (base p) + 3).

End CombatPlayer.

Module Enemy.

Record t : Type :=
  mk { base : CombatEntity.t; type : string; dropItems : list string }.

Definition new (n ty : string) (h a d : Z) : t :=
  {| base := CombatEntity.mk n h a d; type := ty; dropItems := [] |}.

(** [attack + dis(gen)]; [dis] is the draw from [uniform_int_distribution(-1, 1)]. *)
Definition calculateDamage (e : t) (dis : Z) : Z :=
  Int.add (CombatEntity.attack (base e)) dis.

Definition validDraw (dis : Z) : Prop := -1 <= dis <= 1.

(** Inherited from [CombatEntity]. *)
Definition takeDamage (e : t) (damage : Z) : t :=
  {| base := CombatEntity.takeDamage (base e) damage;
     type := type e;
     dropItems := dropItems e |}.

Definition isAlive (e : t) : bool := CombatEntity.isAlive (base e).
Definition getName (e : t) : string := CombatEntity.name (base e).
Definition getHealth (e : t) : Z := CombatEntity.health (base e).

Definition addDropItem (e : t) (item : string) : t :=
  {| base := base e; type := type e; dropItems := dropItems e ++ [item] |}.

Definition getDrops (e : t) : list string := dropItems e.

End Enemy.
(** ** [Item], [Character] and [Player] *)

Module Item.

(** The three closures [initializeLocations] passes to [setUseEffect]. *)
Inductive UseEffect : Type := ReadDatapad | SwipeKeycard | WearSpacesuit.

Record t : Type :=
  mk { name : string;
       description : string;
       isUsable : bool;
       isPickable : bool;
       useEffect : option UseEffect;
       useDescription : string }.

Definition new (n desc : string) (usable pickable : bool) : t :=
  {| name := n; description := desc; isUsable := usable; isPickable := pickable;
     useEffect := None; useDescription := "No specific use instructions." |}.

Definition setUseEffect (i : t) (effect : UseEffect) (useDesc : string) : t :=
  {| name := name i; description := description i; isUsable := true;
     isPickable := isPickable i; useEffect := Some effect; useDescription := useDesc |}.

End Item.

Module Player.

(** [GameObject], [Character] and [Player] fields.  [questFlags] is the
    [std::map<std::string, bool>]. *)
Record t : Type :=
  mk { name : string;
       description : string;
       health : Stat.t;
       energy : Stat.t;
       inventory : list Item.t;
       experience : Z;
       questFlags : gmap string bool;
       totalSteps : Z;
       itemsCollected : Z }.

Definition new (n : string) : t :=
  {| name := n;
     description := "A maintenance worker on Europa";
     health := Stat.new "Health" 100;
     energy := Stat.new "Energy" 100;
     inventory := [];
     experience := 0;
     questFlags := ∅;
     totalSteps := 0;
     itemsCollected := 0 |}.

(** [Character::takeDamage]: the exception thrown for a negative damage is
    caught in the same function, which reports it and changes nothing. *)
Definition takeDamage (p : t) (damage : Z) : t * list Console.output :=
  if damage <? 0 then (p, [Console.TakeDamageError])
  else
    ({| name := name p; description := description p;
        health := Stat.modify (health p) (Int.neg damage);
        energy := energy p; inventory := inventory p; experience := experience p;
        questFlags := questFlags p; totalSteps := totalSteps p;
        itemsCollected := itemsCollected p |}, []).

Definition addItem (p : t) (item : Item.t) : t :=
  {| name := name p; description := description p; health := health p;
     energy := energy p; inventory := inventory p ++ [item];
     experience := experience p; questFlags := questFlags p;
     totalSteps := totalSteps p; itemsCollected := itemsCollected p |}.

Definition getInventory (p : t) : list Item.t := inventory p.

Definition incrementSteps (p : t) : t :=
  {| name := name p; description := description p; health := health p;
     energy := energy p; inventory := inventory p; experience := experience p;
     questFlags := questFlags p; totalSteps := Int.add (totalSteps p) 1;
     itemsCollected := itemsCollected p |}.

Definition incrementItemsCollected (p : t) : t :=
  {| name := name p; description := description p; health := health p;
     energy := energy p; inventory := inventory p; experience := experience p;
     questFlags := questFlags p; totalSteps := totalSteps p;
     itemsCollected := Int.add (itemsCollected p) 1 |}.

(** [if (exp > 0) { experience += exp; cout << "Gained ..."; }] *)
Definition gainExperience (p : t) (exp : Z) : t * list Console.output :=
  if 0 <? exp then
    ({| name := name p; description := description p; health := health p;
        energy := energy p; inventory := inventory p;
        experience := Int.add (experience p) exp;
        questFlags := questFlags p; totalSteps := totalSteps p;
        itemsCollected := itemsCollected p |}, [Console.GainedExperience exp])
  else (p, []).

(** [questFlags[flag] = true;] *)
Definition setQuestFlag (p : t) (flag : string) : t :=
  {| name := name p; description := description p; health := health p;
     energy := energy p; inventory := inventory p; experience := experience p;
     questFlags := <[flag := true]> (questFlags p);
     totalSteps := totalSteps p; itemsCollected := itemsCollected p |}.

(** [questFlags.count(flag) > 0] *)
Definition hasQuestFlag (p : t) (flag : string) : bool :=
  bool_decide (is_Some (questFlags p !! flag)).

(** The calls through which the rest of the program changes a [Player]:
    every public non-const member of [Player] and [Character]. *)
Inductive Op : Type :=
| TakeDamage (damage : Z)
| AddItem (item : Item.t)
| IncrementSteps
| IncrementItemsCollected
| GainExperience (exp : Z)
| SetQuestFlag (flag : string).

Definition apply (p : t) (op : Op) : t :=
  match op with
  | TakeDamage damage => fst (takeDamage p damage)
  | AddItem item => addItem p item
  | IncrementSteps => incrementSteps p
  | IncrementItemsCollected => incrementItemsCollected p
  | GainExperience exp => fst (gainExperience p exp)
  | SetQuestFlag flag => setQuestFlag p flag
  end.

(** A session: the calls in the order they are made. *)
Definition run (p : t) (ops : list Op) : t := fold_left apply ops p.

End Player.

(** ** [Game::handleCombat] *)

Module Game.

(** What one pass of the loop body reads: the number typed at the menu
    ([std::cin >> choice]) and the two random draws. *)
Record Round : Type := mkRound { choice : Z; playerDraw : Z; enemyDraw : Z }.

Definition validRound (i : Round) : Prop :=
  CombatPlayer.validDraw (playerDraw i) /\ Enemy.validDraw (enemyDraw i).

(** The objects [handleCombat] works on: the overworld player, the enemy
    it was passed, the transient [playerCombat] proxy, and the output.  The
    parameter is a [shared_ptr<CombatEntity>]; every object the program
    makes for it is an [Enemy], and the loop uses its [CombatEntity] part
    and its [calculateDamage]. *)
Record Combat : Type :=
  mkCombat { player : Player.t;
             enemy : Enemy.t;
             playerCombat : CombatPlayer.t;
             out : list Console.output }.

(** The loop can wait for input for ever; a run over a finite input either
    leaves the function or has consumed the input with the loop still
    running. *)
Inductive Outcome : Type :=
| Returned (s : Combat)
| AwaitingInput (s : Combat).

(** [enemy->isAlive() && playerCombat->isAlive()] *)
Definition inCombat (s : Combat) : bool :=
  Enemy.isAlive (enemy s) && CombatPlayer.isAlive (playerCombat s).

(** [choice == 2 && player->getInventory().size() > 0] *)
Definition usesEmp (p : Player.t) (i : Round) : bool :=
  (choice i =? 2) && (0 <? length (Player.getInventory p))%nat.

(** The damage handed to [enemy->takeDamage] in a round. *)
Definition playerDamage (s : Combat) (i : Round) : Z :=
  let roll := CombatPlayer.calculateDamage (playerCombat s) (playerDraw i) in
  if usesEmp (player s) i then Int.mul roll 2 else roll.

(** The body of the [while] loop of the final checkpoint. *)
Definition round (s : Combat) (i : Round) : Combat :=
  (* Player turn *)
  let out1 := out s ++ [Console.CombatMenu] in
  let damage := playerDamage s i in
  let out2 := if usesEmp (player s) i then out1 ++ [Console.EmpDeployed] else out1 in
  let enemy1 := Enemy.takeDamage (enemy s) damage in
  let out3 := out2 ++ [Console.YouDeal damage] in
  let '(player1, out4) :=
    if negb (Enemy.isAlive enemy1) then
      let p1 := Player.setQuestFlag (player s) "security_defeated" in
      let '(p2, gained) := Player.gainExperience p1 50 in
      (p2, out3 ++ [Console.YouDefeated (Enemy.getName enemy1)] ++ gained)
    else (player s, out3) in
  (* Enemy turn *)
  let enemyDamage := Enemy.calculateDamage enemy1 (enemyDraw i) in
  let playerCombat1 := CombatPlayer.takeDamage (playerCombat s) enemyDamage in
  let out5 := out4 ++ [Console.EnemyDeals (Enemy.getName enemy1) enemyDamage] in
  {| player := player1;
     enemy := enemy1;
     playerCombat := playerCombat1;
     out := out5 ++ [Console.HealthReport (CombatPlayer.getHealth playerCombat1)
                       (Enemy.getName enemy1) (Enemy.getHealth enemy1)] |}.

Fixpoint loop (s : Combat) (inputs : list Round) : Outcome :=
  if inCombat s then
    match inputs with
    | [] => AwaitingInput s
    | i :: rest => loop (round s i) rest
    end
  else Returned s.

Definition start (p : Player.t) (e : Enemy.t) : Combat :=
  {| player := p;
     enemy := e;
     playerCombat := CombatPlayer.new (Player.name p);
     out := [Console.CombatInitiated (Enemy.getName e)] |}.

Definition handleCombat (p : Player.t) (e : Enemy.t) (inputs : list Round) : Outcome :=
  loop (start p e) inputs.

(** The item [initializeLocations] leaves at the Security Post. *)
Definition emp : Item.t :=
  Item.new "EMP Device" "Can disable security systems" true true.

(** [initializeQuests] *)
Definition mainQuest : Quest.t :=
  Quest.addObjective
    (Quest.addObjective
       (Quest.addObjective
          (Quest.new "Escape Europa" "Find a way to escape and reveal the truth")
          "Access classified data" 1)
       "Bypass security" 1)
    "Escape via airlock" 1.

(** [initializeEnemies]; [run] only ever passes [enemies[0]]. *)
Definition securityBot : Enemy.t := Enemy.new "Security Bot" "Robot" 50 10 3.
Definition eliteGuard : Enemy.t := Enemy.new "Elite Guard Bot" "Robot" 75 15 5.
Definition initializeEnemies : list Enemy.t := [securityBot; eliteGuard].

(** The state of a fight of a new proxy (attack 15, defense 5) with the
    Security Bot (attack 10, defense 3) that the proxy wins in at most [n]
    more rounds: the bot has at most [10 n] health left, the proxy more
    than [6 n], and the flag is set once the bot is dead. *)
Definition securityBotFight (n : nat) (s : Combat) : Prop :=
  CombatEntity.attack (Enemy.base (enemy s)) = 10 /\
  CombatEntity.defense (Enemy.base (enemy s)) = 3 /\
  CombatEntity.attack (CombatPlayer.base (playerCombat s)) = 15 /\
  CombatEntity.defense (CombatPlayer.base (playerCombat s)) = 5 /\
  0 <= Enemy.getHealth (enemy s) <= 10 * Z.of_nat n /\
  Enemy.getHealth (enemy s) <= 50 /\
  6 * Z.of_nat n < CombatPlayer.getHealth (playerCombat s) <= 100 /\
  (Enemy.isAlive (enemy s) = true \/
   Player.hasQuestFlag (player s) "security_defeated" = true).

(** A fight nobody can win: the proxy's hits (at most 34) stay under the
    enemy's defense, the enemy's (at most 1) under the proxy's. *)
Definition stalemate (s : Combat) : Prop :=
  CombatEntity.attack (Enemy.base (enemy s)) = 0 /\
  CombatEntity.defense (Enemy.base (enemy s)) = 40 /\
  Enemy.getHealth (enemy s) = 1 /\
  CombatEntity.attack (CombatPlayer.base (playerCombat s)) = 15 /\
  CombatEntity.defense (CombatPlayer.base (playerCombat s)) = 5 /\
  CombatPlayer.getHealth (playerCombat s) = 100.

End Game.

(** ** [Game::handleCombat] of checkpoint 3

    The classes the loop uses are the same text in both checkpoints (the
    [Player] of checkpoint 3 has one more field, which the loop never
    touches); the loop body differs. *)

Module Checkpoint3.

Import Game.

(** The body of the [while] loop; the flag says that a [break] was taken.
    No menu here: the round reads only the two draws. *)
Definition round (s : Combat) (i : Round) : Combat * bool :=
  (* Player turn *)
  let damage := CombatPlayer.calculateDamage (playerCombat s) (playerDraw i) in
  let enemy1 := Enemy.takeDamage (enemy s) damage in
  let out1 := out s ++ [Console.YouDeal damage] in
  if negb (Enemy.isAlive enemy1) then
    let '(p1, gained) := Player.gainExperience (player s) 25 in
    ({| player := p1; enemy := enemy1; playerCombat := playerCombat s;
        out := out1 ++ [Console.YouDefeated (Enemy.getName enemy1)] ++ gained |}, true)
  else
    (* Enemy turn *)
    let enemyDamage := Enemy.calculateDamage enemy1 (enemyDraw i) in
    let playerCombat1 := CombatPlayer.takeDamage (playerCombat s) enemyDamage in
    let out2 := out1 ++ [Console.EnemyDeals (Enemy.getName enemy1) enemyDamage] in
    if negb (CombatPlayer.isAlive playerCombat1) then
      let '(p1, err) := Player.takeDamage (player s) 50 in
      ({| player := p1; enemy := enemy1; playerCombat := playerCombat1;
          out := out2 ++ [Console.YouWereDefeated] ++ err |}, true)
    else
      ({| player := player s; enemy := enemy1; playerCombat := playerCombat1;
          out := out2 ++ [Console.HealthReport (CombatPlayer.getHealth playerCombat1)
                            (Enemy.getName enemy1) (Enemy.getHealth enemy1);
                          Console.PressEnter] |}, false).

Fixpoint loop (s : Combat) (inputs : list Round) : Outcome :=
  if inCombat s then
    match inputs with
    | [] => AwaitingInput s
    | i :: rest =>
        let '(s1, stop) := round s i in
        if stop then Returned s1 else loop s1 rest
    end
  else Returned s.

Definition handleCombat (p : Player.t) (e : Enemy.t) (inputs : list Round) : Outcome :=
  loop (start p e) inputs.

End Checkpoint3.

(** ** [Location] *)

Module Location.

(** [interactions] is the [std::map<std::string, std::string>];
    [availableInteractions] is the vector of keys in the order added.  The
    items are [shared_ptr]s that nothing writes through once the game is
    set up, so they are held by value. *)
Record t : Type :=
  mk { name : string;
       description : string;
       interactions : gmap string string;
       items : list Item.t;
       availableInteractions : list string }.

Definition new (n desc : string) : t :=
  {| name := n; description := desc; interactions := ∅; items := [];
     availableInteractions := [] |}.

(** [interactions[key] = response; availableInteractions.push_back(key);] *)
Definition addInteraction (l : t) (key response : string) : t :=
  {| name := name l; description := description l;
     interactions := <[key := response]> (interactions l);
     items := items l;
     availableInteractions := availableInteractions l ++ [key] |}.

Definition getAvailableInteractions (l : t) : list string := availableInteractions l.

Definition addItem (l : t) (item : Item.t) : t :=
  {| name := name l; description := description l; interactions := interactions l;
     items := items l ++ [item];
     availableInteractions := availableInteractions l |}.

(** [std::remove_if] on the name followed by [erase]: the items of another
    name, in their order. *)
Definition removeItem (l : t) (itemName : string) : t :=
  {| name := name l; description := description l; interactions := interactions l;
     items := List.filter (fun item => negb (String.eqb (Item.name item) itemName)) (items l);
     availableInteractions := availableInteractions l |}.

(** [find(key)], and the fixed answer when the key is not there. *)
Definition interact (l : t) (key : string) : string :=
  match interactions l !! key with
  | Some response => response
  | None => "Nothing interesting happens."
  end.

Definition getItems (l : t) : list Item.t := items l.

(** The calls that change a [Location]. *)
Inductive Op : Type :=
| AddInteraction (key response : string)
| AddItem (item : Item.t)
| RemoveItem (itemName : string).

Definition apply (l : t) (op : Op) : t :=
  match op with
  | AddInteraction key response => addInteraction l key response
  | AddItem item => addItem l item
  | RemoveItem itemName => removeItem l itemName
  end.

Definition run (l : t) (ops : list Op) : t := fold_left apply ops l.

(** The keys listed are the keys that have a response. *)
Definition listedHaveResponses (l : t) : Prop :=
  forall key, key ∈ availableInteractions l <-> is_Some (interactions l !! key).

End Location.

(** ** The [Game] object of the final checkpoint and its [run] loop *)

#[global] Instance useEffect_eq_dec : EqDecision Item.UseEffect.
Proof. solve_decision. Defined.

#[global] Instance item_eq_dec : EqDecision Item.t.
Proof. solve_decision. Defined.

Module Screen.

(** What [Game] prints outside [handleCombat], one value per message (a
    menu with its prompt is one message); the arguments are the data shown. *)
Inductive line : Type :=
| Title                                      (* displayTitle *)
| NamePrompt                                 (* "Enter your name: " *)
| Welcome                                    (* "Welcome to Space Station Europa. ..." *)
| LocationHeader (name description : string) (* "Location: <name>", description *)
| YouSee (items : list (string * string))    (* "You see:", "- <name>: <description>" *)
| PossibleInteractions (keys : list string)
| Options                                    (* the six options and "Enter your choice (1-8): " *)
| AvailableLocations (names : list string)   (* and "Choose location (1-<n>): " *)
| AvailableInteractions (keys : list string)
| ChooseInteraction                          (* "Choose interaction: " *)
| Narrative (text : string)                  (* typewriterEffect(result) *)
| EscapedWithTruth       (* "Congratulations! You've escaped and can now reveal the truth!" *)
| NoInteractions                             (* "No interactions available here." *)
| NoItemsHere                                (* "There are no items to pick up here." *)
| AvailableItems (items : list (string * string))  (* and "Choose item to pick up ..." *)
| PickedUp (name : string)
| CannotPickUp                               (* "This item cannot be picked up." *)
| PlayerSheet (p : Player.t)                 (* player->display() *)
| StatusReport (hacked defeated escaped : bool)
| InvalidChoice                              (* "Invalid choice." *)
| BotDetected                                (* "A Security Bot has detected your presence!" *)
| EscapedInSuit                              (* "Congratulations! You've successfully escaped!" *)
| PressEnter                                 (* "Press Enter to continue...", then the screen is cleared *)
| Victory                                    (* "VICTORY!" *)
| FinalStatistics (p : Player.t) (explored : Z) (total : nat)
    (* "=== Final Statistics ===", player->display(), "Locations explored: <explored>/<total>" *)
| ReadTheDatapad                             (* the two lines of the datapad's effect *)
| SwipedTheKeycard                           (* "You swipe the keycard through the terminal..." *)
| NowhereToSwipe                             (* "There's nowhere to use the keycard here." *)
| SuitOn                                     (* "You put on the spacesuit, checking all seals..." *)
| SuitMustWait                               (* "You should wait until you're at the airlock." *)
| Said (o : Console.output).                 (* a message of handleCombat or of a Player member *)

End Screen.

Module Session.

(** The fields of [Game].  [enemies] holds the [shared_ptr]s that
    [handleCombat] is passed: what an encounter does to the enemy is written
    back to the vector. *)
Record t : Type :=
  mk { player : Player.t;
       locations : list Location.t;
       gameOver : bool;
       currentLocation : Z;
       quests : list Quest.t;
       messageLog : list string;
       enemies : list Enemy.t;
       hasEscaped : bool;
       out : list Screen.line }.

Definition setPlayer (g : t) (p : Player.t) : t :=
  mk p (locations g) (gameOver g) (currentLocation g) (quests g) (messageLog g)
     (enemies g) (hasEscaped g) (out g).

Definition setLocations (g : t) (ls : list Location.t) : t :=
  mk (player g) ls (gameOver g) (currentLocation g) (quests g) (messageLog g)
     (enemies g) (hasEscaped g) (out g).

Definition setGameOver (g : t) (b : bool) : t :=
  mk (player g) (locations g) b (currentLocation g) (quests g) (messageLog g)
     (enemies g) (hasEscaped g) (out g).

Definition setCurrentLocation (g : t) (i : Z) : t :=
  mk (player g) (locations g) (gameOver g) i (quests g) (messageLog g)
     (enemies g) (hasEscaped g) (out g).

Definition setQuests (g : t) (qs : list Quest.t) : t :=
  mk (player g) (locations g) (gameOver g) (currentLocation g) qs (messageLog g)
     (enemies g) (hasEscaped g) (out g).

Definition setEnemies (g : t) (es : list Enemy.t) : t :=
  mk (player g) (locations g) (gameOver g) (currentLocation g) (quests g) (messageLog g)
     es (hasEscaped g) (out g).

Definition setHasEscaped (g : t) (b : bool) : t :=
  mk (player g) (locations g) (gameOver g) (currentLocation g) (quests g) (messageLog g)
     (enemies g) b (out g).

(** Output: the lines are appended to the trace. *)
Definition say (g : t) (lines : list Screen.line) : t :=
  mk (player g) (locations g) (gameOver g) (currentLocation g) (quests g) (messageLog g)
     (enemies g) (hasEscaped g) (out g ++ lines).

(** A call of a [Player] member that prints. *)
Definition tell (g : t) (r : Player.t * list Console.output) : t :=
  say (setPlayer g (fst r)) (map Screen.Said (snd r)).

(** *** Set-up *)

Definition datapad : Item.t :=
  Item.setUseEffect (Item.new "Datapad" "A tablet containing classified information" true true)
    Item.ReadDatapad "Access classified information about the mysterious signals".

Definition keycard : Item.t :=
  Item.setUseEffect (Item.new "Keycard" "A security keycard" true true)
    Item.SwipeKeycard "Use at terminals to gain access".

Definition spacesuit : Item.t :=
  Item.setUseEffect (Item.new "Spacesuit" "Required for space travel" true true)
    Item.WearSpacesuit "Required for EVA activities".

Definition initializeLocations : list Location.t :=
  [ Location.addInteraction
      (Location.addItem
         (Location.new "Maintenance Bay" "A sterile white room filled with repair equipment.")
         datapad)
      "examine workbench" "You find various repair tools and a hidden datapad.";
    Location.addInteraction
      (Location.addInteraction
         (Location.addItem
            (Location.new "Terminal Room"
               "A quiet room with a terminal. Red light pulses steadily.")
            keycard)
         "hack terminal" "You begin hacking the terminal... Security has been alerted!")
      "examine terminal" "The terminal displays various system diagnostics.";
    Location.addInteraction
      (Location.addItem
         (Location.new "Security Post" "A heavily guarded area with advanced security bots.")
         Game.emp)
      "examine security" "The security systems are active but might be vulnerable to EMPs.";
    Location.addInteraction
      (Location.addInteraction
         (Location.addItem
            (Location.new "Airlock" "The gateway between the station and the void of space.")
            spacesuit)
         "check airlock"
         "The airlock appears functional. A spacesuit would be required for EVA.")
      "activate airlock" "The airlock cycles... This is your chance to escape!" ].

(** The object the constructor builds from the name it has read. *)
Definition fresh (playerName : string) : t :=
  {| player := Player.new playerName;
     locations := initializeLocations;
     gameOver := false;
     currentLocation := 0;
     quests := [Game.mainQuest];
     messageLog := [];
     enemies := Game.initializeEnemies;
     hasEscaped := false;
     out := [Screen.Title; Screen.NamePrompt] |}.

(** The constructor: [None] is the [std::invalid_argument] it throws, after
    reporting it, when the name read is empty. *)
Definition new (playerName : string) : option t :=
  if String.eqb playerName "" then None else Some (fresh playerName).

(** *** Members *)

(** [locations[currentLocation]]: [None] is an index outside the vector,
    for which the source has no defined behaviour. *)
Definition here (g : t) : option Location.t :=
  if currentLocation g <? 0 then None
  else locations g !! Z.to_nat (currentLocation g).

Definition listing (items : list Item.t) : list (string * string) :=
  map (fun item => (Item.name item, Item.description item)) items.

Definition displayLocation (g : t) : option t :=
  match here g with
  | None => None
  | Some l =>
      Some (say g
              ([Screen.LocationHeader (Location.name l) (Location.description l)]
               ++ (match Location.getItems l with
                   | [] => []
                   | _ => [Screen.YouSee (listing (Location.getItems l))]
                   end)
               ++ [Screen.PossibleInteractions (Location.getAvailableInteractions l)]))
  end.

Definition displayEndGameStats (g : t) : t :=
  say g [Screen.FinalStatistics (player g) (Int.add (currentLocation g) 1)
           (length (locations g))].

Definition checkWinCondition (g : t) : bool :=
  Player.hasQuestFlag (player g) "read_classified_info"
  && Player.hasQuestFlag (player g) "security_defeated"
  && Player.hasQuestFlag (player g) "spacesuit_equipped".

(** The closures of [initializeLocations], which capture the [Game]. *)
Definition effect (g : t) (e : Item.UseEffect) : t :=
  match e with
  | Item.ReadDatapad =>
      let g1 := say g [Screen.ReadTheDatapad] in
      let g2 := setPlayer g1 (Player.setQuestFlag (player g1) "read_classified_info") in
      tell g2 (Player.gainExperience (player g2) 20)
  | Item.SwipeKeycard =>
      if currentLocation g =? 1 then
        let g1 := say g [Screen.SwipedTheKeycard] in
        let g2 := setPlayer g1 (Player.setQuestFlag (player g1) "terminal_access_granted") in
        tell g2 (Player.gainExperience (player g2) 15)
      else say g [Screen.NowhereToSwipe]
  | Item.WearSpacesuit =>
      if currentLocation g =? 3 then
        let g1 := say g [Screen.SuitOn] in
        let g2 := setPlayer g1 (Player.setQuestFlag (player g1) "spacesuit_equipped") in
        tell g2 (Player.gainExperience (player g2) 10)
      else say g [Screen.SuitMustWait]
  end.

(** [Item::use]: [if (isUsable && useEffect) useEffect();] *)
Definition use (g : t) (item : Item.t) : t :=
  match Item.isUsable item, Item.useEffect item with
  | true, Some e => effect g e
  | _, _ => g
  end.

(** [pickupItem]; [choice] is the number read, which is read only when
    there are items. *)
Definition pickupItem (g : t) (choice : Z) : option t :=
  match here g with
  | None => None
  | Some l =>
      let items := Location.getItems l in
      match items with
      | [] => Some (say g [Screen.NoItemsHere])
      | _ =>
          let g1 := say g [Screen.AvailableItems (listing items)] in
          if (0 <? choice) && (choice <=? Z.of_nat (length items)) then
            match items !! Z.to_nat (choice - 1) with
            | None => None
            | Some item =>
                if Item.isPickable item then
                  let g2 := setPlayer g1 (Player.addItem (player g1) item) in
                  let g3 :=
                    setLocations g2
                      (<[Z.to_nat (currentLocation g2) :=
                           Location.removeItem l (Item.name item)]> (locations g2)) in
                  let g4 := setPlayer g3 (Player.incrementItemsCollected (player g3)) in
                  let g5 := say g4 [Screen.PickedUp (Item.name item)] in
                  Some (tell g5 (Player.gainExperience (player g5) 5))
                else Some (say g1 [Screen.CannotPickUp])
            end
          else Some g1
      end
  end.

(** *** The loop of [run] *)

(** What one pass of the loop reads from [std::cin] outside an encounter:
    the menu choice and the number the chosen branch asks for, if it asks
    for one. *)
Record Turn : Type := mkTurn { choice : Z; number : Z }.

Inductive Outcome : Type :=
| Continue (g : t) (rounds : list Game.Round)   (* the pass is over; the rounds not read *)
| InCombat (s : Game.Combat)                    (* [handleCombat] is waiting for input *)
| Undefined.                                    (* an index outside its vector *)

Definition andThen (o : Outcome) (k : t -> list Game.Round -> Outcome) : Outcome :=
  match o with
  | Continue g rounds => k g rounds
  | InCombat s => InCombat s
  | Undefined => Undefined
  end.

Definition lift (o : option t) (rounds : list Game.Round) : Outcome :=
  match o with
  | Some g => Continue g rounds
  | None => Undefined
  end.

(** The rounds an encounter leaves unread. *)
Fixpoint unread (s : Game.Combat) (rounds : list Game.Round) : list Game.Round :=
  if Game.inCombat s then
    match rounds with
    | [] => []
    | i :: rest => unread (Game.round s i) rest
    end
  else rounds.

(** [handleCombat(enemies[0])] *)
Definition fight (g : t) (rounds : list Game.Round) : Outcome :=
  match enemies g !! 0%nat with
  | None => Undefined
  | Some e =>
      match Game.handleCombat (player g) e rounds with
      | Game.AwaitingInput s => InCombat s
      | Game.Returned s =>
          Continue
            (say (setEnemies (setPlayer g (Game.player s))
                    (<[0%nat := Game.enemy s]> (enemies g)))
               (map Screen.Said (Game.out s)))
            (unread (Game.start (player g) e) rounds)
      end
  end.

(** [case 1] *)
Definition move (g : t) (loc : Z) : t :=
  let g1 := say g [Screen.AvailableLocations (map Location.name (locations g))] in
  if (1 <=? loc) && (loc <=? Z.of_nat (length (locations g1))) then
    let g2 := setCurrentLocation g1 (Int.sub loc 1) in
    setPlayer g2 (Player.incrementSteps (player g2))
  else g1.

(** [case 2] *)
Definition interactWith (g : t) (interactionChoice : Z) (rounds : list Game.Round)
    : Outcome :=
  match here g with
  | None => Undefined
  | Some l =>
      let available := Location.getAvailableInteractions l in
      let g1 := say g [Screen.AvailableInteractions available] in
      match available with
      | [] => Continue (say g1 [Screen.NoInteractions]) rounds
      | _ =>
          let g2 := say g1 [Screen.ChooseInteraction] in
          if (1 <=? interactionChoice)
             && (interactionChoice <=? Z.of_nat (length available)) then
            match available !! Z.to_nat (interactionChoice - 1) with
            | None => Undefined
            | Some action =>
                let g3 := say g2 [Screen.Narrative (Location.interact l action)] in
                if String.eqb action "hack terminal" then
                  fight (setPlayer g3 (Player.setQuestFlag (player g3) "terminal_hacked"))
                    rounds
                else if String.eqb action "activate airlock"
                        && Player.hasQuestFlag (player g3) "terminal_hacked"
                        && Player.hasQuestFlag (player g3) "security_defeated" then
                  let g4 := setPlayer g3 (Player.setQuestFlag (player g3) "airlock_escaped") in
                  let g5 := setHasEscaped g4 true in
                  let g6 := say g5 [Screen.EscapedWithTruth] in
                  Continue (setGameOver g6 true) rounds
                else Continue g3 rounds
            end
          else Continue g2 rounds
      end
  end.

(** The [switch] on the menu choice. *)
Definition dispatch (g : t) (turn : Turn) (rounds : list Game.Round) : Outcome :=
  match choice turn with
  | 1 => Continue (move g (number turn)) rounds
  | 2 => interactWith g (number turn) rounds
  | 3 => lift (pickupItem g (number turn)) rounds
  | 4 => Continue (say g [Screen.PlayerSheet (player g)]) rounds
  | 5 =>
      Continue
        (say g [Screen.StatusReport
                  (Player.hasQuestFlag (player g) "terminal_hacked")
                  (Player.hasQuestFlag (player g) "security_defeated")
                  (Player.hasQuestFlag (player g) "airlock_escaped")])
        rounds
  | 6 => Continue (setGameOver g true) rounds
  | _ => Continue (say g [Screen.InvalidChoice]) rounds
  end.

(** "Special interaction handling": the ambush in the Terminal Room. *)
Definition ambush (g : t) (rounds : list Game.Round) : Outcome :=
  if (currentLocation g =? 1)
     && Player.hasQuestFlag (player g) "terminal_access_granted"
     && negb (Player.hasQuestFlag (player g) "security_defeated") then
    fight (say g [Screen.BotDetected]) rounds
  else Continue g rounds.

(** The escape through the airlock in the spacesuit. *)
Definition suitEscape (g : t) : t :=
  if (currentLocation g =? 3)
     && Player.hasQuestFlag (player g) "security_defeated"
     && Player.hasQuestFlag (player g) "spacesuit_equipped" then
    setGameOver (say (setHasEscaped g true) [Screen.EscapedInSuit]) true
  else g.

(** "Quest progress checking": [quests[0].updateObjective(0, 1)]. *)
Definition questProgress (g : t) : option t :=
  if Player.hasQuestFlag (player g) "read_classified_info"
     && Player.hasQuestFlag (player g) "touched_monolith"
     && Player.hasQuestFlag (player g) "spacesuit_equipped" then
    match quests g !! 0%nat with
    | None => None
    | Some q => Some (setQuests g (<[0%nat := Quest.updateObjective q 0 1]> (quests g)))
    end
  else Some g.

(** The end of a pass: the pause, and the victory screen. *)
Definition wrapUp (g : t) : t :=
  let g1 := if negb (gameOver g) then say g [Screen.PressEnter] else g in
  if hasEscaped g1 then displayEndGameStats (say g1 [Screen.Victory]) else g1.

(** One pass of the [while] loop. *)
Definition pass (g : t) (turn : Turn) (rounds : list Game.Round) : Outcome :=
  match displayLocation g with
  | None => Undefined
  | Some g1 =>
      andThen (dispatch (say g1 [Screen.Options]) turn rounds) (fun g2 rounds2 =>
      andThen (ambush g2 rounds2) (fun g3 rounds3 =>
      lift (option_map wrapUp (questProgress (suitEscape g3))) rounds3))
  end.

Inductive RunOutcome : Type :=
| Finished (g : t)                     (* the loop was left *)
| AwaitingTurn (g : t)                 (* at the menu, input used up *)
| AwaitingRound (s : Game.Combat)      (* in an encounter, input used up *)
| Crashed.                             (* an index outside its vector *)

(** [while (!gameOver && !hasEscaped)] *)
Fixpoint loop (g : t) (turns : list Turn) (rounds : list Game.Round) : RunOutcome :=
  if negb (gameOver g) && negb (hasEscaped g) then
    match turns with
    | [] => AwaitingTurn g
    | turn :: rest =>
        match pass g turn rounds with
        | Continue g' rounds' => loop g' rest rounds'
        | InCombat s => AwaitingRound s
        | Undefined => Crashed
        end
    end
  else Finished g.

(** [run]: nothing in its [try] block throws in this checkpoint. *)
Definition run (g : t) (turns : list Turn) (rounds : list Game.Round) : RunOutcome :=
  loop (say g [Screen.Title; Screen.Welcome]) turns rounds.

(** The state a run has reached when it is at the menu or past the loop. *)
Definition reached (o : RunOutcome) : option t :=
  match o with
  | Finished g | AwaitingTurn g => Some g
  | AwaitingRound _ | Crashed => None
  end.

(** *** What [run] keeps true *)

(** The four items, by the index of the location they start at. *)
Definition home : list Item.t := [datapad; keycard; Game.emp; spacesuit].

(** The player carries the item. *)
Definition has (g : t) (item : Item.t) : bool :=
  bool_decide (item ∈ Player.inventory (player g)).

(** A location as set up, with its item or without. *)
Definition shelf (taken : bool) (l : Location.t) : Location.t :=
  if taken then
    Location.mk (Location.name l) (Location.description l) (Location.interactions l) []
      (Location.availableInteractions l)
  else l.

Definition stock (a b c d : bool) : list Location.t :=
  zip_with shelf [a; b; c; d] initializeLocations.

(** The flags [run] can set. *)
Definition knownFlags : list string :=
  ["terminal_hacked"; "security_defeated"; "airlock_escaped"].

(** The invariant of the loop of [run]. *)
Record Sound (g : t) : Prop :=
  { sound_index : 0 <= currentLocation g < 4;
    sound_stock :
      locations g = stock (has g datapad) (has g keycard) (has g Game.emp) (has g spacesuit);
    sound_inventory :
      NoDup (Player.inventory (player g))
      /\ forall item, item ∈ Player.inventory (player g) -> item ∈ home;
    sound_collected :
      Player.itemsCollected (player g) = Z.of_nat (length (Player.inventory (player g)));
    sound_experience :
      Player.experience (player g)
      = 5 * Player.itemsCollected (player g)
        + (if Player.hasQuestFlag (player g) "security_defeated" then 50 else 0);
    sound_flags :
      forall flag, Player.hasQuestFlag (player g) flag = true -> flag ∈ knownFlags;
    sound_enemies :
      exists bot, enemies g = [bot; Game.eliteGuard]
                  /\ Player.hasQuestFlag (player g) "security_defeated"
                     = negb (Enemy.isAlive bot);
    sound_vitals :
      Player.health (player g) = Stat.new "Health" 100
      /\ Player.energy (player g) = Stat.new "Energy" 100;
    sound_quests : quests g = [Game.mainQuest];
    sound_escape :
      hasEscaped g = true ->
      gameOver g = true /\ currentLocation g = 3
      /\ Player.hasQuestFlag (player g) "terminal_hacked" = true
      /\ Player.hasQuestFlag (player g) "security_defeated" = true
      /\ Player.hasQuestFlag (player g) "airlock_escaped" = true }.

Definition SoundOutcome (o : Outcome) : Prop :=
  match o with
  | Continue g _ => Sound g
  | InCombat _ => True
  | Undefined => False
  end.

Definition SoundRun (o : RunOutcome) : Prop :=
  match o with
  | Finished g | AwaitingTurn g => Sound g
  | AwaitingRound _ => True
  | Crashed => False
  end.

(** No fight can block: the bot is dead, or it is the new Security Bot and
    five rounds of input with draws within the dice are still to be read. *)
Definition Calm (g : t) (rounds : list Game.Round) : Prop :=
  exists bot,
    enemies g !! 0%nat = Some bot
    /\ (Enemy.isAlive bot = false
        \/ (bot = Game.securityBot
            /\ Forall Game.validRound rounds /\ (5 <= length rounds)%nat)).

Definition CalmOutcome (o : Outcome) : Prop :=
  match o with
  | Continue g rounds => Calm g rounds
  | InCombat _ | Undefined => False
  end.

(** A way through the game: take the datapad, walk to the Terminal Room,
    hack the terminal and beat the bot in five rounds, walk to the airlock
    and activate it. *)
Definition walkthrough : list Turn :=
  [mkTurn 3 1; mkTurn 1 2; mkTurn 2 1; mkTurn 1 4; mkTurn 2 2].

Definition walkthroughRounds : list Game.Round :=
  [Game.mkRound 1 0 0; Game.mkRound 1 0 0; Game.mkRound 1 0 0;
   Game.mkRound 1 0 0; Game.mkRound 1 0 0].

End Session.

(** ** The [Game] object of checkpoint 3 and its [run] loop *)

From Stdlib Require Import Ascii.

Module Screen3.

(** The messages of checkpoint 3's [Game], as in [Screen]. *)
Inductive line : Type :=
| Title
| NamePrompt                                 (* "Enter your character's name: " *)
| Introduction (playerName : string)         (* "Chapter 1: The Discovery" and the three lines after it *)
| LocationHeader (name description : string)
| YouSee (items : list (string * string))
| PossibleInteractions (keys : list string)
| Options                                    (* the eight options and "Enter your choice (1-8): " *)
| Monolith                                   (* drawMonolith *)
| Description (text : string)
| PlayerSheet (p : Player.t) (discovered : gset string)   (* player->display() *)
| AvailableLocations (names : list string)
| AvailableInteractions (keys : list string) (* and "Choose interaction (1-<n>) or 0 to cancel: " *)
| Narrative (text : string)
| NoItemsHere
| AvailableItems (items : list (string * string))
| PickedUp (name : string)
| CannotPickUp
| NoItemsToUse                               (* "You don't have any items to use." *)
| YourItems (items : list (string * string)) (* names and use descriptions, and the prompt *)
| CannotUse                                  (* "This item cannot be used." *)
| ReadTheDatapad                             (* the three lines of the datapad's effect *)
| SuitOn                                     (* the three lines of the spacesuit's effect *)
| SuitNeedsAirlock                           (* "You need to be at the airlock to use this." *)
| SwipedTheKeycard                           (* the two lines of the keycard's effect *)
| NowhereToSwipe                             (* "There's nowhere to use the keycard here." *)
| ActiveQuests (quests : list (string * bool))   (* name, and Completed! or In Progress *)
| ConfirmQuit                                (* "Are you sure you want to quit? (y/n): " *)
| FinalStatistics (p : Player.t) (discovered : gset string) (explored : Z) (total : nat)
    (read touched suited : bool)
| BotDetected
| PressEnter
| Error (what : string)                      (* "Error: <what>", from the handler of run *)
| Said (o : Console.output).

End Screen3.

Module Session3.

(** The fields of checkpoint 3's [Game]; [discoveredInteractions] is the
    [std::set] that this checkpoint's [Player] has besides the fields of
    [Player.t]. *)
Record t : Type :=
  mk { player : Player.t;
       discoveredInteractions : gset string;
       locations : list Location.t;
       gameOver : bool;
       currentLocation : Z;
       quests : list Quest.t;
       messageLog : list string;
       enemies : list Enemy.t;
       out : list Screen3.line }.

Definition setPlayer (g : t) (p : Player.t) : t :=
  mk p (discoveredInteractions g) (locations g) (gameOver g) (currentLocation g)
     (quests g) (messageLog g) (enemies g) (out g).

Definition setDiscovered (g : t) (d : gset string) : t :=
  mk (player g) d (locations g) (gameOver g) (currentLocation g)
     (quests g) (messageLog g) (enemies g) (out g).

Definition setLocations (g : t) (ls : list Location.t) : t :=
  mk (player g) (discoveredInteractions g) ls (gameOver g) (currentLocation g)
     (quests g) (messageLog g) (enemies g) (out g).

Definition setGameOver (g : t) (b : bool) : t :=
  mk (player g) (discoveredInteractions g) (locations g) b (currentLocation g)
     (quests g) (messageLog g) (enemies g) (out g).

Definition setCurrentLocation (g : t) (i : Z) : t :=
  mk (player g) (discoveredInteractions g) (locations g) (gameOver g) i
     (quests g) (messageLog g) (enemies g) (out g).

Definition setQuests (g : t) (qs : list Quest.t) : t :=
  mk (player g) (discoveredInteractions g) (locations g) (gameOver g) (currentLocation g)
     qs (messageLog g) (enemies g) (out g).

Definition setEnemies (g : t) (es : list Enemy.t) : t :=
  mk (player g) (discoveredInteractions g) (locations g) (gameOver g) (currentLocation g)
     (quests g) (messageLog g) es (out g).

Definition say (g : t) (lines : list Screen3.line) : t :=
  mk (player g) (discoveredInteractions g) (locations g) (gameOver g) (currentLocation g)
     (quests g) (messageLog g) (enemies g) (out g ++ lines).

Definition tell (g : t) (r : Player.t * list Console.output) : t :=
  say (setPlayer g (fst r)) (map Screen3.Said (snd r)).

(** *** Set-up *)

Definition datapad : Item.t :=
  Item.setUseEffect (Item.new "Datapad" "A tablet containing classified information" true true)
    Item.ReadDatapad "Access classified information about signals from beyond Pluto".

Definition spacesuit : Item.t :=
  Item.setUseEffect (Item.new "Spacesuit" "An emergency EVA suit" true true)
    Item.WearSpacesuit "Put on the suit when you're ready for EVA (only at airlock)".

Definition keycard : Item.t :=
  Item.setUseEffect
    (Item.new "Keycard" "A security keycard with level 2 clearance" true true)
    Item.SwipeKeycard "Use at terminals to access restricted areas".

Definition maintenanceBay : Location.t :=
  Location.addInteraction
    (Location.addInteraction
       (Location.addInteraction
          (Location.addItem
             (Location.addItem
                (Location.new "Maintenance Bay"
                   "A sterile white room filled with repair equipment and spare parts.")
                datapad)
             keycard)
          "examine tools"
          "You methodically search through the tools and equipment. Among them, you find a hidden datapad.")
       "check workbench"
       "The workbench is cluttered with various repair tools and spare parts.")
    "look under desk"
    "You find some old maintenance logs and a keycard that might be useful.".

Definition terminalRoom (playerName : string) : Location.t :=
  Location.addInteraction
    (Location.addInteraction
       (Location.addInteraction
          (Location.addInteraction
             (Location.new "HAL Terminal Room"
                "A quiet room with a single terminal. A red light pulses steadily.")
             "talk to computer"
             ("The AI responds in a calm voice: 'I'm sorry, but I can't let you share that information, "
              +:+ playerName +:+ ". This conversation can serve no purpose anymore.'"))
          "examine terminal"
          "The terminal displays various system diagnostics and security protocols.")
       "check cables"
       "The cables seem to lead to a hidden compartment behind the terminal.")
    "hack terminal"
    "As you attempt to hack the terminal, a security bot detects your presence!".

Definition monolithChamber : Location.t :=
  Location.addInteraction
    (Location.addInteraction
       (Location.addInteraction
          (Location.new "Monolith Chamber"
             "A mysterious black rectangular object stands in the center.")
          "touch monolith"
          "As your fingers brush the surface, you feel a strange vibration. Images of a distant habitable world flash through your mind.")
       "examine base"
       "The base of the monolith has strange markings that seem to pulse with an inner light.")
    "walk around monolith"
    "As you circle the monolith, you notice how it seems to absorb all reflections.".

Definition airlock : Location.t :=
  Location.addInteraction
    (Location.addInteraction
       (Location.addInteraction
          (Location.addItem
             (Location.new "Airlock" "The gateway between the station and the void of space.")
             spacesuit)
          "check airlock controls"
          "The airlock controls are functioning normally. Safety protocols are active.")
       "examine window"
       "Through the reinforced window, you can see the icy surface of Europa stretching to the horizon.")
    "inspect emergency gear"
    "The emergency gear station contains a spacesuit and other EVA equipment.".

Definition initializeLocations (playerName : string) : list Location.t :=
  [maintenanceBay; terminalRoom playerName; monolithChamber; airlock].

Definition mainQuest : Quest.t :=
  Quest.addObjective
    (Quest.addObjective
       (Quest.addObjective
          (Quest.new "Escape Europa" "Find a way to escape and reveal the truth")
          "Find classified data" 1)
       "Obtain spacesuit" 1)
    "Access the monolith" 1.

Definition initializeEnemies : list Enemy.t :=
  [Enemy.new "Security Bot" "Robot" 50 10 3; Enemy.new "Surveillance Drone" "Robot" 30 8 2].

Definition fresh (playerName : string) : t :=
  {| player := Player.new playerName;
     discoveredInteractions := ∅;
     locations := initializeLocations playerName;
     gameOver := false;
     currentLocation := 0;
     quests := [mainQuest];
     messageLog := [];
     enemies := initializeEnemies;
     out := [Screen3.Title; Screen3.NamePrompt] |}.

(** The constructor; [None] is the exception for an empty name. *)
Definition new (playerName : string) : option t :=
  if String.eqb playerName "" then None else Some (fresh playerName).

(** *** Members *)

Definition here (g : t) : option Location.t :=
  if currentLocation g <? 0 then None
  else locations g !! Z.to_nat (currentLocation g).

Definition listing (items : list Item.t) : list (string * string) :=
  map (fun item => (Item.name item, Item.description item)) items.

Definition displayLocation (g : t) : option t :=
  match here g with
  | None => None
  | Some l =>
      Some (say g
              ([Screen3.LocationHeader (Location.name l) (Location.description l)]
               ++ (match Location.getItems l with
                   | [] => []
                   | _ => [Screen3.YouSee (listing (Location.getItems l))]
                   end)
               ++ [Screen3.PossibleInteractions (Location.getAvailableInteractions l)]))
  end.

Definition displayEndGameStats (g : t) : t :=
  say g [Screen3.FinalStatistics (player g) (discoveredInteractions g)
           (Int.add (currentLocation g) 1) (length (locations g))
           (Player.hasQuestFlag (player g) "read_classified_info")
           (Player.hasQuestFlag (player g) "touched_monolith")
           (Player.hasQuestFlag (player g) "spacesuit_equipped")].

(** The closures of [initializeLocations]. *)
Definition effect (g : t) (e : Item.UseEffect) : t :=
  match e with
  | Item.ReadDatapad =>
      let g1 := say g [Screen3.ReadTheDatapad] in
      setPlayer g1 (Player.setQuestFlag (player g1) "read_classified_info")
  | Item.WearSpacesuit =>
      if currentLocation g =? 3 then
        let g1 := say g [Screen3.SuitOn] in
        setPlayer g1 (Player.setQuestFlag (player g1) "spacesuit_equipped")
      else say g [Screen3.SuitNeedsAirlock]
  | Item.SwipeKeycard =>
      if currentLocation g =? 1 then
        let g1 := say g [Screen3.SwipedTheKeycard] in
        tell g1 (Player.gainExperience (player g1) 15)
      else say g [Screen3.NowhereToSwipe]
  end.

(** [Item::use] *)
Definition use (g : t) (item : Item.t) : t :=
  match Item.isUsable item, Item.useEffect item with
  | true, Some e => effect g e
  | _, _ => g
  end.

Definition pickupItem (g : t) (choice : Z) : option t :=
  match here g with
  | None => None
  | Some l =>
      let items := Location.getItems l in
      match items with
      | [] => Some (say g [Screen3.NoItemsHere])
      | _ =>
          let g1 := say g [Screen3.AvailableItems (listing items)] in
          if (0 <? choice) && (choice <=? Z.of_nat (length items)) then
            match items !! Z.to_nat (choice - 1) with
            | None => None
            | Some item =>
                if Item.isPickable item then
                  let g2 := setPlayer g1 (Player.addItem (player g1) item) in
                  let g3 :=
                    setLocations g2
                      (<[Z.to_nat (currentLocation g2) :=
                           Location.removeItem l (Item.name item)]> (locations g2)) in
                  let g4 := setPlayer g3 (Player.incrementItemsCollected (player g3)) in
                  let g5 := say g4 [Screen3.PickedUp (Item.name item)] in
                  Some (tell g5 (Player.gainExperience (player g5) 5))
                else Some (say g1 [Screen3.CannotPickUp])
            end
          else Some g1
      end
  end.

(** *** The loop of [run] *)

(** What one pass reads outside an encounter: the menu choice, the number
    the chosen branch asks for, and the character read on quitting. *)
Record Turn : Type := mkTurn { choice : Z; number : Z; confirm : Ascii.ascii }.

Inductive Outcome : Type :=
| Continue (g : t) (rounds : list Game.Round)
| InCombat (s : Game.Combat)
| Thrown (g : t) (what : string)       (* a [std::runtime_error] on its way to [run]'s handler *)
| Undefined.

Definition andThen (o : Outcome) (k : t -> list Game.Round -> Outcome) : Outcome :=
  match o with
  | Continue g rounds => k g rounds
  | InCombat s => InCombat s
  | Thrown g what => Thrown g what
  | Undefined => Undefined
  end.

Definition lift (o : option t) (rounds : list Game.Round) : Outcome :=
  match o with
  | Some g => Continue g rounds
  | None => Undefined
  end.

(** The rounds an encounter of this checkpoint leaves unread. *)
Fixpoint unread (s : Game.Combat) (rounds : list Game.Round) : list Game.Round :=
  if Game.inCombat s then
    match rounds with
    | [] => []
    | i :: rest =>
        let '(s1, stop) := Checkpoint3.round s i in
        if stop then rest else unread s1 rest
    end
  else rounds.

(** [handleCombat(enemies[0])] *)
Definition fight (g : t) (rounds : list Game.Round) : Outcome :=
  match enemies g !! 0%nat with
  | None => Undefined
  | Some e =>
      match Checkpoint3.handleCombat (player g) e rounds with
      | Game.AwaitingInput s => InCombat s
      | Game.Returned s =>
          Continue
            (say (setEnemies (setPlayer g (Game.player s))
                    (<[0%nat := Game.enemy s]> (enemies g)))
               (map Screen3.Said (Game.out s)))
            (unread (Game.start (player g) e) rounds)
      end
  end.

(** [case 1] *)
Definition examine (g : t) : option t :=
  let g1 := if currentLocation g =? 2 then say g [Screen3.Monolith] else g in
  match here g1 with
  | None => None
  | Some l => Some (say g1 [Screen3.Description (Location.description l)])
  end.

(** [case 3] *)
Definition move (g : t) (loc : Z) : t :=
  let g1 := say g [Screen3.AvailableLocations (map Location.name (locations g))] in
  if (1 <=? loc) && (loc <=? Z.of_nat (length (locations g1))) then
    let g2 := setCurrentLocation g1 (Int.sub loc 1) in
    let g3 := setPlayer g2 (Player.incrementSteps (player g2)) in
    tell g3 (Player.gainExperience (player g3) 5)
  else g1.

(** [case 4] *)
Definition interactWith (g : t) (interactionChoice : Z) : option t :=
  match here g with
  | None => None
  | Some l =>
      let available := Location.getAvailableInteractions l in
      let g1 := say g [Screen3.AvailableInteractions available] in
      if (1 <=? interactionChoice)
         && (interactionChoice <=? Z.of_nat (length available)) then
        match available !! Z.to_nat (interactionChoice - 1) with
        | None => None
        | Some action =>
            let g2 := say g1 [Screen3.Narrative (Location.interact l action)] in
            let g3 := setDiscovered g2 ({[action]} ∪ discoveredInteractions g2) in
            if String.eqb action "touch monolith" then
              let g4 := setPlayer g3 (Player.setQuestFlag (player g3) "touched_monolith") in
              Some (tell g4 (Player.gainExperience (player g4) 20))
            else if String.eqb action "examine tools" || String.eqb action "look under desk"
            then Some (tell g3 (Player.gainExperience (player g3) 10))
            else if String.eqb action "inspect emergency gear" then
              if negb (Player.hasQuestFlag (player g3) "found_spacesuit") then
                let g4 := setPlayer g3 (Player.setQuestFlag (player g3) "found_spacesuit") in
                Some (tell g4 (Player.gainExperience (player g4) 15))
              else Some g3
            else Some g3
        end
      else Some g1
  end.

(** [case 6] *)
Definition useItem (g : t) (itemChoice : Z) : option t :=
  let inventory := Player.getInventory (player g) in
  match inventory with
  | [] => Some (say g [Screen3.NoItemsToUse])
  | _ =>
      let g1 :=
        say g [Screen3.YourItems
                 (map (fun item => (Item.name item, Item.useDescription item)) inventory)] in
      if (1 <=? itemChoice) && (itemChoice <=? Z.of_nat (length inventory)) then
        match inventory !! Z.to_nat (itemChoice - 1) with
        | None => None
        | Some item =>
            if Item.isUsable item then
              let g2 := use g1 item in
              Some (tell g2 (Player.gainExperience (player g2) 10))
            else Some (say g1 [Screen3.CannotUse])
        end
      else Some g1
  end.

(** [case 7] *)
Definition viewQuests (g : t) : t :=
  say g [Screen3.ActiveQuests
           (map (fun q => (Quest.name q, Quest.isCompleted q)) (quests g))].

(** [case 8] *)
Definition quit (g : t) (answer : Ascii.ascii) : t :=
  let g1 := say g [Screen3.ConfirmQuit] in
  if Ascii.eqb answer "y"%char || Ascii.eqb answer "Y"%char then
    displayEndGameStats (setGameOver g1 true)
  else g1.

Definition dispatch (g : t) (turn : Turn) (rounds : list Game.Round) : Outcome :=
  match choice turn with
  | 1 => lift (examine g) rounds
  | 2 => Continue (say g [Screen3.PlayerSheet (player g) (discoveredInteractions g)]) rounds
  | 3 => Continue (move g (number turn)) rounds
  | 4 => lift (interactWith g (number turn)) rounds
  | 5 => lift (pickupItem g (number turn)) rounds
  | 6 => lift (useItem g (number turn)) rounds
  | 7 => Continue (viewQuests g) rounds
  | 8 => Continue (quit g (confirm turn)) rounds
  | _ => Thrown g "Invalid choice!"
  end.

(** "Special interaction handling" *)
Definition ambush (g : t) (rounds : list Game.Round) : Outcome :=
  if (currentLocation g =? 1)
     && Player.hasQuestFlag (player g) "hack_attempt"
     && negb (Player.hasQuestFlag (player g) "combat_complete") then
    andThen (fight (say g [Screen3.BotDetected]) rounds) (fun g1 rounds1 =>
    Continue (setPlayer g1 (Player.setQuestFlag (player g1) "combat_complete")) rounds1)
  else Continue g rounds.

(** "Quest progress checking" *)
Definition questProgress (g : t) : option t :=
  if Player.hasQuestFlag (player g) "read_classified_info"
     && Player.hasQuestFlag (player g) "touched_monolith"
     && Player.hasQuestFlag (player g) "spacesuit_equipped" then
    match quests g !! 0%nat with
    | None => None
    | Some q => Some (setQuests g (<[0%nat := Quest.updateObjective q 0 1]> (quests g)))
    end
  else Some g.

Definition wrapUp (g : t) : t :=
  if negb (gameOver g) then say g [Screen3.PressEnter] else g.

Definition pass (g : t) (turn : Turn) (rounds : list Game.Round) : Outcome :=
  match displayLocation g with
  | None => Undefined
  | Some g1 =>
      andThen (dispatch (say g1 [Screen3.Options]) turn rounds) (fun g2 rounds2 =>
      andThen (ambush g2 rounds2) (fun g3 rounds3 =>
      lift (option_map wrapUp (questProgress g3)) rounds3))
  end.

Inductive RunOutcome : Type :=
| Finished (g : t)                     (* the loop was left with [gameOver] *)
| Aborted (g : t)                      (* an exception reached the handler of [run] *)
| AwaitingTurn (g : t)
| AwaitingRound (s : Game.Combat)
| Crashed.

(** [while (!gameOver)], inside the [try] of [run]. *)
Fixpoint loop (g : t) (turns : list Turn) (rounds : list Game.Round) : RunOutcome :=
  if negb (gameOver g) then
    match turns with
    | [] => AwaitingTurn g
    | turn :: rest =>
        match pass g turn rounds with
        | Continue g' rounds' => loop g' rest rounds'
        | InCombat s => AwaitingRound s
        | Thrown g' what => Aborted (say g' [Screen3.Error what])
        | Undefined => Crashed
        end
    end
  else Finished g.

Definition run (g : t) (turns : list Turn) (rounds : list Game.Round) : RunOutcome :=
  loop (say g [Screen3.Title; Screen3.Introduction (Player.name (player g))]) turns rounds.

Definition reached (o : RunOutcome) : option t :=
  match o with
  | Finished g | Aborted g | AwaitingTurn g => Some g
  | AwaitingRound _ | Crashed => None
  end.

(** *** What [run] keeps true *)

Definition home : list Item.t := [datapad; keycard; spacesuit].

Definition has (g : t) (item : Item.t) : bool :=
  bool_decide (item ∈ Player.inventory (player g)).

(** The Maintenance Bay with what is left of its two items. *)
Definition bay (datapadTaken keycardTaken : bool) : Location.t :=
  Location.mk (Location.name maintenanceBay) (Location.description maintenanceBay)
    (Location.interactions maintenanceBay)
    ((if datapadTaken then [] else [datapad]) ++ (if keycardTaken then [] else [keycard]))
    (Location.availableInteractions maintenanceBay).

Definition stock (playerName : string) (a b c : bool) : list Location.t :=
  [bay a b; terminalRoom playerName; monolithChamber; Session.shelf c airlock].

Definition knownFlags : list string :=
  ["touched_monolith"; "found_spacesuit"; "read_classified_info"; "spacesuit_equipped"].

(** The invariant of the loop of [run]. *)
Record Sound (g : t) : Prop :=
  { sound_index : 0 <= currentLocation g < 4;
    sound_stock :
      locations g
      = stock (Player.name (player g)) (has g datapad) (has g keycard) (has g spacesuit);
    sound_inventory :
      NoDup (Player.inventory (player g))
      /\ forall item, item ∈ Player.inventory (player g) -> item ∈ home;
    sound_collected :
      Player.itemsCollected (player g) = Z.of_nat (length (Player.inventory (player g)));
    sound_flags :
      forall flag, Player.hasQuestFlag (player g) flag = true -> flag ∈ knownFlags;
    sound_read :
      Player.hasQuestFlag (player g) "read_classified_info" = true -> has g datapad = true;
    sound_suited :
      Player.hasQuestFlag (player g) "spacesuit_equipped" = true -> has g spacesuit = true;
    sound_enemies : enemies g = initializeEnemies;
    sound_vitals :
      Player.health (player g) = Stat.new "Health" 100
      /\ Player.energy (player g) = Stat.new "Energy" 100;
    sound_quests :
      quests g = [mainQuest]
      \/ (quests g = [Quest.updateObjective mainQuest 0 1]
          /\ Player.hasQuestFlag (player g) "read_classified_info" = true
          /\ Player.hasQuestFlag (player g) "touched_monolith" = true
          /\ Player.hasQuestFlag (player g) "spacesuit_equipped" = true) }.

Definition SoundOutcome (o : Outcome) : Prop :=
  match o with
  | Continue g _ | Thrown g _ => Sound g
  | InCombat _ | Undefined => False
  end.

Definition SoundRun (o : RunOutcome) : Prop :=
  match o with
  | Finished g | Aborted g | AwaitingTurn g => Sound g
  | AwaitingRound _ | Crashed => False
  end.

(** A way through checkpoint 3: take the datapad and the keycard, read the
    datapad, touch the monolith, take the spacesuit and put it on at the
    airlock, look at the quests, and quit. *)
Definition walkthrough : list Turn :=
  [mkTurn 5 1 "n"; mkTurn 5 1 "n"; mkTurn 6 1 "n"; mkTurn 3 3 "n"; mkTurn 4 1 "n";
   mkTurn 3 4 "n"; mkTurn 5 1 "n"; mkTurn 6 3 "n"; mkTurn 7 0 "n"; mkTurn 8 0 "y"].

End Session3.

(** ** Checkpoint 1 *)

(** [src/checkpoint/checkpoint1.cpp], the first version of the game: health
    is a plain [int], the inventory holds names, a location has only its
    interactions, and [run] loops until option 5 returns from it. *)

Module Player1.

(** [GameObject], [Character] and [Player]. *)
Record t : Type := mk
  { name : string;
    description : string;
    health : Z;
    maxHealth : Z;
    inventory : list string }.

Definition new (n : string) : t := mk n "A maintenance worker on Europa" 100 100 [].

(** [Character::takeDamage]; [None] is the [std::invalid_argument]. *)
Definition takeDamage (c : t) (damage : Z) : option t :=
  if damage <? 0 then None
  else
    Some (mk (name c) (description c) (Z.max 0 (Int.sub (health c) damage))
            (maxHealth c) (inventory c)).

Definition addItem (c : t) (item : string) : t :=
  mk (name c) (description c) (health c) (maxHealth c) (inventory c ++ [item]).

End Player1.

Module Location1.

Record t : Type := mk
  { name : string;
    description : string;
    interactions : gmap string string }.

Definition new (n desc : string) : t := mk n desc ∅.

Definition addInteraction (l : t) (key response : string) : t :=
  mk (name l) (description l) (<[key := response]> (interactions l)).

Definition interact (l : t) (key : string) : string :=
  match interactions l !! key with
  | Some response => response
  | None => "Nothing interesting happens."
  end.

End Location1.

Module Screen1.

Inductive line : Type :=
| Title
| NamePrompt                                 (* "Enter your character's name: " *)
| Introduction (chapter : Z) (playerName : string)
    (* "Chapter <n>: The Discovery" and the two lines after it *)
| LocationHeader (name description : string)
| Options                                    (* the five options and "Enter your choice (1-5): " *)
| Examining                                  (* the box drawn by option 1 *)
| Description (text : string)
| PlayerSheet (p : Player1.t)                (* player->display() *)
| AvailableLocations (names : list string)   (* and "Choose location (1-<n>): " *)
| AiWelcome                                  (* the two lines spoken on entering the terminal room *)
| ActionPrompt                               (* "What would you like to do? ..." *)
| Narrative (text : string)
| Insight                                    (* "You've gained insight into humanity's next step..." *)
| Error (what : string).                     (* "Error: <what>", from the handler of run *)

Definition isAiWelcome (l : line) : bool :=
  match l with AiWelcome => true | _ => false end.

Definition isInsight (l : line) : bool :=
  match l with Insight => true | _ => false end.

End Screen1.

Module Session1.

(** [Game] *)
Record t : Type := mk
  { player : Player1.t;
    chapter : Z;
    locations : list Location1.t;
    hasMonolith : bool;
    hasAIAccess : bool;
    currentLocation : Z;
    out : list Screen1.line }.

Definition setPlayer (g : t) (p : Player1.t) : t :=
  mk p (chapter g) (locations g) (hasMonolith g) (hasAIAccess g) (currentLocation g) (out g).

Definition setHasMonolith (g : t) (b : bool) : t :=
  mk (player g) (chapter g) (locations g) b (hasAIAccess g) (currentLocation g) (out g).

Definition setHasAIAccess (g : t) (b : bool) : t :=
  mk (player g) (chapter g) (locations g) (hasMonolith g) b (currentLocation g) (out g).

Definition setCurrentLocation (g : t) (i : Z) : t :=
  mk (player g) (chapter g) (locations g) (hasMonolith g) (hasAIAccess g) i (out g).

Definition say (g : t) (lines : list Screen1.line) : t :=
  mk (player g) (chapter g) (locations g) (hasMonolith g) (hasAIAccess g)
     (currentLocation g) (out g ++ lines).

Definition initializeLocations (playerName : string) : list Location1.t :=
  [ Location1.addInteraction
      (Location1.new "Maintenance Bay"
         "A sterile white room filled with repair equipment and spare parts.")
      "examine tools"
      "Among the tools, you find a tablet containing classified information about a signal from beyond Pluto.";
    Location1.addInteraction
      (Location1.new "HAL Terminal Room"
         "A quiet room with a single terminal. A red light pulses steadily.")
      "talk to computer"
      ("The AI responds in a calm voice: 'I'm sorry, but I can't let you share that information, "
       +:+ playerName +:+ ". This conversation can serve no purpose anymore.'");
    Location1.addInteraction
      (Location1.new "Monolith Chamber"
         "A mysterious black rectangular object stands in the center.")
      "touch monolith"
      "As your fingers brush the surface, you feel a strange vibration. Images of a distant habitable world flash through your mind.";
    Location1.addInteraction
      (Location1.new "Airlock" "The gateway between the station and the void of space.")
      "check supplies"
      "You find an emergency spacesuit and enough oxygen for a short EVA (Extra-Vehicular Activity)." ].

(** The constructor, given the name read from [std::cin]. *)
Definition new (playerName : string) : t :=
  {| player := Player1.new playerName;
     chapter := 1;
     locations := initializeLocations playerName;
     hasMonolith := false;
     hasAIAccess := false;
     currentLocation := 0;
     out := [Screen1.Title; Screen1.NamePrompt] |}.

(** [locations[currentLocation]]; [None] stands for an index outside the
    vector, which C++ leaves undefined. *)
Definition here (g : t) : option Location1.t :=
  if currentLocation g <? 0 then None
  else locations g !! Z.to_nat (currentLocation g).

Definition displayLocation (g : t) : option t :=
  match here g with
  | None => None
  | Some l =>
      Some (say g [Screen1.LocationHeader (Location1.name l) (Location1.description l)])
  end.

(** What one pass of the loop reads: the menu choice, the number option 3
    asks for, and the line option 4 asks for. *)
Record Turn : Type := mkTurn { choice : Z; number : Z; action : string }.

Inductive Outcome : Type :=
| Continue (g : t)
| Return (g : t)                       (* [return] from [run], option 5 *)
| Thrown (g : t) (what : string)       (* a [std::runtime_error] on its way to [run]'s handler *)
| Undefined.

Definition lift (o : option t) : Outcome :=
  match o with
  | Some g => Continue g
  | None => Undefined
  end.

(** [case 1] *)
Definition examine (g : t) : option t :=
  let g1 := say g [Screen1.Examining] in
  match here g1 with
  | None => None
  | Some l => Some (say g1 [Screen1.Description (Location1.description l)])
  end.

(** [case 3] *)
Definition move (g : t) (loc : Z) : t :=
  let g1 := say g [Screen1.AvailableLocations (map Location1.name (locations g))] in
  if (1 <=? loc) && (loc <=? Z.of_nat (length (locations g1))) then
    let g2 := setCurrentLocation g1 (Int.sub loc 1) in
    if (currentLocation g2 =? 1) && negb (hasAIAccess g2) then
      setHasAIAccess (say g2 [Screen1.AiWelcome]) true
    else g2
  else g1.

(** [case 4] *)
Definition interactWith (g : t) (act : string) : option t :=
  let g1 := say g [Screen1.ActionPrompt] in
  match here g1 with
  | None => None
  | Some l =>
      let g2 := say g1 [Screen1.Narrative (Location1.interact l act)] in
      if String.eqb act "touch monolith" && negb (hasMonolith g2) then
        let g3 := setHasMonolith g2 true in
        let g4 := setPlayer g3 (Player1.addItem (player g3) "Monolith Knowledge") in
        Some (say g4 [Screen1.Insight])
      else Some g2
  end.

Definition dispatch (g : t) (turn : Turn) : Outcome :=
  match choice turn with
  | 1 => lift (examine g)
  | 2 => Continue (say g [Screen1.PlayerSheet (player g)])
  | 3 => Continue (move g (number turn))
  | 4 => lift (interactWith g (action turn))
  | 5 => Return g
  | _ => Thrown g "Invalid choice!"
  end.

(** The body of [while (true)]. *)
Definition pass (g : t) (turn : Turn) : Outcome :=
  match displayLocation g with
  | None => Undefined
  | Some g1 => dispatch (say g1 [Screen1.Options]) turn
  end.

Inductive RunOutcome : Type :=
| Finished (g : t)                     (* option 5 returned from [run] *)
| Aborted (g : t)                      (* an exception reached the handler of [run] *)
| AwaitingTurn (g : t)                 (* the input ended at the menu *)
| Crashed.

(** [while (true)], inside the [try] of [run]. *)
Fixpoint loop (g : t) (turns : list Turn) : RunOutcome :=
  match turns with
  | [] => AwaitingTurn g
  | turn :: rest =>
      match pass g turn with
      | Continue g' => loop g' rest
      | Return g' => Finished g'
      | Thrown g' what => Aborted (say g' [Screen1.Error what])
      | Undefined => Crashed
      end
  end.

Definition run (g : t) (turns : list Turn) : RunOutcome :=
  loop (say g [Screen1.Title;
               Screen1.Introduction (chapter g) (Player1.name (player g))])
    turns.

Definition reached (o : RunOutcome) : option t :=
  match o with
  | Finished g | Aborted g | AwaitingTurn g => Some g
  | Crashed => None
  end.

(** *** What [run] keeps true *)

Definition shown (which : Screen1.line -> bool) (g : t) : nat :=
  length (List.filter which (out g)).

Record Sound (playerName : string) (g : t) : Prop :=
  { sound_index : 0 <= currentLocation g < 4;
    sound_name : Player1.name (player g) = playerName;
    sound_locations : locations g = initializeLocations playerName;
    sound_vitals :
      Player1.health (player g) = 100 /\ Player1.maxHealth (player g) = 100;
    sound_chapter : chapter g = 1;
    sound_inventory :
      Player1.inventory (player g)
      = if hasMonolith g then ["Monolith Knowledge"] else [];
    sound_insight :
      shown Screen1.isInsight g = if hasMonolith g then 1%nat else 0%nat;
    sound_welcome :
      shown Screen1.isAiWelcome g = if hasAIAccess g then 1%nat else 0%nat;
    sound_access :
      hasAIAccess g = false -> currentLocation g <> 1 }.

Definition SoundOutcome (playerName : string) (o : Outcome) : Prop :=
  match o with
  | Continue g | Return g | Thrown g _ => Sound playerName g
  | Undefined => False
  end.

Definition SoundRun (playerName : string) (o : RunOutcome) : Prop :=
  match o with
  | Finished g | Aborted g | AwaitingTurn g => Sound playerName g
  | Crashed => False
  end.

End Session1.

(** ** Checkpoint 2 *)

(** [src/checkpoint/checkpoint2.cpp]: the classes are those of checkpoint 3
    without quests and combat, so [Player.t], [Item.t], [Location.t] and the
    three items are shared with it; [Game] counts chapters instead. *)

Module Screen2.

Inductive line : Type :=
| Title
| NamePrompt                                 (* "Enter your character's name: " *)
| Introduction (chapter : Z) (playerName : string)
    (* "Chapter <n>: The Discovery" and the two lines after it *)
| LocationHeader (name description : string)
| YouSee (items : list (string * string))
| PossibleInteractions (keys : list string)
| Options                                    (* the seven options and "Enter your choice (1-7): " *)
| Monolith                                   (* drawMonolith *)
| Description (text : string)
| PlayerSheet (p : Player.t) (discovered : gset string)   (* player->display() *)
| AvailableLocations (names : list string)
| AvailableInteractions (keys : list string) (* and "Choose interaction (1-<n>) or 0 to cancel: " *)
| Narrative (text : string)
| NoItemsHere
| AvailableItems (items : list (string * string))
| PickedUp (name : string)
| CannotPickUp
| NoItemsToUse                               (* "You don't have any items to use." *)
| YourItems (items : list (string * string)) (* names and use descriptions, and the prompt *)
| CannotUse                                  (* "This item cannot be used." *)
| ReadTheDatapad                             (* the three lines of the datapad's effect *)
| SuitOn                                     (* the three lines of the spacesuit's effect *)
| SuitNeedsAirlock                           (* "You need to be at the airlock to use this." *)
| SwipedTheKeycard                           (* the two lines of the keycard's effect *)
| NowhereToSwipe                             (* "There's nowhere to use the keycard here." *)
| ConfirmQuit                                (* "Are you sure you want to quit? (y/n): " *)
| FinalStatistics (p : Player.t) (discovered : gset string) (chapter explored : Z)
    (total : nat) (read touched suited : bool)
| TheEscape (chapter : Z)
    (* "Chapter <n>: The Escape" and the two lines after it *)
| PressEnter
| Error (what : string)                      (* "Error: <what>", from the handler of run *)
| Said (o : Console.output).

Definition isTheEscape (l : line) : bool :=
  match l with TheEscape _ => true | _ => false end.

(** The line "Gained 50 experience!". *)
Definition isChapterBonus (l : line) : bool :=
  match l with Said (Console.GainedExperience exp) => exp =? 50 | _ => false end.

End Screen2.

Module Session2.

(** The fields of checkpoint 2's [Game]; [discoveredInteractions] is the
    [std::set] that this checkpoint's [Player] has besides the fields of
    [Player.t]. *)
Record t : Type :=
  mk { player : Player.t;
       discoveredInteractions : gset string;
       chapter : Z;
       locations : list Location.t;
       gameOver : bool;
       currentLocation : Z;
       out : list Screen2.line }.

Definition setPlayer (g : t) (p : Player.t) : t :=
  mk p (discoveredInteractions g) (chapter g) (locations g) (gameOver g)
     (currentLocation g) (out g).

Definition setDiscovered (g : t) (d : gset string) : t :=
  mk (player g) d (chapter g) (locations g) (gameOver g) (currentLocation g) (out g).

Definition setChapter (g : t) (c : Z) : t :=
  mk (player g) (discoveredInteractions g) c (locations g) (gameOver g)
     (currentLocation g) (out g).

Definition setLocations (g : t) (ls : list Location.t) : t :=
  mk (player g) (discoveredInteractions g) (chapter g) ls (gameOver g)
     (currentLocation g) (out g).

Definition setGameOver (g : t) (b : bool) : t :=
  mk (player g) (discoveredInteractions g) (chapter g) (locations g) b
     (currentLocation g) (out g).

Definition setCurrentLocation (g : t) (i : Z) : t :=
  mk (player g) (discoveredInteractions g) (chapter g) (locations g) (gameOver g) i (out g).

Definition say (g : t) (lines : list Screen2.line) : t :=
  mk (player g) (discoveredInteractions g) (chapter g) (locations g) (gameOver g)
     (currentLocation g) (out g ++ lines).

Definition tell (g : t) (r : Player.t * list Console.output) : t :=
  say (setPlayer g (fst r)) (map Screen2.Said (snd r)).

(** *** Set-up *)

(** The terminal room has no "hack terminal" yet. *)
Definition terminalRoom (playerName : string) : Location.t :=
  Location.addInteraction
    (Location.addInteraction
       (Location.addInteraction
          (Location.new "HAL Terminal Room"
             "A quiet room with a single terminal. A red light pulses steadily.")
          "talk to computer"
          ("The AI responds in a calm voice: 'I'm sorry, but I can't let you share that information, "
           +:+ playerName +:+ ". This conversation can serve no purpose anymore.'"))
       "examine terminal"
       "The terminal displays various system diagnostics and security protocols.")
    "check cables"
    "The cables seem to lead to a hidden compartment behind the terminal.".

Definition initializeLocations (playerName : string) : list Location.t :=
  [Session3.maintenanceBay; terminalRoom playerName; Session3.monolithChamber;
   Session3.airlock].

Definition fresh (playerName : string) : t :=
  {| player := Player.new playerName;
     discoveredInteractions := ∅;
     chapter := 1;
     locations := initializeLocations playerName;
     gameOver := false;
     currentLocation := 0;
     out := [Screen2.Title; Screen2.NamePrompt] |}.

(** The constructor; [None] is the exception for an empty name. *)
Definition new (playerName : string) : option t :=
  if String.eqb playerName "" then None else Some (fresh playerName).

(** *** Members *)

Definition here (g : t) : option Location.t :=
  if currentLocation g <? 0 then None
  else locations g !! Z.to_nat (currentLocation g).

Definition displayLocation (g : t) : option t :=
  match here g with
  | None => None
  | Some l =>
      Some (say g
              ([Screen2.LocationHeader (Location.name l) (Location.description l)]
               ++ (match Location.getItems l with
                   | [] => []
                   | _ => [Screen2.YouSee (Session3.listing (Location.getItems l))]
                   end)
               ++ [Screen2.PossibleInteractions (Location.getAvailableInteractions l)]))
  end.

Definition displayEndGameStats (g : t) : t :=
  say g [Screen2.FinalStatistics (player g) (discoveredInteractions g) (chapter g)
           (Int.add (currentLocation g) 1) (length (locations g))
           (Player.hasQuestFlag (player g) "read_classified_info")
           (Player.hasQuestFlag (player g) "touched_monolith")
           (Player.hasQuestFlag (player g) "spacesuit_equipped")].

(** The closures of [initializeLocations]. *)
Definition effect (g : t) (e : Item.UseEffect) : t :=
  match e with
  | Item.ReadDatapad =>
      let g1 := say g [Screen2.ReadTheDatapad] in
      setPlayer g1 (Player.setQuestFlag (player g1) "read_classified_info")
  | Item.WearSpacesuit =>
      if currentLocation g =? 3 then
        let g1 := say g [Screen2.SuitOn] in
        setPlayer g1 (Player.setQuestFlag (player g1) "spacesuit_equipped")
      else say g [Screen2.SuitNeedsAirlock]
  | Item.SwipeKeycard =>
      if currentLocation g =? 1 then
        let g1 := say g [Screen2.SwipedTheKeycard] in
        tell g1 (Player.gainExperience (player g1) 15)
      else say g [Screen2.NowhereToSwipe]
  end.

(** [Item::use] *)
Definition use (g : t) (item : Item.t) : t :=
  match Item.isUsable item, Item.useEffect item with
  | true, Some e => effect g e
  | _, _ => g
  end.

Definition pickupItem (g : t) (choice : Z) : option t :=
  match here g with
  | None => None
  | Some l =>
      let items := Location.getItems l in
      match items with
      | [] => Some (say g [Screen2.NoItemsHere])
      | _ =>
          let g1 := say g [Screen2.AvailableItems (Session3.listing items)] in
          if (0 <? choice) && (choice <=? Z.of_nat (length items)) then
            match items !! Z.to_nat (choice - 1) with
            | None => None
            | Some item =>
                if Item.isPickable item then
                  let g2 := setPlayer g1 (Player.addItem (player g1) item) in
                  let g3 :=
                    setLocations g2
                      (<[Z.to_nat (currentLocation g2) :=
                           Location.removeItem l (Item.name item)]> (locations g2)) in
                  let g4 := setPlayer g3 (Player.incrementItemsCollected (player g3)) in
                  let g5 := say g4 [Screen2.PickedUp (Item.name item)] in
                  Some (tell g5 (Player.gainExperience (player g5) 5))
                else Some (say g1 [Screen2.CannotPickUp])
            end
          else Some g1
      end
  end.

(** *** The loop of [run] *)

(** What one pass reads: the menu choice, the number the chosen branch asks
    for, and the character read on quitting. *)
Record Turn : Type := mkTurn { choice : Z; number : Z; confirm : Ascii.ascii }.

Inductive Outcome : Type :=
| Continue (g : t)
| Thrown (g : t) (what : string)       (* a [std::runtime_error] on its way to [run]'s handler *)
| Undefined.

Definition lift (o : option t) : Outcome :=
  match o with
  | Some g => Continue g
  | None => Undefined
  end.

(** [case 1] *)
Definition examine (g : t) : option t :=
  let g1 := if currentLocation g =? 2 then say g [Screen2.Monolith] else g in
  match here g1 with
  | None => None
  | Some l => Some (say g1 [Screen2.Description (Location.description l)])
  end.

(** [case 3] *)
Definition move (g : t) (loc : Z) : t :=
  let g1 := say g [Screen2.AvailableLocations (map Location.name (locations g))] in
  if (1 <=? loc) && (loc <=? Z.of_nat (length (locations g1))) then
    let g2 := setCurrentLocation g1 (Int.sub loc 1) in
    let g3 := setPlayer g2 (Player.incrementSteps (player g2)) in
    tell g3 (Player.gainExperience (player g3) 5)
  else g1.

(** [case 4] *)
Definition interactWith (g : t) (interactionChoice : Z) : option t :=
  match here g with
  | None => None
  | Some l =>
      let available := Location.getAvailableInteractions l in
      let g1 := say g [Screen2.AvailableInteractions available] in
      if (1 <=? interactionChoice)
         && (interactionChoice <=? Z.of_nat (length available)) then
        match available !! Z.to_nat (interactionChoice - 1) with
        | None => None
        | Some action =>
            let g2 := say g1 [Screen2.Narrative (Location.interact l action)] in
            let g3 := setDiscovered g2 ({[action]} ∪ discoveredInteractions g2) in
            if String.eqb action "touch monolith" then
              let g4 := setPlayer g3 (Player.setQuestFlag (player g3) "touched_monolith") in
              Some (tell g4 (Player.gainExperience (player g4) 20))
            else if String.eqb action "examine tools" || String.eqb action "look under desk"
            then Some (tell g3 (Player.gainExperience (player g3) 10))
            else if String.eqb action "inspect emergency gear" then
              if negb (Player.hasQuestFlag (player g3) "found_spacesuit") then
                let g4 := setPlayer g3 (Player.setQuestFlag (player g3) "found_spacesuit") in
                Some (tell g4 (Player.gainExperience (player g4) 15))
              else Some g3
            else Some g3
        end
      else Some g1
  end.

(** [case 6] *)
Definition useItem (g : t) (itemChoice : Z) : option t :=
  let inventory := Player.getInventory (player g) in
  match inventory with
  | [] => Some (say g [Screen2.NoItemsToUse])
  | _ =>
      let g1 :=
        say g [Screen2.YourItems
                 (map (fun item => (Item.name item, Item.useDescription item)) inventory)] in
      if (1 <=? itemChoice) && (itemChoice <=? Z.of_nat (length inventory)) then
        match inventory !! Z.to_nat (itemChoice - 1) with
        | None => None
        | Some item =>
            if Item.isUsable item then
              let g2 := use g1 item in
              Some (tell g2 (Player.gainExperience (player g2) 10))
            else Some (say g1 [Screen2.CannotUse])
        end
      else Some g1
  end.

(** [case 7] *)
Definition quit (g : t) (answer : Ascii.ascii) : t :=
  let g1 := say g [Screen2.ConfirmQuit] in
  if Ascii.eqb answer "y"%char || Ascii.eqb answer "Y"%char then
    displayEndGameStats (setGameOver g1 true)
  else g1.

Definition dispatch (g : t) (turn : Turn) : Outcome :=
  match choice turn with
  | 1 => lift (examine g)
  | 2 => Continue (say g [Screen2.PlayerSheet (player g) (discoveredInteractions g)])
  | 3 => Continue (move g (number turn))
  | 4 => lift (interactWith g (number turn))
  | 5 => lift (pickupItem g (number turn))
  | 6 => lift (useItem g (number turn))
  | 7 => Continue (quit g (confirm turn))
  | _ => Thrown g "Invalid choice!"
  end.

(** The three flags of the first chapter. *)
Definition gathered (p : Player.t) : bool :=
  Player.hasQuestFlag p "read_classified_info"
  && Player.hasQuestFlag p "touched_monolith"
  && Player.hasQuestFlag p "spacesuit_equipped".

(** "Check for chapter completion" *)
Definition chapterCompletion (g : t) : t :=
  if gathered (player g) && (chapter g =? 1) then
    let g1 := setChapter g (Int.add (chapter g) 1) in
    let g2 := say g1 [Screen2.TheEscape (chapter g1)] in
    tell g2 (Player.gainExperience (player g2) 50)
  else g.

Definition wrapUp (g : t) : t :=
  if negb (gameOver g) then say g [Screen2.PressEnter] else g.

Definition pass (g : t) (turn : Turn) : Outcome :=
  match displayLocation g with
  | None => Undefined
  | Some g1 =>
      match dispatch (say g1 [Screen2.Options]) turn with
      | Continue g2 => Continue (wrapUp (chapterCompletion g2))
      | Thrown g2 what => Thrown g2 what
      | Undefined => Undefined
      end
  end.

Inductive RunOutcome : Type :=
| Finished (g : t)                     (* the loop was left with [gameOver] *)
| Aborted (g : t)                      (* an exception reached the handler of [run] *)
| AwaitingTurn (g : t)
| Crashed.

(** [while (!gameOver)], inside the [try] of [run]. *)
Fixpoint loop (g : t) (turns : list Turn) : RunOutcome :=
  if negb (gameOver g) then
    match turns with
    | [] => AwaitingTurn g
    | turn :: rest =>
        match pass g turn with
        | Continue g' => loop g' rest
        | Thrown g' what => Aborted (say g' [Screen2.Error what])
        | Undefined => Crashed
        end
    end
  else Finished g.

Definition run (g : t) (turns : list Turn) : RunOutcome :=
  loop (say g [Screen2.Title;
               Screen2.Introduction (chapter g) (Player.name (player g))])
    turns.

Definition reached (o : RunOutcome) : option t :=
  match o with
  | Finished g | Aborted g | AwaitingTurn g => Some g
  | Crashed => None
  end.

(** *** What [run] keeps true *)

Definition shown (which : Screen2.line -> bool) (g : t) : nat :=
  length (List.filter which (out g)).

Record Sound (g : t) : Prop :=
  { sound_index : 0 <= currentLocation g < 4;
    sound_locations : length (locations g) = 4%nat;
    sound_chapter : chapter g = if gathered (player g) then 2 else 1;
    sound_escape :
      shown Screen2.isTheEscape g = if gathered (player g) then 1%nat else 0%nat;
    sound_bonus :
      shown Screen2.isChapterBonus g = if gathered (player g) then 1%nat else 0%nat }.

(** The flags are only added to, and nothing but the chapter check touches
    the chapter or prints its lines. *)
Record Grows (g g' : t) : Prop :=
  { grows_index : 0 <= currentLocation g' < 4;
    grows_locations : length (locations g') = 4%nat;
    grows_chapter : chapter g' = chapter g;
    grows_flags :
      forall flag,
        Player.hasQuestFlag (player g) flag = true ->
        Player.hasQuestFlag (player g') flag = true;
    grows_escape : shown Screen2.isTheEscape g' = shown Screen2.isTheEscape g;
    grows_bonus : shown Screen2.isChapterBonus g' = shown Screen2.isChapterBonus g }.

Definition inBounds (g : t) : Prop :=
  0 <= currentLocation g < 4 /\ length (locations g) = 4%nat.

Definition GrowsOutcome (g : t) (o : Outcome) : Prop :=
  match o with
  | Continue g' | Thrown g' _ => Grows g g'
  | Undefined => False
  end.

Definition SoundOutcome (o : Outcome) : Prop :=
  match o with
  | Continue g | Thrown g _ => Sound g
  | Undefined => False
  end.

Definition SoundRun (o : RunOutcome) : Prop :=
  match o with
  | Finished g | Aborted g | AwaitingTurn g => Sound g
  | Crashed => False
  end.

(** Both items of the bay, the monolith, the spacesuit and the airlock. *)
Definition walkthrough : list Turn :=
  [mkTurn 5 1 "n"; mkTurn 6 1 "n"; mkTurn 3 3 "n"; mkTurn 4 1 "n";
   mkTurn 3 4 "n"; mkTurn 5 1 "n"; mkTurn 6 2 "n"; mkTurn 7 0 "y"].

End Session2.

(** * Properties *)

Section StatProperties.

Import Stat.

Lemma modify_maximum s amount : maximum (modify s amount) = maximum s.
Proof. reflexivity. Qed.

(** C5. For every [Stat] with [0 <= current <= maximum] and every amount,
    positive or negative (and whatever the sum [current + amount] wraps to),
    [modify] leaves [0 <= current <= maximum]; the maximum is kept. *)
Theorem modify_keeps_bounds (s : t) (amount : Z) :
  bounded s ->
  bounded (modify s amount) /\ maximum (modify s amount) = maximum s.
Proof.
  unfold bounded. intros [Hlo Hhi]. split; [|reflexivity].
  cbn [modify current maximum].
  split.
  - apply Z.le_max_l.
  - apply Z.max_lub; [lia | apply Z.le_min_l].
Qed.

Lemma modify_keeps_bounds_witness :
  bounded (new "Health" 100) /\
  bounded (modify (new "Health" 100) (-250)) /\
  maximum (modify (new "Health" 100) (-250)) = maximum (new "Health" 100).
Proof.
  split.
  - unfold bounded; simpl; lia.
  - apply (modify_keeps_bounds (new "Health" 100) (-250)).
    unfold bounded; simpl; lia.
Defined.

End StatProperties.

Section CombatEntityProperties.

Import CombatEntity.

Lemma takeDamage_health_nonneg (e : t) (d : Z) : 0 <= health (takeDamage e d).
Proof. cbn [takeDamage health]. apply Z.le_max_l. Qed.

Lemma takeDamage_keeps_stats (e : t) (d : Z) :
  name (takeDamage e d) = name e /\
  attack (takeDamage e d) = attack e /\
  defense (takeDamage e d) = defense e.
Proof. repeat split. Qed.

Lemma isAlive_iff (e : t) : isAlive e = true <-> 0 < health e.
Proof. unfold isAlive. apply Z.ltb_lt. Qed.

(** The health after a hit, when both differences are representable. *)
Lemma takeDamage_exact (e : t) (d : Z) :
  Int.in_range (d - defense e) ->
  Int.in_range (health e - Z.max 0 (d - defense e)) ->
  health (takeDamage e d) = Z.max 0 (health e - Z.max 0 (d - defense e)).
Proof.
  intros Hd Hh. cbn [takeDamage health].
  rewrite (Int.sub_exact d) by assumption.
  rewrite Int.sub_exact by assumption.
  reflexivity.
Qed.

(** Both differences are representable whenever health, defense and damage
    are non-negative [int]s. *)
Lemma takeDamage_exact_nonneg (e : t) (d : Z) :
  well_typed e -> Int.in_range d ->
  0 <= health e -> 0 <= defense e -> 0 <= d ->
  health (takeDamage e d) = Z.max 0 (health e - Z.max 0 (d - defense e)).
Proof.
  intros (Hh & _ & Hdf) Hd Hhp Hdp Hdn.
  apply takeDamage_exact; int_bounds; lia.
Qed.

(** C2. [takeDamage(d)] sets the health to
    [max(0, h - max(0, d - def))] whenever the two differences fit an [int]:
    the health never goes below 0, and a hit on a non-negative health never
    raises it.  The Security Bot (50, 10, 3) hit by 8 is left with 45. *)
Theorem takeDamage_sets_health (e : t) (d : Z) :
  Int.in_range (d - defense e) ->
  Int.in_range (health e - Z.max 0 (d - defense e)) ->
  health (takeDamage e d) = Z.max 0 (health e - Z.max 0 (d - defense e))
  /\ 0 <= health (takeDamage e d)
  /\ (0 <= health e -> health (takeDamage e d) <= health e)
  /\ Enemy.getHealth (Enemy.takeDamage (Enemy.new "Security Bot" "Robot" 50 10 3) 8) = 45.
Proof.
  intros Hd Hh.
  pose proof (takeDamage_exact e d Hd Hh) as Heq.
  split; [exact Heq|].
  split; [apply takeDamage_health_nonneg|].
  split; [|reflexivity].
  intros Hpos. rewrite Heq. lia.
Qed.

Lemma takeDamage_sets_health_witness :
  let bot := mk "Security Bot" 50 10 3 in
  Int.in_range (8 - defense bot) /\
  Int.in_range (health bot - Z.max 0 (8 - defense bot)) /\
  health (takeDamage bot 8) = Z.max 0 (health bot - Z.max 0 (8 - defense bot)).
Proof.
  assert (H1 : Int.in_range (8 - defense (mk "Security Bot" 50 10 3)))
    by (int_bounds; simpl; lia).
  assert (H2 : Int.in_range (health (mk "Security Bot" 50 10 3)
                             - Z.max 0 (8 - defense (mk "Security Bot" 50 10 3))))
    by (int_bounds; simpl; lia).
  split; [exact H1|]. split; [exact H2|].
  exact (proj1 (takeDamage_sets_health (mk "Security Bot" 50 10 3) 8 H1 H2)).
Defined.

(** C7, as stated, fails: with a negative defense a negative damage still
    hurts, and by less than a damage of 0 does. *)
Lemma takeDamage_negative_damage_counterexample :
  let e := mk "Scrap Drone" 50 10 (-5) in
  well_typed e /\
  health (takeDamage e (-1)) = 46 /\
  health (takeDamage e (Z.max (-1) 0)) = 45 /\
  health (takeDamage e (-1)) <> health (takeDamage e (Z.max (-1) 0)).
Proof.
  cbv zeta. split.
  - unfold well_typed; int_bounds; simpl; lia.
  - split; [reflexivity|]. split; [reflexivity|]. discriminate.
Qed.

(** C7, amended.  For an entity whose defense is not negative, and a damage
    [d] for which [d - defense] fits an [int], [takeDamage(d)] leaves the
    health [takeDamage(max(d, 0))] leaves; a negative [d] changes nothing
    when the health is not negative either. *)
Theorem takeDamage_clamps_negative_damage (e : t) (d : Z) :
  well_typed e ->
  0 <= defense e ->
  Int.in_range (d - defense e) ->
  health (takeDamage e d) = health (takeDamage e (Z.max d 0))
  /\ (d < 0 -> 0 <= health e -> takeDamage e d = e).
Proof.
  intros (Hh & _ & Hdef) Hpos Hd.
  destruct (Z.le_gt_cases 0 d) as [Hge | Hneg].
  - rewrite Z.max_l by assumption. split; [reflexivity | lia].
  - rewrite Z.max_r by lia.
    assert (Hz : Int.in_range (0 - defense e)) by (int_bounds; lia).
    assert (Hl : Z.max 0 (Int.sub d (defense e)) = 0)
      by (rewrite Int.sub_exact by assumption; lia).
    assert (Hr : Z.max 0 (Int.sub 0 (defense e)) = 0)
      by (rewrite Int.sub_exact by assumption; lia).
    split.
    + cbn [takeDamage health]. rewrite Hl, Hr. reflexivity.
    + intros _ Hhp. destruct e as [n h a df]. cbn in *.
      unfold takeDamage; cbn. rewrite Hl.
      rewrite Int.sub_exact by (rewrite Z.sub_0_r; assumption).
      f_equal. lia.
Qed.

Lemma takeDamage_clamps_negative_damage_witness :
  let bot := mk "Security Bot" 50 10 3 in
  well_typed bot /\ 0 <= defense bot /\ Int.in_range (-7 - defense bot) /\
  health (takeDamage bot (-7)) = health (takeDamage bot (Z.max (-7) 0)).
Proof.
  assert (H1 : well_typed (mk "Security Bot" 50 10 3))
    by (unfold well_typed; int_bounds; simpl; lia).
  assert (H2 : 0 <= defense (mk "Security Bot" 50 10 3)) by (simpl; lia).
  assert (H3 : Int.in_range (-7 - defense (mk "Security Bot" 50 10 3)))
    by (int_bounds; simpl; lia).
  split; [exact H1|]. split; [exact H2|]. split; [exact H3|].
  exact (proj1 (takeDamage_clamps_negative_damage (mk "Security Bot" 50 10 3) (-7) H1 H2 H3)).
Defined.

End CombatEntityProperties.

Section CombatPlayerProperties.

Import CombatPlayer.

Lemma levelUp_exact (p : t) :
  levelUpFits p ->
  let p' := fst (levelUp p) in
  level p' = level p + 1 /\
  CombatEntity.health (base p') = CombatEntity.health (base p) + 10 /\
  CombatEntity.attack (base p') = CombatEntity.attack (base p) + 5 /\
  CombatEntity.defense (base p') = CombatEntity.defense (base p) + 3 /\
  experience p' = 0 /\
  snd (levelUp p) = [Console.LevelUp (level p + 1)].
Proof.
  intros (Hl & Hh & Ha & Hd). cbn.
  rewrite !Int.add_exact by assumption. repeat split.
Qed.

(** The test [experience >= level * 100] on the accumulated experience. *)
Lemma gainExperience_cases (p : t) (exp : Z) :
  gainExperience p exp =
    let p1 := mk (base p) (level p) (Int.add (experience p) exp) (abilities p) in
    if Int.mul (level p) 100 <=? Int.add (experience p) exp then levelUp p1 else (p1, []).
Proof. reflexivity. Qed.

(** C4. With the sums and the product representable, [gainExperience(exp)]
    levels up exactly when [experience + exp >= level * 100]: then the level
    grows by 1, health by 10, attack by 5, defense by 3, the experience is 0
    and one level-up is reported; otherwise only the experience changes.  A
    new player (level 1, 0 XP) given 150 XP is at level 2 with 0 XP after
    one level-up. *)
Theorem gainExperience_levels_up (p : t) (exp : Z) :
  Int.in_range (experience p + exp) ->
  Int.in_range (level p * 100) ->
  levelUpFits p ->
  let p' := fst (gainExperience p exp) in
  let reported := snd (gainExperience p exp) in
  (level p * 100 <= experience p + exp ->
     level p' = level p + 1 /\
     CombatEntity.health (base p') = CombatEntity.health (base p) + 10 /\
     CombatEntity.attack (base p') = CombatEntity.attack (base p) + 5 /\
     CombatEntity.defense (base p') = CombatEntity.defense (base p) + 3 /\
     experience p' = 0 /\
     reported = [Console.LevelUp (level p + 1)])
  /\ (experience p + exp < level p * 100 ->
     p' = mk (base p) (level p) (experience p + exp) (abilities p) /\
     reported = [])
  /\ (forall n,
     level (fst (gainExperience (new n) 150)) = 2 /\
     experience (fst (gainExperience (new n) 150)) = 0 /\
     snd (gainExperience (new n) 150) = [Console.LevelUp 2]).
Proof.
  intros Hsum Hprod Hfits p' reported. subst p' reported.
  rewrite gainExperience_cases. cbv zeta.
  rewrite Int.add_exact by assumption.
  rewrite Int.mul_exact by assumption.
  split; [|split].
  - intros Hge. apply Z.leb_le in Hge. rewrite Hge.
    apply (levelUp_exact (mk (base p) (level p) (experience p + exp) (abilities p))).
    exact Hfits.
  - intros Hlt. apply Z.leb_gt in Hlt. rewrite Hlt. split; reflexivity.
  - intros n. repeat split.
Qed.

Lemma gainExperience_levels_up_witness :
  let p := new "Ada" in
  Int.in_range (experience p + 150) /\
  Int.in_range (level p * 100) /\
  levelUpFits p /\
  level (fst (gainExperience p 150)) = level p + 1 /\
  experience (fst (gainExperience p 150)) = 0.
Proof.
  assert (H1 : Int.in_range (experience (new "Ada") + 150)) by (int_bounds; simpl; lia).
  assert (H2 : Int.in_range (level (new "Ada") * 100)) by (int_bounds; simpl; lia).
  assert (H3 : levelUpFits (new "Ada")) by (unfold levelUpFits; int_bounds; simpl; lia).
  assert (H4 : level (new "Ada") * 100 <= experience (new "Ada") + 150) by (simpl; lia).
  pose proof (proj1 (gainExperience_levels_up (new "Ada") 150 H1 H2 H3) H4) as H.
  split; [exact H1|]. split; [exact H2|]. split; [exact H3|].
  split; [exact (proj1 H) | exact (proj1 (proj2 (proj2 (proj2 (proj2 H)))))].
Defined.

End CombatPlayerProperties.

Section QuestProperties.

Import Quest.

Lemma updateObjective_in_range (q : t) (index : nat) (value : Z) :
  (index < length (objectives q))%nat ->
  updateObjective q index value =
    mk (name q) (description q)
       (alter (fun o => QuestObjective.updateProgress o value) index (objectives q))
       (forallb QuestObjective.isCompleted
          (alter (fun o => QuestObjective.updateProgress o value) index (objectives q))).
Proof.
  intros Hlt. unfold updateObjective.
  apply Nat.ltb_lt in Hlt. rewrite Hlt. reflexivity.
Qed.

Lemma updateProgress_flagAgrees (o : QuestObjective.t) (value : Z) :
  flagAgrees (QuestObjective.updateProgress o value).
Proof. reflexivity. Qed.

Lemma new_flagAgrees (desc : string) (target : Z) :
  0 < target -> flagAgrees (QuestObjective.new desc target).
Proof.
  intros Hpos. unfold flagAgrees; cbn. symmetry. apply Z.leb_gt. exact Hpos.
Qed.

(** Objectives added with a positive target keep the flags in agreement. *)
Lemma addObjective_flagAgrees (q : t) (desc : string) (target : Z) :
  0 < target ->
  Forall flagAgrees (objectives q) ->
  Forall flagAgrees (objectives (addObjective q desc target)).
Proof.
  intros Hpos Hall. cbn. apply Forall_app. split; [exact Hall|].
  constructor; [apply new_flagAgrees; exact Hpos | constructor].
Qed.

Lemma mainQuest_flagAgrees : Forall flagAgrees (objectives Game.mainQuest).
Proof.
  unfold Game.mainQuest.
  repeat (apply addObjective_flagAgrees; [lia|]). constructor.
Qed.

(** Where the flags agree with the counters, the conjunction of the flags
    is the conjunction of the threshold tests. *)
Lemma flags_are_thresholds (l : list QuestObjective.t) :
  Forall flagAgrees l ->
  forallb QuestObjective.isCompleted l =
  forallb (fun o => QuestObjective.target o <=? QuestObjective.current o) l.
Proof.
  induction 1 as [|o l Ho _ IH]; [reflexivity|].
  cbn. unfold QuestObjective.isCompleted at 1. rewrite Ho, IH. reflexivity.
Qed.

(** Every [updateObjective], in range or not, keeps a quest whose flag is
    the conjunction of the thresholds in that state. *)
Lemma updateObjective_keeps_agreement (q : t) (index : nat) (value : Z) :
  Forall flagAgrees (objectives q) ->
  isCompleted q = thresholdsMet q ->
  Forall flagAgrees (objectives (updateObjective q index value)) /\
  isCompleted (updateObjective q index value)
  = thresholdsMet (updateObjective q index value).
Proof.
  intros Hall Hq. unfold updateObjective.
  destruct (index <? length (objectives q))%nat; [|split; assumption].
  assert (Hall' : Forall flagAgrees
            (alter (fun o => QuestObjective.updateProgress o value) index (objectives q))).
  { apply Forall_alter; [exact Hall|]. intros o _ _. apply updateProgress_flagAgrees. }
  split; [exact Hall'|].
  unfold isCompleted, thresholdsMet. cbn [checkCompletion objectives completed].
  apply flags_are_thresholds. exact Hall'.
Qed.

(** C10. An index at or past the number of objectives: [updateObjective]
    returns the quest as it was, objectives and [completed] included. *)
Theorem updateObjective_out_of_range (q : t) (index : nat) (value : Z) :
  (length (objectives q) <= index)%nat ->
  updateObjective q index value = q.
Proof.
  intros Hge. unfold updateObjective.
  apply Nat.ltb_ge in Hge. rewrite Hge. reflexivity.
Qed.

Lemma updateObjective_out_of_range_witness :
  (length (objectives Game.mainQuest) <= 3)%nat /\
  updateObjective Game.mainQuest 3 1 = Game.mainQuest.
Proof.
  assert (H : (length (objectives Game.mainQuest) <= 3)%nat) by (simpl; lia).
  split; [exact H | exact (updateObjective_out_of_range Game.mainQuest 3 1 H)].
Defined.

(** C6, as stated, fails twice over.  An objective whose target is 0 is
    created with [completed = false] and keeps that flag until it is itself
    updated, so an update of another objective leaves the quest open with
    every threshold met; and a call with an index out of range recomputes
    nothing, so a quest completed before an objective was added stays
    completed. *)
Lemma updateObjective_completed_counterexample :
  let q1 := addObjective (addObjective (new "Q" "two steps") "free" 0) "paid" 1 in
  let q2 := addObjective
              (updateObjective (addObjective (new "Q" "one step") "first" 1) 0 1)
              "second" 1 in
  (isCompleted (updateObjective q1 1 1) = false /\
   thresholdsMet (updateObjective q1 1 1) = true)
  /\ (isCompleted (updateObjective q2 5 1) = true /\
      thresholdsMet (updateObjective q2 5 1) = false).
Proof. cbv zeta. repeat split. Qed.

(** C6, amended.  On a quest whose objectives' flags agree with their
    counters (every objective added with a positive target, or updated
    since), an [updateObjective] with an index in range leaves the flags in
    agreement, sets exactly that objective's counter, and leaves
    [completed] equal to the conjunction of [current >= target] over all
    objectives: the quest is completed as soon as, and as long as, every
    threshold is met after the update. *)
Theorem updateObjective_recomputes_completed (q : t) (index : nat) (value : Z) :
  (index < length (objectives q))%nat ->
  Forall flagAgrees (objectives q) ->
  let q' := updateObjective q index value in
  Forall flagAgrees (objectives q')
  /\ QuestObjective.current <$> objectives q' !! index = Some value
  /\ isCompleted q' = thresholdsMet q'
  /\ (thresholdsMet q' = true -> isCompleted q' = true).
Proof.
  intros Hlt Hall q'. subst q'.
  rewrite updateObjective_in_range by exact Hlt.
  assert (Hall' : Forall flagAgrees
            (alter (fun o => QuestObjective.updateProgress o value) index (objectives q))).
  { apply Forall_alter; [exact Hall|]. intros o _ _. apply updateProgress_flagAgrees. }
  assert (Heq : forallb QuestObjective.isCompleted
                  (alter (fun o => QuestObjective.updateProgress o value) index (objectives q))
                = forallb (fun o => QuestObjective.target o <=? QuestObjective.current o)
                    (alter (fun o => QuestObjective.updateProgress o value) index (objectives q)))
    by (apply flags_are_thresholds; exact Hall').
  unfold isCompleted, thresholdsMet. cbn [objectives completed].
  split; [exact Hall'|]. split; [|split].
  - rewrite list_lookup_alter.
    destruct (lookup_lt_is_Some_2 (objectives q) index Hlt) as [o Ho].
    rewrite Ho. case_decide; [reflexivity | congruence].
  - exact Heq.
  - intros Hmet. rewrite Heq. exact Hmet.
Qed.

Lemma updateObjective_recomputes_completed_witness :
  (0 < length (objectives Game.mainQuest))%nat /\
  Forall flagAgrees (objectives Game.mainQuest) /\
  isCompleted (updateObjective Game.mainQuest 0 1)
  = thresholdsMet (updateObjective Game.mainQuest 0 1).
Proof.
  assert (H : (0 < length (objectives Game.mainQuest))%nat) by (simpl; lia).
  split; [exact H|]. split; [exact mainQuest_flagAgrees|].
  exact (proj1 (proj2 (proj2
    (updateObjective_recomputes_completed Game.mainQuest 0 1 H mainQuest_flagAgrees)))).
Defined.

End QuestProperties.

Section PlayerProperties.

Import Player.

Lemma hasQuestFlag_true (p : t) (flag : string) :
  hasQuestFlag p flag = true <-> is_Some (questFlags p !! flag).
Proof. unfold hasQuestFlag. apply bool_decide_eq_true. Qed.

Lemma setQuestFlag_sets (p : t) (flag : string) :
  hasQuestFlag (setQuestFlag p flag) flag = true.
Proof.
  apply hasQuestFlag_true. cbn [setQuestFlag questFlags].
  rewrite lookup_insert_eq. eauto.
Qed.

(** No call takes a key out of [questFlags]. *)
Lemma apply_keeps_flag (p : t) (op : Op) (flag : string) :
  hasQuestFlag p flag = true -> hasQuestFlag (apply p op) flag = true.
Proof.
  rewrite !hasQuestFlag_true. intros Hset.
  destruct op as [damage| item | | | exp | other]; cbn [apply].
  - unfold takeDamage. destruct (damage <? 0); exact Hset.
  - exact Hset.
  - exact Hset.
  - exact Hset.
  - unfold gainExperience. destruct (0 <? exp); exact Hset.
  - cbn [setQuestFlag questFlags].
    apply lookup_insert_is_Some'. right. exact Hset.
Qed.

Lemma run_keeps_flag (ops : list Op) (p : t) (flag : string) :
  hasQuestFlag p flag = true -> hasQuestFlag (run p ops) flag = true.
Proof.
  revert p. induction ops as [|op ops IH]; intros p Hset; [exact Hset|].
  cbn [run fold_left]. apply IH. apply apply_keeps_flag. exact Hset.
Qed.

Lemma run_app (p : t) (ops1 ops2 : list Op) :
  run p (ops1 ++ ops2) = run (run p ops1) ops2.
Proof. unfold run. apply fold_left_app. Qed.

(** C8. Once [setQuestFlag(f)] has been called, [hasQuestFlag(f)] is true
    after every later sequence of calls on the player: no member function
    removes a key of [questFlags]. *)
Theorem questFlag_never_cleared (p : t) (f : string) (ops : list Op) :
  hasQuestFlag (run (setQuestFlag p f) ops) f = true.
Proof. apply run_keeps_flag. apply setQuestFlag_sets. Qed.

End PlayerProperties.

Section CombatLoopProperties.

Import Game.

(** Splits on the two tests of the loop body. *)
Ltac round_cases s i :=
  unfold round;
  destruct (Enemy.isAlive (Enemy.takeDamage (enemy s) (playerDamage s i)));
  destruct (usesEmp (player s) i); cbn.

Lemma round_enemy (s : Combat) (i : Round) :
  enemy (round s i) = Enemy.takeDamage (enemy s) (playerDamage s i).
Proof. round_cases s i; reflexivity. Qed.

(** The enemy's turn is taken in every round, whatever the player's hit
    did to the enemy. *)
Lemma round_playerCombat (s : Combat) (i : Round) :
  playerCombat (round s i) =
  CombatPlayer.takeDamage (playerCombat s)
    (Enemy.calculateDamage (Enemy.takeDamage (enemy s) (playerDamage s i)) (enemyDraw i)).
Proof. round_cases s i; reflexivity. Qed.

(** What a round does to the overworld player, as calls on it. *)
Lemma round_player (s : Combat) (i : Round) :
  player (round s i) =
  if Enemy.isAlive (Enemy.takeDamage (enemy s) (playerDamage s i)) then player s
  else Player.run (player s) [Player.SetQuestFlag "security_defeated"; Player.GainExperience 50].
Proof. round_cases s i; reflexivity. Qed.

Lemma round_player_health (s : Combat) (i : Round) :
  Player.health (player (round s i)) = Player.health (player s).
Proof.
  rewrite round_player.
  destruct (Enemy.isAlive (Enemy.takeDamage (enemy s) (playerDamage s i))); reflexivity.
Qed.

Lemma round_keeps_flag (s : Combat) (i : Round) (flag : string) :
  Player.hasQuestFlag (player s) flag = true ->
  Player.hasQuestFlag (player (round s i)) flag = true.
Proof.
  intros Hset. rewrite round_player.
  destruct (Enemy.isAlive (Enemy.takeDamage (enemy s) (playerDamage s i)));
    [exact Hset | apply run_keeps_flag; exact Hset].
Qed.

Lemma inCombat_false (s : Combat) :
  inCombat s = false <->
  Enemy.isAlive (enemy s) = false \/ CombatPlayer.isAlive (playerCombat s) = false.
Proof. unfold inCombat. apply andb_false_iff. Qed.

Lemma inCombat_true (s : Combat) :
  inCombat s = true <->
  Enemy.isAlive (enemy s) = true /\ CombatPlayer.isAlive (playerCombat s) = true.
Proof. unfold inCombat. apply andb_true_iff. Qed.

(** The loop leaves exactly at a state in which one of the two is dead,
    and never touches the overworld player's health. *)
Lemma loop_exit (inputs : list Round) (s : Combat) :
  match loop s inputs with
  | Returned s' =>
      (Enemy.isAlive (enemy s') = false \/ CombatPlayer.isAlive (playerCombat s') = false)
      /\ Player.health (player s') = Player.health (player s)
  | AwaitingInput s' =>
      Enemy.isAlive (enemy s') = true /\ CombatPlayer.isAlive (playerCombat s') = true
  end.
Proof.
  revert s. induction inputs as [|i rest IH]; intros s; cbn [loop].
  - destruct (inCombat s) eqn:Hc.
    + apply inCombat_true. exact Hc.
    + split; [apply inCombat_false; exact Hc | reflexivity].
  - destruct (inCombat s) eqn:Hc.
    + specialize (IH (round s i)).
      destruct (loop (round s i) rest) as [s'|s']; [|exact IH].
      destruct IH as [Hdead Hhealth]. split; [exact Hdead|].
      rewrite Hhealth. apply round_player_health.
    + split; [apply inCombat_false; exact Hc | reflexivity].
Qed.

(** C1, as stated, fails: the loop test also ends the encounter when the
    proxy dies.  Against an enemy that hits for 120 the function returns
    after one round with the enemy at 485 health and the proxy at 0. *)
Lemma handleCombat_returns_with_enemy_alive :
  match handleCombat (Player.new "Ada") (Enemy.new "Warden" "Robot" 500 120 0)
          [mkRound 1 0 0] with
  | Returned s =>
      Enemy.getHealth (enemy s) = 485 /\
      Enemy.isAlive (enemy s) = true /\
      CombatPlayer.getHealth (playerCombat s) = 0
  | AwaitingInput _ => False
  end.
Proof. vm_compute. repeat split. Qed.

(** C1, amended.  The loop of the final checkpoint runs while the enemy
    and the combat proxy are both alive: when [handleCombat] returns, the
    enemy or the proxy is dead, and while it is still waiting for input both
    are alive.  There is no loss branch: the overworld player's health is
    what it was before the encounter. *)
Theorem handleCombat_exit_condition (p : Player.t) (e : Enemy.t) (inputs : list Round) :
  match handleCombat p e inputs with
  | Returned s =>
      (Enemy.isAlive (enemy s) = false \/ CombatPlayer.isAlive (playerCombat s) = false)
      /\ Player.health (player s) = Player.health p
  | AwaitingInput s =>
      Enemy.isAlive (enemy s) = true /\ CombatPlayer.isAlive (playerCombat s) = true
  end.
Proof. unfold handleCombat. apply (loop_exit inputs (start p e)). Qed.

End CombatLoopProperties.

Section PlayerTurnProperties.

Import Game.

Lemma usesEmp_with_items (p : Player.t) (i : Round) :
  choice i = 2 -> Player.inventory p <> [] -> usesEmp p i = true.
Proof.
  intros Hc Hinv. unfold usesEmp, Player.getInventory. rewrite Hc.
  destruct (Player.inventory p) as [|it rest]; [congruence | reflexivity].
Qed.

Lemma usesEmp_other_choice (p : Player.t) (i : Round) :
  choice i <> 2 -> usesEmp p i = false.
Proof.
  intros Hc. unfold usesEmp. apply Z.eqb_neq in Hc. rewrite Hc. reflexivity.
Qed.

(** C9. In a round of the final checkpoint, with the roll [attack + draw]
    and its double representable: choosing 2 with the EMP Device in the
    inventory hands twice the roll to the enemy's [takeDamage], choosing 1
    hands it the roll.  (The test the source makes is that the inventory is
    not empty, which holding the EMP Device implies.) *)
Theorem emp_doubles_the_roll (s : Combat) (i : Round) (item : Item.t) :
  let roll := CombatEntity.attack (CombatPlayer.base (playerCombat s)) + playerDraw i in
  Int.in_range roll ->
  Int.in_range (roll * 2) ->
  (choice i = 2 ->
   In item (Player.inventory (player s)) ->
   Item.name item = "EMP Device" ->
   playerDamage s i = roll * 2 /\
   enemy (round s i) = Enemy.takeDamage (enemy s) (roll * 2))
  /\ (choice i = 1 ->
      playerDamage s i = roll /\
      enemy (round s i) = Enemy.takeDamage (enemy s) roll).
Proof.
  intros roll Hroll Hdouble. subst roll.
  split.
  - intros Hc Hin _.
    assert (Hd : playerDamage s i
                 = (CombatEntity.attack (CombatPlayer.base (playerCombat s)) + playerDraw i) * 2).
    { unfold playerDamage. rewrite usesEmp_with_items.
      - unfold CombatPlayer.calculateDamage.
        rewrite Int.add_exact by assumption. apply Int.mul_exact. assumption.
      - exact Hc.
      - intros Hnil. rewrite Hnil in Hin. destruct Hin. }
    split; [exact Hd|]. rewrite round_enemy, Hd. reflexivity.
  - intros Hc.
    assert (Hd : playerDamage s i
                 = CombatEntity.attack (CombatPlayer.base (playerCombat s)) + playerDraw i).
    { unfold playerDamage. rewrite usesEmp_other_choice by lia.
      apply Int.add_exact. assumption. }
    split; [exact Hd|]. rewrite round_enemy, Hd. reflexivity.
Qed.

Lemma emp_doubles_the_roll_witness :
  let armed := start (Player.addItem (Player.new "Ada") emp) securityBot in
  Enemy.getHealth (enemy (round armed (mkRound 2 0 0))) = 23 /\
  Enemy.getHealth (enemy (round armed (mkRound 1 0 0))) = 38.
Proof.
  pose (armed := start (Player.addItem (Player.new "Ada") emp) securityBot).
  assert (H1 : Int.in_range
                 (CombatEntity.attack (CombatPlayer.base (playerCombat armed)) + 0))
    by (int_bounds; simpl; lia).
  assert (H2 : Int.in_range
                 ((CombatEntity.attack (CombatPlayer.base (playerCombat armed)) + 0) * 2))
    by (int_bounds; simpl; lia).
  assert (Hin : In emp (Player.inventory (player armed))) by (simpl; left; reflexivity).
  pose proof (proj1 (emp_doubles_the_roll armed (mkRound 2 0 0) emp H1 H2)
                eq_refl Hin eq_refl) as [_ Hemp].
  pose proof (proj2 (emp_doubles_the_roll armed (mkRound 1 0 0) emp H1 H2)
                eq_refl) as [_ Hbasic].
  cbv zeta. fold armed. rewrite Hemp, Hbasic. split; reflexivity.
Defined.

End PlayerTurnProperties.

Section WinBranchProperties.

Import Game.

(** In checkpoint 3 the round in which the enemy dies ends the loop at
    once: the proxy is not hit, and the player gets 25 experience. *)
Lemma checkpoint3_round_breaks_on_win (s : Combat) (i : Round) :
  let damage := CombatPlayer.calculateDamage (playerCombat s) (playerDraw i) in
  Enemy.isAlive (Enemy.takeDamage (enemy s) damage) = false ->
  snd (Checkpoint3.round s i) = true /\
  playerCombat (fst (Checkpoint3.round s i)) = playerCombat s /\
  player (fst (Checkpoint3.round s i)) = fst (Player.gainExperience (player s) 25).
Proof.
  intros damage Hdead. subst damage. unfold Checkpoint3.round.
  rewrite Hdead. cbn. repeat split.
Qed.

(** In the final checkpoint the same round sets the flag and awards 50
    experience, and then goes on to the enemy's turn. *)
Lemma round_win_branch (s : Combat) (i : Round) :
  Enemy.isAlive (Enemy.takeDamage (enemy s) (playerDamage s i)) = false ->
  Player.hasQuestFlag (player (round s i)) "security_defeated" = true /\
  Player.experience (player (round s i)) = Int.add (Player.experience (player s)) 50 /\
  playerCombat (round s i) =
    CombatPlayer.takeDamage (playerCombat s)
      (Enemy.calculateDamage (Enemy.takeDamage (enemy s) (playerDamage s i)) (enemyDraw i)).
Proof.
  intros Hdead. rewrite round_player, round_playerCombat, Hdead.
  split; [|split; reflexivity].
  change (Player.run (player s)
            [Player.SetQuestFlag "security_defeated"; Player.GainExperience 50])
    with (Player.run (Player.setQuestFlag (player s) "security_defeated")
            [Player.GainExperience 50]).
  apply run_keeps_flag. apply setQuestFlag_sets.
Qed.

End WinBranchProperties.

Section SecurityBotEncounter.

Import Game.

(** C3 on the code: the Security Bot, the basic attack chosen in every
    round, every draw 0.  After four rounds the bot has 2 health and the
    proxy 80.  The fifth hit brings the bot to 0, the flag is set and 50
    experience awarded, and in the same round the bot still deals 10: the
    function returns with the proxy at 75, after printing the bot's attack
    and one more health report. *)
Theorem handleCombat_defeated_enemy_strikes_back :
  let r := mkRound 1 0 0 in
  let p := Player.new "Ada" in
  match handleCombat p securityBot [r; r; r; r],
        handleCombat p securityBot [r; r; r; r; r] with
  | AwaitingInput s4, Returned s5 =>
      Enemy.getHealth (enemy s4) = 2 /\
      CombatPlayer.getHealth (playerCombat s4) = 80 /\
      Enemy.getHealth (enemy s5) = 0 /\
      Player.hasQuestFlag (player s5) "security_defeated" = true /\
      Player.experience (player s5) = 50 /\
      CombatPlayer.getHealth (playerCombat s5) = 75 /\
      out s5 = out s4 ++ [Console.CombatMenu;
                          Console.YouDeal 15;
                          Console.YouDefeated "Security Bot";
                          Console.GainedExperience 50;
                          Console.EnemyDeals "Security Bot" 10;
                          Console.HealthReport 75 "Security Bot" 0]
  | _, _ => False
  end.
Proof. vm_compute. repeat split. Qed.

(** Checkpoint 3 on the same input stops at the fifth hit: the proxy keeps
    its 80 health and the bot's attack is not printed. *)
Lemma checkpoint3_handleCombat_stops_at_defeat :
  let r := mkRound 1 0 0 in
  match Checkpoint3.handleCombat (Player.new "Ada") securityBot [r; r; r; r; r] with
  | Returned s =>
      Enemy.getHealth (enemy s) = 0 /\
      CombatPlayer.getHealth (playerCombat s) = 80 /\
      Player.experience (player s) = 25 /\
      last (out s) = Some (Console.GainedExperience 25)
  | AwaitingInput _ => False
  end.
Proof. vm_compute. repeat split. Qed.

Lemma playerDamage_bounds (s : Combat) (i : Round) :
  CombatEntity.attack (CombatPlayer.base (playerCombat s)) = 15 ->
  CombatPlayer.validDraw (playerDraw i) ->
  13 <= playerDamage s i <= 34.
Proof.
  unfold CombatPlayer.validDraw, playerDamage, CombatPlayer.calculateDamage.
  intros Hatk Hdraw. rewrite Hatk.
  rewrite Int.add_exact by (int_bounds; lia).
  destruct (usesEmp (player s) i); [|lia].
  rewrite Int.mul_exact by (int_bounds; lia). lia.
Qed.

(** A round of the fight brings it one round closer to its end. *)
Lemma round_securityBotFight (n : nat) (s : Combat) (i : Round) :
  validRound i ->
  securityBotFight (S n) s ->
  securityBotFight n (round s i).
Proof.
  intros [Hpd Hed] (Hea & Hedf & Hpa & Hpdf & Heh & Hecap & Hph & _).
  pose proof (playerDamage_bounds s i Hpa Hpd) as Hdmg.
  pose proof (round_win_branch s i) as Hwin.
  unfold securityBotFight.
  rewrite round_enemy, round_playerCombat.
  unfold Enemy.getHealth, CombatPlayer.getHealth, Enemy.calculateDamage,
    Enemy.validDraw in *.
  cbn [Enemy.takeDamage Enemy.base CombatPlayer.takeDamage CombatPlayer.base
       CombatEntity.takeDamage CombatEntity.attack CombatEntity.defense
       CombatEntity.health].
  rewrite Hea, Hedf, Hpa, Hpdf.
  rewrite (Int.sub_exact (playerDamage s i)) by (int_bounds; lia).
  rewrite (Int.sub_exact (CombatEntity.health (Enemy.base (enemy s))))
    by (int_bounds; lia).
  rewrite Int.add_exact by (int_bounds; lia).
  rewrite (Int.sub_exact (10 + enemyDraw i)) by (int_bounds; lia).
  rewrite Int.sub_exact by (int_bounds; lia).
  repeat (split; [lia|]).
  destruct (Enemy.isAlive (Enemy.takeDamage (enemy s) (playerDamage s i))) eqn:Halive.
  - left. reflexivity.
  - right. exact (proj1 (Hwin eq_refl)).
Qed.

Lemma loop_not_inCombat (s : Combat) (inputs : list Round) :
  inCombat s = false -> loop s inputs = Returned s.
Proof. intros Hc. destruct inputs; cbn [loop]; rewrite Hc; reflexivity. Qed.

Lemma securityBotFight_over (n : nat) (s : Combat) :
  securityBotFight n s ->
  inCombat s = false ->
  Enemy.getHealth (enemy s) = 0 /\
  CombatPlayer.isAlive (playerCombat s) = true /\
  Player.hasQuestFlag (player s) "security_defeated" = true.
Proof.
  intros (_ & _ & _ & _ & Heh & _ & Hph & Hflag) Hc.
  assert (Hp : CombatPlayer.isAlive (playerCombat s) = true).
  { unfold CombatPlayer.isAlive, CombatPlayer.getHealth in *.
    apply isAlive_iff. lia. }
  apply inCombat_false in Hc. destruct Hc as [He | Hc]; [|congruence].
  assert (Hz : Enemy.getHealth (enemy s) = 0).
  { unfold Enemy.isAlive, CombatEntity.isAlive, Enemy.getHealth in *.
    apply Z.ltb_ge in He. lia. }
  split; [exact Hz|]. split; [exact Hp|].
  destruct Hflag as [Halive | Hflag]; [congruence | exact Hflag].
Qed.

Lemma loop_securityBotFight (n : nat) :
  forall (s : Combat) (inputs : list Round),
    securityBotFight n s ->
    Forall validRound inputs ->
    (n <= length inputs)%nat ->
    exists s',
      loop s inputs = Returned s' /\
      Enemy.getHealth (enemy s') = 0 /\
      CombatPlayer.isAlive (playerCombat s') = true /\
      Player.hasQuestFlag (player s') "security_defeated" = true.
Proof.
  induction n as [|n IH]; intros s inputs Hfight Hvalid Hlen.
  - assert (Hc : inCombat s = false).
    { destruct Hfight as (_ & _ & _ & _ & Heh & _).
      apply inCombat_false. left.
      unfold Enemy.isAlive, CombatEntity.isAlive, Enemy.getHealth in *.
      apply Z.ltb_ge. lia. }
    exists s. split; [apply loop_not_inCombat; exact Hc|].
    apply (securityBotFight_over 0); assumption.
  - destruct (inCombat s) eqn:Hc.
    + destruct inputs as [|i rest]; [cbn in Hlen; lia|].
      cbn [loop]. rewrite Hc.
      apply IH.
      * apply round_securityBotFight; [|exact Hfight].
        apply (Forall_inv Hvalid).
      * apply (Forall_inv_tail Hvalid).
      * cbn in Hlen. lia.
    + exists s. split; [apply loop_not_inCombat; exact Hc|].
      apply (securityBotFight_over (S n)); assumption.
Qed.

(** Against the Security Bot, the only enemy [run] passes, the encounter
    is over within five rounds whatever is typed and drawn: [handleCombat]
    returns with the bot at 0 health, the proxy alive and the flag set. *)
Theorem securityBot_always_defeated (p : Player.t) (inputs : list Round) :
  Forall validRound inputs ->
  (5 <= length inputs)%nat ->
  exists s,
    handleCombat p securityBot inputs = Returned s /\
    Enemy.getHealth (enemy s) = 0 /\
    CombatPlayer.isAlive (playerCombat s) = true /\
    Player.hasQuestFlag (player s) "security_defeated" = true.
Proof.
  intros Hvalid Hlen. unfold handleCombat.
  apply (loop_securityBotFight 5); [|exact Hvalid|exact Hlen].
  unfold securityBotFight; cbn. repeat split; try lia; left; reflexivity.
Qed.

Lemma securityBot_always_defeated_witness :
  let inputs := [mkRound 2 (-2) 1; mkRound 1 2 (-1); mkRound 7 0 0;
                 mkRound 1 (-2) 1; mkRound 1 (-2) 1] in
  Forall validRound inputs /\
  (5 <= length inputs)%nat /\
  exists s,
    handleCombat (Player.new "Ada") securityBot inputs = Returned s /\
    Enemy.getHealth (enemy s) = 0 /\
    CombatPlayer.isAlive (playerCombat s) = true /\
    Player.hasQuestFlag (player s) "security_defeated" = true.
Proof.
  cbv zeta.
  assert (Hvalid : Forall validRound
            [mkRound 2 (-2) 1; mkRound 1 2 (-1); mkRound 7 0 0;
             mkRound 1 (-2) 1; mkRound 1 (-2) 1]).
  { repeat constructor; simpl; lia. }
  assert (Hlen : (5 <= length
            [mkRound 2 (-2) 1; mkRound 1 2 (-1); mkRound 7 0 0;
             mkRound 1 (-2) 1; mkRound 1 (-2) 1])%nat) by (simpl; lia).
  split; [exact Hvalid|]. split; [exact Hlen|].
  exact (securityBot_always_defeated (Player.new "Ada") _ Hvalid Hlen).
Defined.

Lemma round_stalemate (s : Combat) (i : Round) :
  validRound i -> stalemate s -> stalemate (round s i).
Proof.
  intros [Hpd Hed] (Hea & Hedf & Heh & Hpa & Hpdf & Hph).
  pose proof (playerDamage_bounds s i Hpa Hpd) as Hdmg.
  unfold stalemate.
  rewrite round_enemy, round_playerCombat.
  unfold Enemy.getHealth, CombatPlayer.getHealth, Enemy.calculateDamage,
    Enemy.validDraw in *.
  cbn [Enemy.takeDamage Enemy.base CombatPlayer.takeDamage CombatPlayer.base
       CombatEntity.takeDamage CombatEntity.attack CombatEntity.defense
       CombatEntity.health].
  rewrite Hea, Hedf, Heh, Hpa, Hpdf, Hph.
  rewrite (Int.sub_exact (playerDamage s i)) by (int_bounds; lia).
  rewrite (Int.sub_exact 1) by (int_bounds; lia).
  rewrite Int.add_exact by (int_bounds; lia).
  rewrite (Int.sub_exact (0 + enemyDraw i)) by (int_bounds; lia).
  rewrite Int.sub_exact by (int_bounds; lia).
  repeat split; lia.
Qed.

(** The encounter need not end: against an enemy of attack 0 and defense
    40 the function is still in its loop after any number of rounds. *)
Lemma handleCombat_can_run_forever (p : Player.t) (inputs : list Round) :
  Forall validRound inputs ->
  exists s, handleCombat p (Enemy.new "Bulwark" "Robot" 1 0 40) inputs = AwaitingInput s.
Proof.
  intros Hvalid. unfold handleCombat.
  assert (Hs : stalemate (start p (Enemy.new "Bulwark" "Robot" 1 0 40)))
    by (unfold stalemate; cbn; repeat split).
  generalize dependent (start p (Enemy.new "Bulwark" "Robot" 1 0 40)).
  induction Hvalid as [|i rest Hi _ IH]; intros s Hs.
  - exists s. cbn [loop].
    destruct Hs as (_ & _ & Heh & _ & _ & Hph).
    unfold inCombat, Enemy.isAlive, CombatPlayer.isAlive, CombatEntity.isAlive,
      Enemy.getHealth, CombatPlayer.getHealth in *.
    rewrite Heh, Hph. reflexivity.
  - cbn [loop].
    assert (Hc : inCombat s = true).
    { destruct Hs as (_ & _ & Heh & _ & _ & Hph).
      unfold inCombat, Enemy.isAlive, CombatPlayer.isAlive, CombatEntity.isAlive,
        Enemy.getHealth, CombatPlayer.getHealth in *.
      rewrite Heh, Hph. reflexivity. }
    rewrite Hc. apply IH. apply round_stalemate; assumption.
Qed.

(** An encounter leaves every flag the player had. *)
Lemma handleCombat_keeps_flag (p : Player.t) (e : Enemy.t) (inputs : list Round)
    (flag : string) :
  Player.hasQuestFlag p flag = true ->
  match handleCombat p e inputs with
  | Returned s | AwaitingInput s => Player.hasQuestFlag (player s) flag = true
  end.
Proof.
  intros Hset. unfold handleCombat.
  assert (Hstart : Player.hasQuestFlag (player (start p e)) flag = true) by exact Hset.
  generalize dependent (start p e). clear Hset.
  induction inputs as [|i rest IH]; intros s Hs; cbn [loop];
    destruct (inCombat s); try exact Hs.
  apply IH. apply round_keeps_flag. exact Hs.
Qed.

End SecurityBotEncounter.

(** * Further properties of the classes *)

Section LocationProperties.

Import Location.

(** X2. After [addInteraction(key, response)], [interact] answers
    [response] for that key, also when the key had another response
    before, and what it answered before for every other key. *)
Theorem interact_after_addInteraction (l : t) (key response other : string) :
  interact (addInteraction l key response) other
  = if decide (other = key) then response else interact l other.
Proof.
  unfold interact. cbn [addInteraction interactions].
  destruct (decide (other = key)) as [->|Hne].
  - rewrite lookup_insert_eq. reflexivity.
  - rewrite lookup_insert_ne by congruence. reflexivity.
Qed.

Lemma apply_listedHaveResponses (l : t) (op : Op) :
  listedHaveResponses l -> listedHaveResponses (apply l op).
Proof.
  intros Hl key. destruct op as [k r | item | itemName]; cbn; [|apply Hl..].
  rewrite elem_of_app, list_elem_of_singleton, lookup_insert_is_Some, (Hl key).
  split.
  - intros [Hold | ->]; [|left; reflexivity].
    destruct (decide (k = key)); [left; assumption | right; split; assumption].
  - intros [-> | [_ Hold]]; [right; reflexivity | left; assumption].
Qed.

Lemma run_listedHaveResponses (ops : list Op) (l : t) :
  listedHaveResponses l -> listedHaveResponses (run l ops).
Proof.
  revert l. induction ops as [|op ops IH]; intros l Hl; [exact Hl|].
  cbn [run fold_left]. apply IH. apply apply_listedHaveResponses. exact Hl.
Qed.

(** X3. Whatever sequence of [addInteraction], [addItem] and [removeItem]
    calls a new [Location] has seen, the keys it lists are exactly the keys
    that have a response: [interact] on a key that is not listed gives the
    fixed answer, and on a listed key the response stored for it. *)
Theorem listed_interactions_have_responses (n desc : string) (ops : list Op)
    (key : string) :
  let l := run (new n desc) ops in
  (key ∈ availableInteractions l <-> is_Some (interactions l !! key))
  /\ (key ∉ availableInteractions l -> interact l key = "Nothing interesting happens.")
  /\ (key ∈ availableInteractions l -> interactions l !! key = Some (interact l key)).
Proof.
  intros l.
  assert (Hl : listedHaveResponses l).
  { apply run_listedHaveResponses. intros k. cbn.
    rewrite lookup_empty, elem_of_nil. split; [tauto | intros [x Hx]; discriminate]. }
  split; [apply Hl|]. unfold interact. split.
  - intros Hnot. destruct (interactions l !! key) as [r|] eqn:Hk; [|reflexivity].
    exfalso. apply Hnot, Hl. rewrite Hk. eauto.
  - intros Hin. apply Hl in Hin. destruct Hin as [r Hr]. rewrite Hr. reflexivity.
Qed.

Lemma filter_sublist {A : Type} (f : A -> bool) (l : list A) :
  sublist (List.filter f l) l.
Proof.
  induction l as [|x l IH]; cbn; [constructor|].
  destruct (f x); [apply sublist_skip | apply sublist_cons]; exact IH.
Qed.

Lemma filter_filter_same {A : Type} (f : A -> bool) (l : list A) :
  List.filter f (List.filter f l) = List.filter f l.
Proof.
  induction l as [|x l IH]; cbn; [reflexivity|].
  destruct (f x) eqn:Hx; cbn; [rewrite Hx, IH|]; auto.
Qed.

(** X4. [removeItem(name)] takes out every item of that name, not only
    the first: an item is left exactly when it was there under another
    name; the items left keep their order; a second call changes nothing
    more. *)
Theorem removeItem_removes_every_match (l : t) (itemName : string) (item : Item.t) :
  (In item (items (removeItem l itemName))
     <-> In item (items l) /\ Item.name item <> itemName)
  /\ sublist (items (removeItem l itemName)) (items l)
  /\ removeItem (removeItem l itemName) itemName = removeItem l itemName.
Proof.
  split; [|split].
  - cbn [removeItem items]. rewrite filter_In, negb_true_iff, String.eqb_neq.
    reflexivity.
  - apply filter_sublist.
  - unfold removeItem. cbn. rewrite filter_filter_same. reflexivity.
Qed.

End LocationProperties.

Section DamageProperties.

Import CombatEntity.

Lemma effective_damage_bounds (d def : Z) :
  0 <= Z.max 0 (Int.sub d def) <= Int.INT_MAX.
Proof.
  pose proof (Int.wrap_in_range (d - def)) as H. unfold Int.sub.
  int_bounds. lia.
Qed.

(** X5. Whatever the damage and the defense are, overflowing subtraction
    included, [takeDamage] never raises a health that is not negative: the
    new health is between 0 and the old one.  In particular an entity at 0
    health is left as it is by every further hit. *)
Theorem takeDamage_never_heals (e : t) (d : Z) :
  Int.in_range (health e) ->
  0 <= health e ->
  0 <= health (takeDamage e d) <= health e
  /\ (health e = 0 -> takeDamage e d = e).
Proof.
  intros Hr Hpos.
  pose proof (effective_damage_bounds d (defense e)) as Hy.
  assert (Hle : 0 <= health (takeDamage e d) <= health e).
  { cbn [takeDamage health].
    rewrite Int.sub_exact by (int_bounds; lia). lia. }
  split; [exact Hle|].
  intros Hz. destruct e as [n h a df]. cbn in *.
  unfold takeDamage; cbn. f_equal. lia.
Qed.

Lemma takeDamage_never_heals_witness :
  let wreck := mk "Security Bot" 0 10 3 in
  Int.in_range (health wreck) /\ 0 <= health wreck /\
  takeDamage wreck Int.INT_MIN = wreck.
Proof.
  assert (H1 : Int.in_range (health (mk "Security Bot" 0 10 3)))
    by (int_bounds; simpl; lia).
  assert (H2 : 0 <= health (mk "Security Bot" 0 10 3)) by (simpl; lia).
  split; [exact H1|]. split; [exact H2|].
  exact (proj2 (takeDamage_never_heals (mk "Security Bot" 0 10 3) Int.INT_MIN H1 H2)
           eq_refl).
Defined.

Lemma fold_takeDamage_defense (ds : list Z) (e : t) :
  defense (fold_left takeDamage ds e) = defense e.
Proof.
  revert e. induction ds as [|d ds IH]; intros e; [reflexivity|].
  cbn [fold_left]. rewrite IH. reflexivity.
Qed.

(** X6. Hits add up: after any sequence of hits whose reduced damages
    [d - defense] are representable, the health is the old health less the
    sum of the damages that got past the defense, floored at 0.  So the
    order of the hits does not matter, and a hit the defense absorbs changes
    nothing. *)
Theorem takeDamage_accumulates (e : t) (ds : list Z) :
  Int.in_range (health e) ->
  0 <= health e ->
  Forall (fun d => Int.in_range (d - defense e)) ds ->
  health (fold_left takeDamage ds e)
  = Z.max 0 (health e - fold_right Z.add 0 (map (fun d => Z.max 0 (d - defense e)) ds)).
Proof.
  intros Hr Hpos Hds. revert e Hr Hpos Hds.
  induction ds as [|d ds IH]; intros e Hr Hpos Hds.
  - cbn. lia.
  - cbn [fold_left map fold_right].
    pose proof (Forall_inv Hds) as Hd. pose proof (Forall_inv_tail Hds) as Htl.
    assert (Hone : health (takeDamage e d) = Z.max 0 (health e - Z.max 0 (d - defense e))).
    { apply takeDamage_exact; [exact Hd|]. int_bounds. lia. }
    assert (Hsum : 0 <= fold_right Z.add 0 (map (fun d0 => Z.max 0 (d0 - defense e)) ds)).
    { clear. induction ds as [|x xs IHxs]; cbn; lia. }
    rewrite IH.
    + change (defense (takeDamage e d)) with (defense e). rewrite Hone. lia.
    + rewrite Hone. int_bounds. lia.
    + rewrite Hone. lia.
    + exact Htl.
Qed.

Lemma takeDamage_accumulates_witness :
  let bot := mk "Security Bot" 50 10 3 in
  health (fold_left takeDamage [15; 2; 13; 17] bot) = 14
  /\ health (fold_left takeDamage [17; 13; 2; 15] bot) = 14.
Proof.
  assert (H1 : Int.in_range (health (mk "Security Bot" 50 10 3)))
    by (int_bounds; simpl; lia).
  assert (H2 : 0 <= health (mk "Security Bot" 50 10 3)) by (simpl; lia).
  assert (H3 : Forall (fun d => Int.in_range (d - defense (mk "Security Bot" 50 10 3)))
                 [15; 2; 13; 17])
    by (repeat constructor; int_bounds; simpl; lia).
  assert (H4 : Forall (fun d => Int.in_range (d - defense (mk "Security Bot" 50 10 3)))
                 [17; 13; 2; 15])
    by (repeat constructor; int_bounds; simpl; lia).
  cbv zeta. split.
  - rewrite (takeDamage_accumulates _ _ H1 H2 H3). reflexivity.
  - rewrite (takeDamage_accumulates _ _ H1 H2 H4). reflexivity.
Defined.

End DamageProperties.

Section ExperienceProperties.

Import CombatPlayer.

(** X7. After every [gainExperience], with the sums and products
    representable and a level that is not negative, the experience is
    short of the threshold of the level reached, [experience < level * 100],
    and the level went up by at most one; a surplus beyond the threshold is
    dropped, not carried to the next level. *)
Theorem gainExperience_stays_below_threshold (p : t) (exp : Z) :
  Int.in_range (experience p + exp) ->
  Int.in_range (level p * 100) ->
  Int.in_range (level p + 1) ->
  0 <= level p ->
  let p' := fst (gainExperience p exp) in
  experience p' < level p' * 100
  /\ level p <= level p' <= level p + 1.
Proof.
  intros Hsum Hprod Hlvl Hpos p'. subst p'.
  rewrite gainExperience_cases. cbv zeta.
  rewrite Int.add_exact by assumption.
  rewrite Int.mul_exact by assumption.
  destruct (level p * 100 <=? experience p + exp) eqn:Hcmp.
  - cbn. rewrite Int.add_exact by assumption. lia.
  - apply Z.leb_gt in Hcmp. cbn. lia.
Qed.

Lemma gainExperience_stays_below_threshold_witness :
  let p := new "Ada" in
  experience (fst (gainExperience p 250)) < level (fst (gainExperience p 250)) * 100
  /\ level p <= level (fst (gainExperience p 250)) <= level p + 1.
Proof.
  assert (H1 : Int.in_range (experience (new "Ada") + 250)) by (int_bounds; simpl; lia).
  assert (H2 : Int.in_range (level (new "Ada") * 100)) by (int_bounds; simpl; lia).
  assert (H3 : Int.in_range (level (new "Ada") + 1)) by (int_bounds; simpl; lia).
  assert (H4 : 0 <= level (new "Ada")) by (simpl; lia).
  exact (gainExperience_stays_below_threshold (new "Ada") 250 H1 H2 H3 H4).
Defined.

End ExperienceProperties.

Section QuestUpdateProperties.

Import Quest.

Lemma forallb_alter_split (f : QuestObjective.t -> QuestObjective.t)
    (l : list QuestObjective.t) (index : nat) (o : QuestObjective.t) :
  l !! index = Some o ->
  forallb QuestObjective.isCompleted (alter f index l) = true <->
  QuestObjective.isCompleted (f o) = true /\
  forall j o', j <> index -> l !! j = Some o' -> QuestObjective.isCompleted o' = true.
Proof.
  revert index. induction l as [|x l IH]; intros index Hl; [destruct index; discriminate|].
  destruct index as [|index]; cbn in Hl.
  - injection Hl as ->. cbn. rewrite andb_true_iff, forallb_forall. split.
    + intros [Ho Hall]. split; [exact Ho|]. intros [|j] o' Hj Hlook; [congruence|].
      cbn in Hlook. apply Hall. apply list_elem_of_In. eapply list_elem_of_lookup_2; eauto.
    + intros [Ho Hall]. split; [exact Ho|]. intros o' Hin.
      apply list_elem_of_In, list_elem_of_lookup_1 in Hin. destruct Hin as [j Hj].
      apply (Hall (S j) o'); [congruence | exact Hj].
  - cbn. rewrite andb_true_iff, (IH index Hl). split.
    + intros [Hx [Ho Hall]]. split; [exact Ho|]. intros [|j] o' Hj Hlook.
      * cbn in Hlook. congruence.
      * cbn in Hlook. apply (Hall j o'); [congruence | exact Hlook].
    + intros [Ho Hall]. split; [apply (Hall 0%nat x); [congruence | reflexivity]|].
      split; [exact Ho|]. intros j o' Hj Hlook.
      apply (Hall (S j) o'); [congruence | exact Hlook].
Qed.

(** X8. An update of objective [index], in range, leaves every other
    objective as it was, and the quest completed exactly when the new value
    meets that objective's target and every other objective's flag is set.
    So a value under the target reopens a completed quest: the API takes
    backward updates. *)
Theorem updateObjective_completion (q : t) (index : nat) (value : Z)
    (o : QuestObjective.t) :
  objectives q !! index = Some o ->
  let q' := updateObjective q index value in
  (forall j, j <> index -> objectives q' !! j = objectives q !! j)
  /\ (isCompleted q' = true <->
      QuestObjective.target o <= value /\
      forall j o', j <> index -> objectives q !! j = Some o' ->
                   QuestObjective.isCompleted o' = true)
  /\ (value < QuestObjective.target o -> isCompleted q' = false).
Proof.
  intros Hlook q'. subst q'.
  assert (Hlt : (index < length (objectives q))%nat)
    by (apply lookup_lt_is_Some; eauto).
  rewrite updateObjective_in_range by exact Hlt.
  unfold isCompleted. cbn [objectives completed].
  pose proof (forallb_alter_split
                (fun o0 => QuestObjective.updateProgress o0 value)
                (objectives q) index o Hlook) as Hsplit.
  assert (Hflag : QuestObjective.isCompleted (QuestObjective.updateProgress o value) = true
                  <-> QuestObjective.target o <= value)
    by (cbn; apply Z.leb_le).
  split; [|split].
  - intros j Hj. apply list_lookup_alter_ne. congruence.
  - rewrite Hsplit, Hflag. reflexivity.
  - intros Hbelow. apply not_true_is_false. rewrite Hsplit, Hflag. lia.
Qed.

Lemma updateObjective_completion_witness :
  let finished := updateObjective (addObjective (new "Q" "one step") "first" 1) 0 1 in
  isCompleted finished = true /\ isCompleted (updateObjective finished 0 0) = false.
Proof.
  pose (finished := updateObjective (addObjective (new "Q" "one step") "first" 1) 0 1).
  assert (H : objectives finished !! 0%nat
              = Some (QuestObjective.mk "first" 1 1 true)) by reflexivity.
  split; [reflexivity|].
  apply (proj2 (proj2 (updateObjective_completion finished 0 0 _ H))).
  simpl. lia.
Defined.

End QuestUpdateProperties.

Section CharacterProperties.

Import Player.

(** X9. [Character::takeDamage] on a health within its bounds: a negative
    damage is reported on the error stream and changes nothing; any other
    damage lowers the current health by that amount, stopping at 0, and
    touches neither the maximum nor anything else of the player. *)
Theorem takeDamage_overworld (p : t) (damage : Z) :
  Stat.bounded (health p) ->
  Int.in_range (Stat.current (health p)) ->
  Int.in_range damage ->
  (damage < 0 -> takeDamage p damage = (p, [Console.TakeDamageError]))
  /\ (0 <= damage ->
      takeDamage p damage =
        (mk (name p) (description p)
            (Stat.mk (Z.max 0 (Stat.current (health p) - damage))
                     (Stat.maximum (health p)) (Stat.name (health p)))
            (energy p) (inventory p) (experience p) (questFlags p)
            (totalSteps p) (itemsCollected p),
         [])).
Proof.
  intros [Hlo Hhi] Hcur Hdmg. unfold takeDamage. split.
  - intros Hneg. apply Z.ltb_lt in Hneg. rewrite Hneg. reflexivity.
  - intros Hpos. apply Z.ltb_ge in Hpos. rewrite Hpos.
    unfold Stat.modify, Int.neg, Int.add.
    rewrite (Int.wrap_id (- damage)) by (int_bounds; lia).
    rewrite Int.wrap_id by (int_bounds; lia).
    repeat f_equal. lia.
Qed.

Lemma takeDamage_overworld_witness :
  Stat.current (health (fst (takeDamage (new "Ada") 130))) = 0
  /\ takeDamage (new "Ada") (-5) = (new "Ada", [Console.TakeDamageError]).
Proof.
  assert (H1 : Stat.bounded (health (new "Ada")))
    by (unfold Stat.bounded; simpl; lia).
  assert (H2 : Int.in_range (Stat.current (health (new "Ada"))))
    by (int_bounds; simpl; lia).
  assert (H3 : Int.in_range 130) by (int_bounds; lia).
  assert (H4 : Int.in_range (-5)) by (int_bounds; lia).
  split.
  - rewrite (proj2 (takeDamage_overworld (new "Ada") 130 H1 H2 H3)) by lia.
    reflexivity.
  - apply (proj1 (takeDamage_overworld (new "Ada") (-5) H1 H2 H4)). lia.
Defined.

End CharacterProperties.

Section EncounterOutcomes.

Import Game.

Lemma loop_award (inputs : list Round) (s0 s : Combat) :
  Enemy.isAlive (enemy s0) = true ->
  loop s0 inputs = Returned s ->
  player s =
    if Enemy.isAlive (enemy s) then player s0
    else Player.run (player s0)
           [Player.SetQuestFlag "security_defeated"; Player.GainExperience 50].
Proof.
  revert s0. induction inputs as [|i rest IH]; intros s0 Halive Hloop; cbn [loop] in Hloop.
  - destruct (inCombat s0); [discriminate|].
    injection Hloop as <-. rewrite Halive. reflexivity.
  - destruct (inCombat s0).
    + destruct (Enemy.isAlive (enemy (round s0 i))) eqn:Hafter.
      * rewrite (IH (round s0 i) Hafter Hloop), round_player.
        rewrite round_enemy in Hafter. rewrite Hafter. reflexivity.
      * rewrite loop_not_inCombat in Hloop
          by (apply inCombat_false; left; exact Hafter).
        injection Hloop as <-. rewrite Hafter, round_player.
        rewrite round_enemy in Hafter. rewrite Hafter. reflexivity.
    + injection Hloop as <-. rewrite Halive. reflexivity.
Qed.

(** X10. What an encounter of the final checkpoint does to the overworld
    player, for any enemy: when [handleCombat] returns, the player has the
    flag [security_defeated] and 50 experience more if the enemy was alive
    at the start and is dead at the end, and is untouched otherwise.  The
    award is made once, a lost fight costs nothing, and a fight with an
    enemy already dead gives nothing. *)
Theorem handleCombat_awards_once (p : Player.t) (e : Enemy.t) (inputs : list Round)
    (s : Combat) :
  handleCombat p e inputs = Returned s ->
  player s =
    if Enemy.isAlive e && negb (Enemy.isAlive (enemy s))
    then fst (Player.gainExperience (Player.setQuestFlag p "security_defeated") 50)
    else p.
Proof.
  unfold handleCombat. intros Hloop.
  destruct (Enemy.isAlive e) eqn:Halive.
  - rewrite (loop_award inputs (start p e) s Halive Hloop).
    destruct (Enemy.isAlive (enemy s)); reflexivity.
  - rewrite loop_not_inCombat in Hloop
      by (apply inCombat_false; left; exact Halive).
    injection Hloop as <-. reflexivity.
Qed.

Lemma handleCombat_awards_once_witness :
  let r := mkRound 1 0 0 in
  exists s,
    handleCombat (Player.new "Ada") securityBot [r; r; r; r; r] = Returned s /\
    Player.experience (player s) = 50.
Proof.
  cbv zeta.
  destruct (handleCombat (Player.new "Ada") securityBot
              [mkRound 1 0 0; mkRound 1 0 0; mkRound 1 0 0; mkRound 1 0 0; mkRound 1 0 0])
    as [s|s] eqn:Hrun; [|vm_compute in Hrun; discriminate].
  exists s. split; [reflexivity|].
  rewrite (handleCombat_awards_once _ _ _ s Hrun).
  vm_compute in Hrun. injection Hrun as <-. reflexivity.
Defined.

End EncounterOutcomes.

Section Checkpoint3Outcomes.

Import Game.

Lemma checkpoint3_loop_outcome (inputs : list Round) (s0 s : Combat) :
  inCombat s0 = true ->
  Checkpoint3.loop s0 inputs = Returned s ->
  (Enemy.isAlive (enemy s) = false /\
   CombatPlayer.isAlive (playerCombat s) = true /\
   player s = fst (Player.gainExperience (player s0) 25))
  \/ (Enemy.isAlive (enemy s) = true /\
      CombatPlayer.isAlive (playerCombat s) = false /\
      player s = fst (Player.takeDamage (player s0) 50)).
Proof.
  revert s0. induction inputs as [|i rest IH]; intros s0 Hc Hloop;
    cbn [Checkpoint3.loop] in Hloop; rewrite Hc in Hloop; [discriminate|].
  apply inCombat_true in Hc. destruct Hc as [_ Hproxy].
  unfold Checkpoint3.round in Hloop.
  destruct (Enemy.isAlive
              (Enemy.takeDamage (enemy s0)
                 (CombatPlayer.calculateDamage (playerCombat s0) (playerDraw i))))
    eqn:Henemy; cbn [negb] in Hloop.
  - destruct (CombatPlayer.isAlive
                (CombatPlayer.takeDamage (playerCombat s0)
                   (Enemy.calculateDamage
                      (Enemy.takeDamage (enemy s0)
                         (CombatPlayer.calculateDamage (playerCombat s0) (playerDraw i)))
                      (enemyDraw i))))
      eqn:Hhit; cbn [negb] in Hloop.
    + apply IH in Hloop; [exact Hloop|].
      apply inCombat_true. split; [exact Henemy | exact Hhit].
    + destruct (Player.takeDamage (player s0) 50) as [p1 err] eqn:Hp.
      injection Hloop as <-. right. cbn. repeat split; assumption.
  - destruct (Player.gainExperience (player s0) 25) as [p1 gained] eqn:Hp.
    injection Hloop as <-. left. cbn. repeat split; assumption.
Qed.

(** X11. In checkpoint 3 an encounter with an enemy that is alive has two
    exclusive ends.  Won: the enemy is dead, the proxy alive (it is not hit
    in that round), and the overworld player has gained 25 experience.
    Lost: the proxy is dead, the enemy alive, and the overworld player has
    taken 50 damage.  Never both dead. *)
Theorem checkpoint3_handleCombat_outcomes (p : Player.t) (e : Enemy.t)
    (inputs : list Round) (s : Combat) :
  Enemy.isAlive e = true ->
  Checkpoint3.handleCombat p e inputs = Returned s ->
  (Enemy.isAlive (enemy s) = false /\
   CombatPlayer.isAlive (playerCombat s) = true /\
   player s = fst (Player.gainExperience p 25))
  \/ (Enemy.isAlive (enemy s) = true /\
      CombatPlayer.isAlive (playerCombat s) = false /\
      player s = fst (Player.takeDamage p 50)).
Proof.
  intros Halive Hrun.
  apply (checkpoint3_loop_outcome inputs (start p e) s); [|exact Hrun].
  apply inCombat_true. split; [exact Halive | reflexivity].
Qed.

Lemma checkpoint3_handleCombat_outcomes_witness :
  exists s,
    Checkpoint3.handleCombat (Player.new "Ada") (Enemy.new "Warden" "Robot" 500 120 0)
      [mkRound 1 0 0] = Returned s /\
    Enemy.isAlive (enemy s) = true /\
    Stat.current (Player.health (player s)) = 50.
Proof.
  destruct (Checkpoint3.handleCombat (Player.new "Ada")
              (Enemy.new "Warden" "Robot" 500 120 0) [mkRound 1 0 0])
    as [s|s] eqn:Hrun; [|vm_compute in Hrun; discriminate].
  exists s. split; [reflexivity|].
  destruct (checkpoint3_handleCombat_outcomes (Player.new "Ada")
              (Enemy.new "Warden" "Robot" 500 120 0) [mkRound 1 0 0] s eq_refl Hrun)
    as [(Hdead & _ & _) | (Halive & _ & Hplayer)].
  - vm_compute in Hrun. injection Hrun as <-. discriminate Hdead.
  - split; [exact Halive|]. rewrite Hplayer. reflexivity.
Defined.

(** In the final checkpoint both can be dead when the function returns:
    the Elite Guard Bot, every hit of the proxy at its weakest and every
    hit of the bot at its strongest. *)
Lemma handleCombat_double_knockout :
  let r := mkRound 1 (-2) 1 in
  match handleCombat (Player.new "Ada") eliteGuard [r; r; r; r; r; r; r; r; r; r] with
  | Returned s =>
      Enemy.getHealth (enemy s) = 0 /\ CombatPlayer.getHealth (playerCombat s) = 0
  | AwaitingInput _ => False
  end.
Proof. vm_compute. split; reflexivity. Qed.

End Checkpoint3Outcomes.

(** * The run loop of the final checkpoint *)

Section RunInvariant.

Import Session.

Lemma hasQuestFlag_setQuestFlag (p : Player.t) (set flag : string) :
  Player.hasQuestFlag (Player.setQuestFlag p set) flag
  = bool_decide (flag = set) || Player.hasQuestFlag p flag.
Proof.
  unfold Player.hasQuestFlag. cbn [Player.setQuestFlag Player.questFlags].
  destruct (decide (flag = set)) as [->|Hne].
  - rewrite lookup_insert_eq.
    rewrite (bool_decide_eq_true_2 (set = set)) by reflexivity.
    apply bool_decide_eq_true_2. eauto.
  - rewrite lookup_insert_ne by congruence.
    rewrite (bool_decide_eq_false_2 (flag = set)) by assumption. reflexivity.
Qed.

(** The invariant does not read the output. *)
Lemma Sound_same (g g' : t) :
  player g' = player g ->
  locations g' = locations g ->
  gameOver g' = gameOver g ->
  currentLocation g' = currentLocation g ->
  quests g' = quests g ->
  enemies g' = enemies g ->
  hasEscaped g' = hasEscaped g ->
  Sound g -> Sound g'.
Proof.
  destruct g, g'; cbn. intros -> -> -> -> -> -> -> H. destruct H.
  constructor; assumption.
Qed.

Lemma Sound_say (g : t) (lines : list Screen.line) : Sound g -> Sound (say g lines).
Proof. apply Sound_same; reflexivity. Qed.

Lemma new_Sound (playerName : string) (g : t) : new playerName = Some g -> Sound g.
Proof.
  unfold new. destruct (String.eqb playerName ""); [discriminate|].
  intros [= <-]. constructor; cbn.
  - lia.
  - reflexivity.
  - split; [constructor | intros item Hin; inversion Hin].
  - reflexivity.
  - reflexivity.
  - intros flag Hflag. discriminate.
  - exists Game.securityBot. split; reflexivity.
  - split; reflexivity.
  - reflexivity.
  - discriminate.
Qed.

Lemma Sound_unknown_flag (g : t) (flag : string) :
  Sound g -> flag ∉ knownFlags -> Player.hasQuestFlag (player g) flag = false.
Proof.
  intros Hs Hnot. apply not_true_is_false. intros Hset.
  apply Hnot. apply (sound_flags g Hs). exact Hset.
Qed.


Lemma Sound_inventory_small (g : t) :
  Sound g -> (length (Player.inventory (player g)) <= 4)%nat.
Proof.
  intros Hs. destruct (sound_inventory g Hs) as [Hnd Hsub].
  change 4%nat with (length home).
  apply submseteq_length, NoDup_submseteq; assumption.
Qed.

Lemma Sound_experience_small (g : t) :
  Sound g -> 0 <= Player.experience (player g) <= 70.
Proof.
  intros Hs. pose proof (Sound_inventory_small g Hs) as Hlen.
  rewrite (sound_experience g Hs), (sound_collected g Hs).
  destruct (Player.hasQuestFlag (player g) "security_defeated"); lia.
Qed.

(** The location the player is at: it exists, its item is there unless the
    player carries it, and only the airlock can be activated. *)
Lemma Sound_here (g : t) :
  Sound g ->
  exists l item,
    here g = Some l
    /\ locations g !! Z.to_nat (currentLocation g) = Some l
    /\ home !! Z.to_nat (currentLocation g) = Some item
    /\ Location.items l = (if has g item then [] else [item])
    /\ Item.isPickable item = true
    /\ <[Z.to_nat (currentLocation g) := Location.removeItem l (Item.name item)]>
         (locations g)
       = stock (has g datapad || bool_decide (datapad = item))
               (has g keycard || bool_decide (keycard = item))
               (has g Game.emp || bool_decide (Game.emp = item))
               (has g spacesuit || bool_decide (spacesuit = item))
    /\ ("activate airlock" ∈ Location.availableInteractions l -> currentLocation g = 3).
Proof.
  intros Hs. pose proof (sound_index g Hs) as Hi. pose proof (sound_stock g Hs) as Hst.
  unfold here. rewrite (proj2 (Z.ltb_ge _ _)) by lia. rewrite Hst.
  assert (Hc : currentLocation g = 0 \/ currentLocation g = 1
               \/ currentLocation g = 2 \/ currentLocation g = 3) by lia.
  destruct Hc as [Hc | [Hc | [Hc | Hc]]]; rewrite Hc; cbn;
    (do 2 eexists; do 3 (split; [reflexivity|]);
     match goal with |- context [has g ?item] => destruct (has g item) end;
     cbn; rewrite ?orb_false_r; repeat split;
     intros Hin;
     first [ reflexivity
           | exfalso;
             repeat (apply elem_of_cons in Hin as [Hin | Hin]; [discriminate|]);
             inversion Hin ]).
Qed.


Lemma has_after_pickup (inventory : list Item.t) (item x : Item.t) :
  bool_decide (x ∈ inventory ++ [item])
  = bool_decide (x ∈ inventory) || bool_decide (x = item).
Proof.
  apply eq_true_iff_eq.
  rewrite orb_true_iff, !bool_decide_eq_true, elem_of_app, list_elem_of_singleton.
  reflexivity.
Qed.

Lemma pickupItem_Sound (g : t) (n : Z) :
  Sound g -> exists g', pickupItem g n = Some g' /\ Sound g'.
Proof.
  intros Hs.
  destruct (Sound_here g Hs) as (l & item & Hhere & _ & Hhome & Hitems & Hpick & Hrem & _).
  unfold pickupItem. rewrite Hhere. unfold Location.getItems. rewrite Hitems.
  destruct (has g item) eqn:Hhas.
  - eexists. split; [reflexivity|]. apply Sound_say. exact Hs.
  - change (Z.of_nat (length [item])) with 1.
    destruct ((0 <? n) && (n <=? 1)) eqn:Hrange.
    + apply andb_true_iff in Hrange. destruct Hrange as [Hlo Hhi].
      apply Z.ltb_lt in Hlo. apply Z.leb_le in Hhi.
      replace n with 1 by lia. cbn [Z.sub Z.to_nat Z.add Z.opp Pos.to_nat lookup list_lookup].
      change ([item] !! Z.to_nat (1 - 1)) with (Some item).
      cbn iota. rewrite Hpick.
      eexists. split; [reflexivity|].
      pose proof (Sound_inventory_small g Hs) as Hsmall.
      pose proof (Sound_experience_small g Hs) as Hexp.
      destruct Hs as [Hidx Hstock [Hnd Hsub] Hcol Hxp Hflags Hen Hvit Hq Hesc].
      apply bool_decide_eq_false in Hhas.
      constructor; cbn.
      * exact Hidx.
      * unfold has. cbn. rewrite !has_after_pickup. exact Hrem.
      * split.
        -- apply NoDup_app. split; [exact Hnd|]. split.
           ++ intros x Hx Hin. apply list_elem_of_singleton in Hin. subst x.
              apply Hhas. exact Hx.
           ++ apply NoDup_singleton.
        -- intros x Hx. apply elem_of_app in Hx as [Hx | Hx]; [apply Hsub; exact Hx|].
           apply list_elem_of_singleton in Hx. subst x.
           apply list_elem_of_lookup. eauto.
      * rewrite length_app. cbn. rewrite Int.add_exact by (int_bounds; lia). lia.
      * unfold Player.hasQuestFlag in *. cbn.
        rewrite !Int.add_exact by (int_bounds; lia).
        lia.
      * exact Hflags.
      * exact Hen.
      * exact Hvit.
      * exact Hq.
      * exact Hesc.
    + eexists. split; [reflexivity|]. apply Sound_say. exact Hs.
Qed.


Lemma Sound_locations_length (g : t) : Sound g -> length (locations g) = 4%nat.
Proof. intros Hs. rewrite (sound_stock g Hs). reflexivity. Qed.

Lemma move_Sound (g : t) (loc : Z) :
  Sound g -> hasEscaped g = false -> Sound (move g loc).
Proof.
  intros Hs Hesc. unfold move.
  change (locations (say g [Screen.AvailableLocations (map Location.name (locations g))]))
    with (locations g).
  rewrite (Sound_locations_length g Hs). change (Z.of_nat 4) with 4.
  destruct ((1 <=? loc) && (loc <=? 4)) eqn:Hrange; [|apply Sound_say; exact Hs].
  apply andb_true_iff in Hrange. destruct Hrange as [Hlo Hhi].
  apply Z.leb_le in Hlo. apply Z.leb_le in Hhi.
  destruct Hs as [Hidx Hstock Hinv Hcol Hxp Hflags Hen Hvit Hq _].
  constructor; cbn; try assumption.
  - rewrite Int.sub_exact by (int_bounds; lia). lia.
  - intros Habs. congruence.
Qed.

Lemma Sound_setFlag (g : t) (flag : string) :
  Sound g ->
  flag ∈ knownFlags ->
  flag <> "security_defeated" ->
  Sound (setPlayer g (Player.setQuestFlag (player g) flag)).
Proof.
  intros Hs Hknown Hne.
  assert (Hsame : Player.hasQuestFlag (Player.setQuestFlag (player g) flag) "security_defeated"
                  = Player.hasQuestFlag (player g) "security_defeated").
  { rewrite hasQuestFlag_setQuestFlag.
    rewrite bool_decide_eq_false_2 by congruence. reflexivity. }
  destruct Hs as [Hidx Hstock Hinv Hcol Hxp Hflags Hen Hvit Hq Hesc].
  constructor; cbn; try assumption.
  - rewrite Hsame. exact Hxp.
  - intros f. rewrite hasQuestFlag_setQuestFlag, orb_true_iff, bool_decide_eq_true.
    intros [-> | Hf]; [exact Hknown | apply Hflags; exact Hf].
  - rewrite Hsame. exact Hen.
  - intros He. destruct (Hesc He) as (H1 & H2 & H3 & H4 & H5).
    rewrite !hasQuestFlag_setQuestFlag, H3, H4, H5, !orb_true_r. auto.
Qed.

Lemma Sound_setGameOver (g : t) : Sound g -> Sound (setGameOver g true).
Proof.
  intros Hs. destruct Hs as [Hidx Hstock Hinv Hcol Hxp Hflags Hen Hvit Hq Hesc].
  constructor; cbn; try assumption.
  intros He. destruct (Hesc He) as (_ & H2 & H3 & H4 & H5). auto.
Qed.

Lemma Sound_escaped (g : t) :
  Sound g ->
  currentLocation g = 3 ->
  Player.hasQuestFlag (player g) "terminal_hacked" = true ->
  Player.hasQuestFlag (player g) "security_defeated" = true ->
  Player.hasQuestFlag (player g) "airlock_escaped" = true ->
  Sound (setGameOver (say (setHasEscaped g true) [Screen.EscapedWithTruth]) true).
Proof.
  intros Hs Hloc Hhack Hdef Hout.
  destruct Hs as [Hidx Hstock Hinv Hcol Hxp Hflags Hen Hvit Hq Hesc].
  constructor; cbn; try assumption. auto.
Qed.


Lemma award_player (p : Player.t) :
  let p' := Player.run p [Player.SetQuestFlag "security_defeated"; Player.GainExperience 50] in
  Player.inventory p' = Player.inventory p
  /\ Player.itemsCollected p' = Player.itemsCollected p
  /\ Player.health p' = Player.health p
  /\ Player.energy p' = Player.energy p
  /\ Player.experience p' = Int.add (Player.experience p) 50
  /\ forall flag, Player.hasQuestFlag p' flag
                  = bool_decide (flag = "security_defeated") || Player.hasQuestFlag p flag.
Proof.
  cbn. repeat split. intros flag.
  apply (hasQuestFlag_setQuestFlag p "security_defeated" flag).
Qed.

Lemma fight_Sound (g : t) (rounds : list Game.Round) :
  Sound g ->
  match fight g rounds with
  | Continue g' _ => Sound g'
  | InCombat _ => True
  | Undefined => False
  end.
Proof.
  intros Hs. pose proof (Sound_experience_small g Hs) as Hsmall.
  destruct (sound_enemies g Hs) as (bot & Hen & Hflag).
  unfold fight. rewrite Hen. cbn [lookup list_lookup].
  unfold Game.handleCombat.
  destruct (Game.loop (Game.start (player g) bot) rounds) as [s|s] eqn:Hrun; [|exact I].
  apply Sound_say.
  destruct (Enemy.isAlive bot) eqn:Hbot.
  - pose proof (loop_award rounds (Game.start (player g) bot) s Hbot Hrun) as Hplayer.
    cbn [Game.start Game.player] in Hplayer.
    destruct (Enemy.isAlive (Game.enemy s)) eqn:Hafter.
    + rewrite Hplayer.
      destruct Hs as [Hidx Hstock Hinv Hcol Hxp Hflags _ Hvit Hq Hesc].
      constructor; cbn; try assumption.
      exists (Game.enemy s). split; [reflexivity|]. rewrite Hflag, Hafter. reflexivity.
    + destruct (award_player (player g)) as (Ai & Ac & Ah & Ae & Ax & Af).
      rewrite <- Hplayer in Ai, Ac, Ah, Ae, Ax, Af. clear Hplayer.
      destruct Hs as [Hidx Hstock Hinv Hcol Hxp Hflags _ Hvit Hq Hesc].
      cbn [negb] in Hflag. rewrite Hflag in Hxp.
      constructor; unfold has;
        cbn [player locations gameOver currentLocation quests enemies hasEscaped
             setPlayer setEnemies];
        rewrite ?Ai, ?Ac, ?Ah, ?Ae, ?Ax, ?Af; try assumption.
      * rewrite Int.add_exact by (int_bounds; lia).
        rewrite (bool_decide_eq_true_2 ("security_defeated" = "security_defeated"))
          by reflexivity.
        cbn [orb]. lia.
      * intros f. rewrite Af, orb_true_iff, bool_decide_eq_true.
        intros [-> | Hf]; [|apply Hflags; exact Hf].
        unfold knownFlags. apply elem_of_cons. right. apply elem_of_cons. left. reflexivity.
      * exists (Game.enemy s). split; [reflexivity|].
        rewrite Hafter.
        rewrite (bool_decide_eq_true_2 ("security_defeated" = "security_defeated"))
          by reflexivity.
        reflexivity.
      * intros He. destruct (Hesc He) as (H1 & H2 & H3 & H4 & H5).
        rewrite H3, H4, H5, !orb_true_r. auto.
  - rewrite loop_not_inCombat in Hrun by (apply inCombat_false; left; exact Hbot).
    injection Hrun as <-. cbn [Game.start Game.player Game.enemy].
    destruct Hs as [Hidx Hstock Hinv Hcol Hxp Hflags _ Hvit Hq Hesc].
    constructor; cbn; try assumption.
    exists bot. split; [reflexivity | rewrite Hbot; exact Hflag].
Qed.


Lemma interactWith_Sound (g : t) (n : Z) (rounds : list Game.Round) :
  Sound g ->
  hasEscaped g = false ->
  match interactWith g n rounds with
  | Continue g' _ => Sound g'
  | InCombat _ => True
  | Undefined => False
  end.
Proof.
  intros Hs Hesc.
  destruct (Sound_here g Hs) as (l & item & Hhere & _ & _ & _ & _ & _ & Hairlock).
  unfold interactWith. rewrite Hhere. unfold Location.getAvailableInteractions in *.
  destruct (Location.availableInteractions l) as [|key keys] eqn:Hkeys.
  - do 2 apply Sound_say. exact Hs.
  - rewrite <- Hkeys in *.
    destruct ((1 <=? n) && (n <=? Z.of_nat (length (Location.availableInteractions l))))
      eqn:Hrange; [|do 2 apply Sound_say; exact Hs].
    apply andb_true_iff in Hrange. destruct Hrange as [Hlo Hhi].
    apply Z.leb_le in Hlo. apply Z.leb_le in Hhi.
    destruct (lookup_lt_is_Some_2 (Location.availableInteractions l) (Z.to_nat (n - 1)))
      as [action Haction]; [lia|].
    rewrite Haction.
    destruct (String.eqb action "hack terminal") eqn:Hhack.
    + apply fight_Sound. apply Sound_setFlag.
      * do 3 apply Sound_say. exact Hs.
      * unfold knownFlags. apply elem_of_cons. left. reflexivity.
      * discriminate.
    + match goal with
      | |- context [if ?c then _ else _] => destruct c eqn:Hcond
      end; [|do 3 apply Sound_say; exact Hs].
      apply andb_true_iff in Hcond. destruct Hcond as [Hcond Hdefeated].
      apply andb_true_iff in Hcond. destruct Hcond as [Hact Hhacked].
      apply String.eqb_eq in Hact. subst action.
      apply Sound_escaped.
      * apply Sound_setFlag.
        -- do 3 apply Sound_say. exact Hs.
        -- unfold knownFlags. do 2 (apply elem_of_cons; right).
           apply elem_of_cons. left. reflexivity.
        -- discriminate.
      * apply Hairlock. apply list_elem_of_lookup. eauto.
      * cbn. rewrite hasQuestFlag_setQuestFlag. cbn in Hhacked. rewrite Hhacked.
        apply orb_true_r.
      * cbn. rewrite hasQuestFlag_setQuestFlag. cbn in Hdefeated. rewrite Hdefeated.
        apply orb_true_r.
      * cbn. apply setQuestFlag_sets.
Qed.


Lemma dispatch_Sound (g : t) (turn : Turn) (rounds : list Game.Round) :
  Sound g ->
  hasEscaped g = false ->
  SoundOutcome (dispatch g turn rounds).
Proof.
  intros Hs Hesc. unfold dispatch.
  assert (Hdefault : SoundOutcome (Continue (say g [Screen.InvalidChoice]) rounds))
    by (apply Sound_say; exact Hs).
  destruct (choice turn) as [|c|c]; [exact Hdefault | | exact Hdefault].
  destruct c as [[[|[]|]|[|[]|]|]|[[|[]|]|[|[]|]|]|]; try exact Hdefault;
    first [ apply Sound_setGameOver; exact Hs
          | apply Sound_say; exact Hs
          | apply interactWith_Sound; assumption
          | apply move_Sound; assumption
          | destruct (pickupItem_Sound g (number turn) Hs) as (g' & -> & Hs');
            exact Hs' ].
Qed.


Lemma ambush_Sound (g : t) (rounds : list Game.Round) :
  Sound g -> ambush g rounds = Continue g rounds.
Proof.
  intros Hs. unfold ambush.
  rewrite (Sound_unknown_flag g "terminal_access_granted" Hs).
  - rewrite andb_false_r. reflexivity.
  - unfold knownFlags. intros Hin.
    repeat (apply elem_of_cons in Hin as [Hin | Hin]; [discriminate|]). inversion Hin.
Qed.

Lemma suitEscape_Sound (g : t) : Sound g -> suitEscape g = g.
Proof.
  intros Hs. unfold suitEscape.
  rewrite (Sound_unknown_flag g "spacesuit_equipped" Hs).
  - rewrite andb_false_r. reflexivity.
  - unfold knownFlags. intros Hin.
    repeat (apply elem_of_cons in Hin as [Hin | Hin]; [discriminate|]). inversion Hin.
Qed.

Lemma questProgress_Sound (g : t) : Sound g -> questProgress g = Some g.
Proof.
  intros Hs. unfold questProgress.
  rewrite (Sound_unknown_flag g "read_classified_info" Hs).
  - reflexivity.
  - unfold knownFlags. intros Hin.
    repeat (apply elem_of_cons in Hin as [Hin | Hin]; [discriminate|]). inversion Hin.
Qed.

Lemma wrapUp_Sound (g : t) : Sound g -> Sound (wrapUp g).
Proof.
  intros Hs. unfold wrapUp, displayEndGameStats.
  destruct (gameOver g); cbn [negb];
    [destruct (hasEscaped g) | destruct (hasEscaped (say g [Screen.PressEnter]))];
    repeat apply Sound_say; exact Hs.
Qed.

Lemma pass_Sound (g : t) (turn : Turn) (rounds : list Game.Round) :
  Sound g ->
  hasEscaped g = false ->
  SoundOutcome (pass g turn rounds).
Proof.
  intros Hs Hesc. unfold pass, displayLocation.
  destruct (Sound_here g Hs) as (l & item & Hhere & _). rewrite Hhere.
  match goal with
  | |- context [dispatch ?g1 turn rounds] =>
      assert (Hd : SoundOutcome (dispatch g1 turn rounds))
        by (apply dispatch_Sound; [do 2 apply Sound_say; exact Hs | exact Hesc]);
      destruct (dispatch g1 turn rounds) as [g2 rounds2 | s |]
  end; [|exact I|exact Hd].
  cbn [andThen SoundOutcome] in *.
  rewrite (ambush_Sound g2 rounds2 Hd). cbn [andThen].
  rewrite (suitEscape_Sound g2 Hd), (questProgress_Sound g2 Hd). cbn.
  apply wrapUp_Sound. exact Hd.
Qed.

Lemma loop_Sound (turns : list Turn) (g : t) (rounds : list Game.Round) :
  Sound g -> SoundRun (loop g turns rounds).
Proof.
  revert g rounds. induction turns as [|turn rest IH]; intros g rounds Hs; cbn [loop].
  - destruct (negb (gameOver g) && negb (hasEscaped g)); exact Hs.
  - destruct (negb (gameOver g) && negb (hasEscaped g)) eqn:Hgo; [|exact Hs].
    apply andb_true_iff in Hgo. destruct Hgo as [_ Hesc].
    apply negb_true_iff in Hesc.
    pose proof (pass_Sound g turn rounds Hs Hesc) as Hp.
    destruct (pass g turn rounds) as [g' rounds' | s |]; [|exact I|exact Hp].
    apply IH. exact Hp.
Qed.

Lemma run_Sound (playerName : string) (g : t) (turns : list Turn)
    (rounds : list Game.Round) :
  new playerName = Some g -> SoundRun (run g turns rounds).
Proof.
  intros Hnew. unfold run. apply loop_Sound, Sound_say.
  apply (new_Sound playerName). exact Hnew.
Qed.


Lemma reached_Sound (playerName : string) (g g' : t) (turns : list Turn)
    (rounds : list Game.Round) :
  new playerName = Some g ->
  reached (run g turns rounds) = Some g' ->
  Sound g'.
Proof.
  intros Hnew Hreach. pose proof (run_Sound playerName g turns rounds Hnew) as Hs.
  destruct (run g turns rounds); cbn in *; try discriminate;
    injection Hreach as <-; exact Hs.
Qed.

(** X12. A game built by the constructor never indexes a vector out of its
    bounds, whatever numbers are typed: [run] never reaches an undefined
    access, and at the menu or at the end [currentLocation] is a valid index
    of the four locations and [enemies[0]] exists. *)
Theorem run_stays_in_bounds (playerName : string) (g : t) (turns : list Turn)
    (rounds : list Game.Round) :
  new playerName = Some g ->
  run g turns rounds <> Crashed
  /\ forall g', reached (run g turns rounds) = Some g' ->
       0 <= currentLocation g' < Z.of_nat (length (locations g'))
       /\ length (locations g') = 4%nat
       /\ length (enemies g') = 2%nat.
Proof.
  intros Hnew. split.
  - pose proof (run_Sound playerName g turns rounds Hnew) as Hs.
    intros Hcrash. rewrite Hcrash in Hs. exact Hs.
  - intros g' Hreach.
    pose proof (reached_Sound playerName g g' turns rounds Hnew Hreach) as Hs.
    rewrite (Sound_locations_length g' Hs).
    split; [exact (sound_index g' Hs)|]. split; [reflexivity|].
    destruct (sound_enemies g' Hs) as (bot & -> & _). reflexivity.
Qed.

Lemma run_stays_in_bounds_witness :
  run (fresh "Ada") walkthrough walkthroughRounds <> Crashed.
Proof.
  exact (proj1 (run_stays_in_bounds "Ada" (fresh "Ada") walkthrough walkthroughRounds
                  eq_refl)).
Defined.

Lemma not_known (flag : string) :
  bool_decide (flag ∈ knownFlags) = false -> flag ∉ knownFlags.
Proof. apply bool_decide_eq_false. Qed.

(** X13. [run] sets no flag but [terminal_hacked], [security_defeated]
    and [airlock_escaped] ([Item::use] is never called, so the items' flags
    never appear).  Hence, at every point of a game, [checkWinCondition] is
    false, the ambush in the Terminal Room and the escape in the spacesuit do
    not fire, and the quest update is not made: the main quest stays as set
    up, not completed. *)
Theorem run_sets_only_three_flags (playerName : string) (g g' : t) (turns : list Turn)
    (rounds : list Game.Round) :
  new playerName = Some g ->
  reached (run g turns rounds) = Some g' ->
  (forall flag, Player.hasQuestFlag (player g') flag = true -> flag ∈ knownFlags)
  /\ checkWinCondition g' = false
  /\ (forall rounds', ambush g' rounds' = Continue g' rounds')
  /\ suitEscape g' = g'
  /\ questProgress g' = Some g'
  /\ quests g' = [Game.mainQuest]
  /\ Forall (fun q => Quest.isCompleted q = false) (quests g').
Proof.
  intros Hnew Hreach.
  pose proof (reached_Sound playerName g g' turns rounds Hnew Hreach) as Hs.
  split; [exact (sound_flags g' Hs)|]. split.
  - unfold checkWinCondition.
    rewrite (Sound_unknown_flag g' "read_classified_info" Hs) by (apply not_known; reflexivity).
    reflexivity.
  - split; [intros rounds'; apply ambush_Sound; exact Hs|].
    split; [apply suitEscape_Sound; exact Hs|].
    split; [apply questProgress_Sound; exact Hs|].
    rewrite (sound_quests g' Hs). split; [reflexivity|].
    constructor; [reflexivity | constructor].
Qed.

Lemma run_sets_only_three_flags_witness :
  match reached (run (fresh "Ada") walkthrough walkthroughRounds) with
  | Some g => hasEscaped g = true /\ checkWinCondition g = false
              /\ quests g = [Game.mainQuest]
  | None => False
  end.
Proof.
  destruct (reached (run (fresh "Ada") walkthrough walkthroughRounds)) as [g|] eqn:Hr;
    [|vm_compute in Hr; discriminate].
  pose proof (run_sets_only_three_flags "Ada" (fresh "Ada") g walkthrough walkthroughRounds
                eq_refl Hr) as (_ & Hwin & _ & _ & _ & Hq & _).
  split; [|split; assumption].
  vm_compute in Hr. injection Hr as <-. reflexivity.
Defined.


(** X14. At every point of a game the counters agree: [itemsCollected]
    is the size of the inventory, at most 4, and the experience is 5 for each
    item carried plus 50 once the Security Bot is defeated, so never more
    than 70: a second fight with the dead bot gives nothing. *)
Theorem experience_is_accounted_for (playerName : string) (g g' : t)
    (turns : list Turn) (rounds : list Game.Round) :
  new playerName = Some g ->
  reached (run g turns rounds) = Some g' ->
  Player.itemsCollected (player g') = Z.of_nat (length (Player.inventory (player g')))
  /\ Player.experience (player g')
     = 5 * Z.of_nat (length (Player.inventory (player g')))
       + (if Player.hasQuestFlag (player g') "security_defeated" then 50 else 0)
  /\ (length (Player.inventory (player g')) <= 4)%nat
  /\ Player.experience (player g') <= 70.
Proof.
  intros Hnew Hreach.
  pose proof (reached_Sound playerName g g' turns rounds Hnew Hreach) as Hs.
  split; [exact (sound_collected g' Hs)|]. split.
  - rewrite (sound_experience g' Hs), (sound_collected g' Hs). reflexivity.
  - split; [apply Sound_inventory_small; exact Hs|].
    apply (Sound_experience_small g' Hs).
Qed.

Lemma experience_is_accounted_for_witness :
  match reached (run (fresh "Ada") walkthrough walkthroughRounds) with
  | Some g => Player.experience (player g) = 55
  | None => False
  end.
Proof.
  destruct (reached (run (fresh "Ada") walkthrough walkthroughRounds)) as [g|] eqn:Hr;
    [|vm_compute in Hr; discriminate].
  pose proof (experience_is_accounted_for "Ada" (fresh "Ada") g walkthrough
                walkthroughRounds eq_refl Hr) as (_ & Hxp & _).
  rewrite Hxp. vm_compute in Hr. injection Hr as <-. reflexivity.
Defined.

Ltac elem_of_concrete :=
  repeat (apply elem_of_cons; first [left; reflexivity | right]).

Lemma has_true (g : t) (item : Item.t) :
  has g item = true -> item ∈ Player.inventory (player g).
Proof. apply bool_decide_eq_true_1. Qed.

Lemma has_false (g : t) (item : Item.t) :
  has g item = false -> item ∉ Player.inventory (player g).
Proof. apply bool_decide_eq_false_1. Qed.

Lemma Sound_conserves_items (g : t) :
  Sound g ->
  Player.inventory (player g) ++ concat (map Location.items (locations g)) ≡ₚ home.
Proof.
  intros Hs. destruct (sound_inventory g Hs) as [Hnd Hsub].
  rewrite (sound_stock g Hs).
  destruct (has g datapad) eqn:Ha; [apply has_true in Ha | apply has_false in Ha];
  destruct (has g keycard) eqn:Hb; [apply has_true in Hb | apply has_false in Hb | apply has_true in Hb | apply has_false in Hb];
  (destruct (has g Game.emp) eqn:Hc; [apply has_true in Hc | apply has_false in Hc]);
  (destruct (has g spacesuit) eqn:Hd; [apply has_true in Hd | apply has_false in Hd]);
  cbn;
  (apply NoDup_Permutation;
   [ apply NoDup_app; split; [exact Hnd|]; split;
     [ intros x Hx Hin;
       repeat (apply elem_of_cons in Hin as [-> | Hin]; [contradiction|]);
       inversion Hin
     | apply (bool_decide_unpack _); vm_compute; exact I ]
   | apply (bool_decide_unpack _); vm_compute; exact I
   | intros x; split;
     [ intros Hx; apply elem_of_app in Hx as [Hx | Hx]; [apply Hsub; exact Hx|];
       repeat (apply elem_of_cons in Hx as [-> | Hx]; [unfold home; elem_of_concrete|]);
       inversion Hx
     | intros Hx; unfold home in Hx;
       repeat (apply elem_of_cons in Hx as [-> | Hx];
               [apply elem_of_app; first [left; assumption | right; elem_of_concrete]|]);
       inversion Hx ] ]).
Qed.


(** X15. Items are neither lost nor doubled: at every point of a game the
    inventory and the locations' item lists together hold exactly the four
    items, each once; a location holds its own item until the player carries
    it, and nothing afterwards. *)
Theorem items_are_conserved (playerName : string) (g g' : t)
    (turns : list Turn) (rounds : list Game.Round) :
  new playerName = Some g ->
  reached (run g turns rounds) = Some g' ->
  Player.inventory (player g') ++ concat (map Location.items (locations g')) ≡ₚ home
  /\ NoDup (Player.inventory (player g'))
  /\ (forall i l item,
        locations g' !! i = Some l -> home !! i = Some item ->
        Location.items l = if has g' item then [] else [item]).
Proof.
  intros Hnew Hreach.
  pose proof (reached_Sound playerName g g' turns rounds Hnew Hreach) as Hs.
  split; [apply Sound_conserves_items; exact Hs|].
  split; [exact (proj1 (sound_inventory g' Hs))|].
  intros i l item. rewrite (sound_stock g' Hs).
  destruct i as [|[|[|[|i]]]]; cbn; intros [= <-] [= <-];
    match goal with |- context [has g' ?x] => destruct (has g' x) end; reflexivity.
Qed.

Lemma items_are_conserved_witness :
  match reached (run (fresh "Ada") walkthrough walkthroughRounds) with
  | Some g =>
      Player.inventory (player g) ++ concat (map Location.items (locations g)) ≡ₚ home
  | None => False
  end.
Proof.
  destruct (reached (run (fresh "Ada") walkthrough walkthroughRounds)) as [g|] eqn:Hr;
    [|vm_compute in Hr; discriminate].
  exact (proj1 (items_are_conserved "Ada" (fresh "Ada") g walkthrough walkthroughRounds
                  eq_refl Hr)).
Defined.

Lemma loop_Finished (turns : list Turn) (g g' : t) (rounds : list Game.Round) :
  loop g turns rounds = Finished g' ->
  gameOver g' = true \/ hasEscaped g' = true.
Proof.
  revert g rounds. induction turns as [|turn rest IH]; intros g rounds; cbn [loop].
  - destruct (gameOver g) eqn:Hgo; cbn; [intros [= <-]; left; exact Hgo|].
    destruct (hasEscaped g) eqn:He; cbn; [intros [= <-]; right; exact He | discriminate].
  - destruct (gameOver g) eqn:Hgo; cbn; [intros [= <-]; left; exact Hgo|].
    destruct (hasEscaped g) eqn:He; cbn; [intros [= <-]; right; exact He |].
    destruct (pass g turn rounds) as [g1 rounds1 | s |]; try discriminate.
    apply IH.
Qed.

(** X16. The game is escaped only through the airlock: when [hasEscaped]
    is set the player is at the Airlock, has hacked the terminal, the
    Security Bot is dead, all three flags are set and [gameOver] is set too.
    When [run] has left its loop, [gameOver] is set. *)
Theorem escape_is_through_the_airlock (playerName : string) (g g' : t)
    (turns : list Turn) (rounds : list Game.Round) :
  new playerName = Some g ->
  reached (run g turns rounds) = Some g' ->
  (hasEscaped g' = true ->
     gameOver g' = true
     /\ currentLocation g' = 3
     /\ Player.hasQuestFlag (player g') "terminal_hacked" = true
     /\ Player.hasQuestFlag (player g') "security_defeated" = true
     /\ Player.hasQuestFlag (player g') "airlock_escaped" = true
     /\ exists bot, enemies g' !! 0%nat = Some bot /\ Enemy.isAlive bot = false)
  /\ (run g turns rounds = Finished g' -> gameOver g' = true).
Proof.
  intros Hnew Hreach.
  pose proof (reached_Sound playerName g g' turns rounds Hnew Hreach) as Hs.
  assert (Hesc : hasEscaped g' = true ->
     gameOver g' = true
     /\ currentLocation g' = 3
     /\ Player.hasQuestFlag (player g') "terminal_hacked" = true
     /\ Player.hasQuestFlag (player g') "security_defeated" = true
     /\ Player.hasQuestFlag (player g') "airlock_escaped" = true
     /\ exists bot, enemies g' !! 0%nat = Some bot /\ Enemy.isAlive bot = false).
  { intros He. destruct (sound_escape g' Hs He) as (H1 & H2 & H3 & H4 & H5).
    repeat (split; [assumption|]).
    destruct (sound_enemies g' Hs) as (bot & Hen & Hflag).
    exists bot. rewrite Hen. split; [reflexivity|].
    rewrite H4 in Hflag. destruct (Enemy.isAlive bot); [discriminate | reflexivity]. }
  split; [exact Hesc|].
  intros Hfin. unfold run in Hfin. apply loop_Finished in Hfin.
  destruct Hfin as [Hgo | He]; [exact Hgo | apply Hesc; exact He].
Qed.

Lemma escape_is_through_the_airlock_witness :
  match reached (run (fresh "Ada") walkthrough walkthroughRounds) with
  | Some g => hasEscaped g = true /\ currentLocation g = 3
  | None => False
  end.
Proof.
  destruct (reached (run (fresh "Ada") walkthrough walkthroughRounds)) as [g|] eqn:Hr;
    [|vm_compute in Hr; discriminate].
  assert (He : hasEscaped g = true) by (vm_compute in Hr; injection Hr as <-; reflexivity).
  split; [exact He|].
  exact (proj1 (proj2 (proj1 (escape_is_through_the_airlock "Ada" (fresh "Ada") g
                                walkthrough walkthroughRounds eq_refl Hr) He))).
Defined.

(** X17. Nothing in [run] hurts the overworld player: at every point of a
    game health and energy are 100 of 100. *)
Theorem player_is_never_hurt (playerName : string) (g g' : t)
    (turns : list Turn) (rounds : list Game.Round) :
  new playerName = Some g ->
  reached (run g turns rounds) = Some g' ->
  Player.health (player g') = Stat.new "Health" 100
  /\ Player.energy (player g') = Stat.new "Energy" 100.
Proof.
  intros Hnew Hreach.
  exact (sound_vitals g' (reached_Sound playerName g g' turns rounds Hnew Hreach)).
Qed.


Lemma player_is_never_hurt_witness :
  match reached (run (fresh "Ada") walkthrough walkthroughRounds) with
  | Some g => Stat.current (Player.health (player g)) = 100
  | None => False
  end.
Proof.
  destruct (reached (run (fresh "Ada") walkthrough walkthroughRounds)) as [g|] eqn:Hr;
    [|vm_compute in Hr; discriminate].
  rewrite (proj1 (player_is_never_hurt "Ada" (fresh "Ada") g walkthrough walkthroughRounds
                    eq_refl Hr)).
  reflexivity.
Defined.

Lemma loop_AwaitingTurn (turns : list Turn) (g g' : t) (rounds : list Game.Round) :
  loop g turns rounds = AwaitingTurn g' ->
  gameOver g' = false /\ hasEscaped g' = false
  /\ forall more, exists rounds', loop g (turns ++ more) rounds = loop g' more rounds'.
Proof.
  revert g rounds. induction turns as [|turn rest IH]; intros g rounds; cbn [loop app].
  - destruct (negb (gameOver g) && negb (hasEscaped g)) eqn:Hopen; [|discriminate].
    intros [= <-]. apply andb_true_iff in Hopen. destruct Hopen as [Hgo He].
    apply negb_true_iff in Hgo. apply negb_true_iff in He.
    split; [exact Hgo|]. split; [exact He|]. intros more. exists rounds. reflexivity.
  - destruct (negb (gameOver g) && negb (hasEscaped g)); [|discriminate].
    destruct (pass g turn rounds) as [g1 rounds1 | s |]; try discriminate.
    apply IH.
Qed.

Lemma quit_pass (g : t) (n : Z) (rounds : list Game.Round) :
  Sound g ->
  hasEscaped g = false ->
  exists g',
    pass g (mkTurn 6 n) rounds = Continue g' rounds
    /\ gameOver g' = true /\ hasEscaped g' = false
    /\ player g' = player g /\ locations g' = locations g.
Proof.
  intros Hs He. unfold pass, displayLocation.
  destruct (Sound_here g Hs) as (l & item & Hhere & _). rewrite Hhere.
  cbn [dispatch choice andThen].
  rewrite ambush_Sound
    by (apply Sound_setGameOver; do 2 apply Sound_say; exact Hs).
  cbn [andThen].
  rewrite suitEscape_Sound, questProgress_Sound
    by (apply Sound_setGameOver; do 2 apply Sound_say; exact Hs).
  cbn [option_map lift]. unfold wrapUp. cbn. rewrite He.
  eexists. split; [reflexivity|]. cbn. repeat split. exact He.
Qed.

(** X18. Whenever the game is waiting at its menu, typing 6 ends it: the
    loop is left with [gameOver] set and [hasEscaped] not, and the player
    and the locations are as they were. *)
Theorem quitting_always_works (playerName : string) (g g' : t)
    (turns : list Turn) (rounds : list Game.Round) (n : Z) :
  new playerName = Some g ->
  run g turns rounds = AwaitingTurn g' ->
  exists g'',
    run g (turns ++ [mkTurn 6 n]) rounds = Finished g''
    /\ gameOver g'' = true /\ hasEscaped g'' = false
    /\ player g'' = player g' /\ locations g'' = locations g'.
Proof.
  intros Hnew Hrun.
  assert (Hs : Sound g')
    by (apply (reached_Sound playerName g g' turns rounds Hnew); rewrite Hrun; reflexivity).
  unfold run in *.
  destruct (loop_AwaitingTurn turns _ g' rounds Hrun) as (Hgo & He & Happ).
  destruct (Happ [mkTurn 6 n]) as (rounds' & ->).
  destruct (quit_pass g' n rounds' Hs He) as (g'' & Hpass & Hover & Hesc & Hp & Hl).
  exists g''. cbn [loop]. rewrite Hgo, He. cbn [negb andb]. rewrite Hpass, Hover.
  cbn. repeat split; assumption.
Qed.

Lemma quitting_always_works_witness :
  exists g, run (fresh "Ada") ([mkTurn 3 1; mkTurn 1 2] ++ [mkTurn 6 0]) [] = Finished g
            /\ gameOver g = true /\ hasEscaped g = false.
Proof.
  destruct (run (fresh "Ada") [mkTurn 3 1; mkTurn 1 2] []) as [g'|g'|s|] eqn:Hrun;
    try (vm_compute in Hrun; discriminate).
  destruct (quitting_always_works "Ada" (fresh "Ada") g' [mkTurn 3 1; mkTurn 1 2] [] 0
              eq_refl Hrun) as (g'' & H1 & H2 & H3 & _).
  exists g''. repeat split; assumption.
Defined.


Lemma unread_not_inCombat (s : Game.Combat) (rounds : list Game.Round) :
  Game.inCombat s = false -> unread s rounds = rounds.
Proof. intros Hc. destruct rounds; cbn [unread]; rewrite Hc; reflexivity. Qed.

Lemma fight_Calm (g : t) (rounds : list Game.Round) :
  Calm g rounds -> CalmOutcome (fight g rounds).
Proof.
  intros (bot & Hbot & Hstate). unfold fight. rewrite Hbot.
  destruct Hstate as [Hdead | (-> & Hvalid & Hlen)].
  - unfold Game.handleCombat.
    rewrite loop_not_inCombat by (apply inCombat_false; left; exact Hdead).
    rewrite unread_not_inCombat by (apply inCombat_false; left; exact Hdead).
    cbn. exists bot. split; [|left; exact Hdead].
    destruct (enemies g) as [|e es]; [discriminate|].
    cbn in Hbot. injection Hbot as ->. reflexivity.
  - unfold Game.handleCombat.
    destruct (loop_securityBotFight 5 (Game.start (player g) Game.securityBot) rounds)
      as (s & Hloop & Hzero & _); [|exact Hvalid|exact Hlen|].
    + unfold Game.securityBotFight; cbn. repeat split; try lia; left; reflexivity.
    + rewrite Hloop. cbn.
      exists (Game.enemy s). split.
      * destruct (enemies g) as [|e es]; [discriminate | reflexivity].
      * left. unfold Enemy.isAlive, CombatEntity.isAlive, Enemy.getHealth in *.
        rewrite Hzero. reflexivity.
Qed.

Lemma Calm_same (g g' : t) (rounds : list Game.Round) :
  enemies g' = enemies g -> Calm g rounds -> Calm g' rounds.
Proof. unfold Calm. intros ->. auto. Qed.

Lemma pickupItem_enemies (g g' : t) (n : Z) :
  pickupItem g n = Some g' -> enemies g' = enemies g.
Proof.
  unfold pickupItem.
  repeat match goal with
         | |- context [match ?x with _ => _ end] => destruct x
         end; intros [= <-]; reflexivity.
Qed.

Lemma move_enemies (g : t) (loc : Z) : enemies (move g loc) = enemies g.
Proof.
  unfold move.
  match goal with |- context [if ?c then _ else _] => destruct c end; reflexivity.
Qed.

Lemma interactWith_Calm (g : t) (n : Z) (rounds : list Game.Round) :
  Sound g -> Calm g rounds -> CalmOutcome (interactWith g n rounds).
Proof.
  intros Hs Hcalm.
  destruct (Sound_here g Hs) as (l & item & Hhere & _).
  unfold interactWith. rewrite Hhere. unfold Location.getAvailableInteractions in *.
  destruct (Location.availableInteractions l) as [|key keys] eqn:Hkeys.
  - apply (Calm_same g); [reflexivity | exact Hcalm].
  - rewrite <- Hkeys in *.
    destruct ((1 <=? n) && (n <=? Z.of_nat (length (Location.availableInteractions l))))
      eqn:Hrange; [|apply (Calm_same g); [reflexivity | exact Hcalm]].
    apply andb_true_iff in Hrange. destruct Hrange as [Hlo Hhi].
    apply Z.leb_le in Hlo. apply Z.leb_le in Hhi.
    destruct (lookup_lt_is_Some_2 (Location.availableInteractions l) (Z.to_nat (n - 1)))
      as [action Haction]; [lia|].
    rewrite Haction.
    destruct (String.eqb action "hack terminal").
    + apply fight_Calm. apply (Calm_same g); [reflexivity | exact Hcalm].
    + match goal with
      | |- context [if ?c then _ else _] => destruct c
      end; apply (Calm_same g); first [reflexivity | exact Hcalm].
Qed.

Lemma dispatch_Calm (g : t) (turn : Turn) (rounds : list Game.Round) :
  Sound g -> Calm g rounds -> CalmOutcome (dispatch g turn rounds).
Proof.
  intros Hs Hcalm. unfold dispatch.
  assert (Hdefault : CalmOutcome (Continue (say g [Screen.InvalidChoice]) rounds))
    by (apply (Calm_same g); [reflexivity | exact Hcalm]).
  destruct (choice turn) as [|c|c]; [exact Hdefault | | exact Hdefault].
  destruct c as [[[|[]|]|[|[]|]|]|[[|[]|]|[|[]|]|]|]; try exact Hdefault;
    first [ apply interactWith_Calm; assumption
          | destruct (pickupItem_Sound g (number turn) Hs) as (g' & Hp & _);
            rewrite Hp; apply (Calm_same g);
            [apply (pickupItem_enemies g g' (number turn) Hp) | exact Hcalm]
          | apply (Calm_same g); [apply move_enemies | exact Hcalm]
          | apply (Calm_same g); [reflexivity | exact Hcalm] ].
Qed.

Lemma wrapUp_enemies (g : t) : enemies (wrapUp g) = enemies g.
Proof.
  unfold wrapUp, displayEndGameStats.
  destruct (gameOver g); cbn [negb];
    [destruct (hasEscaped g) | destruct (hasEscaped (say g [Screen.PressEnter]))];
    reflexivity.
Qed.

Lemma pass_Calm (g : t) (turn : Turn) (rounds : list Game.Round) :
  Sound g ->
  hasEscaped g = false ->
  Calm g rounds ->
  CalmOutcome (pass g turn rounds).
Proof.
  intros Hs Hesc Hcalm. unfold pass, displayLocation.
  destruct (Sound_here g Hs) as (l & item & Hhere & _). rewrite Hhere.
  match goal with
  | |- context [dispatch ?g1 turn rounds] =>
      assert (Hd : SoundOutcome (dispatch g1 turn rounds))
        by (apply dispatch_Sound; [do 2 apply Sound_say; exact Hs | exact Hesc]);
      assert (Hc : CalmOutcome (dispatch g1 turn rounds))
        by (apply dispatch_Calm;
            [do 2 apply Sound_say; exact Hs
            | apply (Calm_same g); [reflexivity | exact Hcalm]]);
      destruct (dispatch g1 turn rounds) as [g2 rounds2 | s |]
  end; [|exact Hc|exact Hc].
  cbn [andThen SoundOutcome CalmOutcome] in *.
  rewrite (ambush_Sound g2 rounds2 Hd). cbn [andThen].
  rewrite (suitEscape_Sound g2 Hd), (questProgress_Sound g2 Hd). cbn.
  apply (Calm_same g2); [apply wrapUp_enemies | exact Hc].
Qed.

Lemma loop_Calm (turns : list Turn) (g : t) (rounds : list Game.Round) :
  Sound g -> Calm g rounds -> exists g', reached (loop g turns rounds) = Some g'.
Proof.
  revert g rounds. induction turns as [|turn rest IH]; intros g rounds Hs Hcalm;
    cbn [loop].
  - destruct (negb (gameOver g) && negb (hasEscaped g)); eexists; reflexivity.
  - destruct (negb (gameOver g) && negb (hasEscaped g)) eqn:Hgo;
      [|eexists; reflexivity].
    apply andb_true_iff in Hgo. destruct Hgo as [_ Hesc].
    apply negb_true_iff in Hesc.
    pose proof (pass_Sound g turn rounds Hs Hesc) as Hp.
    pose proof (pass_Calm g turn rounds Hs Hesc Hcalm) as Hc.
    destruct (pass g turn rounds) as [g' rounds' | s |]; [|destruct Hc..].
    apply IH; assumption.
Qed.

(** X19. With five rounds of input on offer, their draws within the dice,
    [run] is never left waiting inside a fight: after any sequence of menu
    inputs it is back at the menu or has ended.  The first fight with the
    Security Bot is won within five rounds and every later one is over
    before it reads anything. *)
Theorem run_never_blocks_in_a_fight (playerName : string) (g : t)
    (turns : list Turn) (rounds : list Game.Round) :
  new playerName = Some g ->
  Forall Game.validRound rounds ->
  (5 <= length rounds)%nat ->
  exists g', reached (run g turns rounds) = Some g'.
Proof.
  intros Hnew Hvalid Hlen. unfold run. apply loop_Calm.
  - apply Sound_say. apply (new_Sound playerName). exact Hnew.
  - unfold new in Hnew. destruct (String.eqb playerName ""); [discriminate|].
    injection Hnew as <-. exists Game.securityBot. split; [reflexivity|].
    right. repeat split; assumption.
Qed.

Lemma run_never_blocks_in_a_fight_witness :
  Forall Game.validRound walkthroughRounds /\
  (5 <= length walkthroughRounds)%nat /\
  exists g, reached (run (fresh "Ada") walkthrough walkthroughRounds) = Some g.
Proof.
  assert (Hvalid : Forall Game.validRound walkthroughRounds)
    by (repeat constructor; simpl; lia).
  assert (Hlen : (5 <= length walkthroughRounds)%nat) by (simpl; lia).
  split; [exact Hvalid|]. split; [exact Hlen|].
  exact (run_never_blocks_in_a_fight "Ada" (fresh "Ada") walkthrough walkthroughRounds
           eq_refl Hvalid Hlen).
Defined.

End RunInvariant.

(** * The run loop of checkpoint 3 *)

Section Checkpoint3Run.

Import Session3.

Ltac elem_of_listed :=
  repeat (apply elem_of_cons; first [left; reflexivity | right]).

Ltac not_listed Hin :=
  repeat (apply elem_of_cons in Hin as [Hin | Hin]; [discriminate|]); inversion Hin.

Lemma Sound_same3 (g g' : t) :
  player g' = player g ->
  locations g' = locations g ->
  currentLocation g' = currentLocation g ->
  quests g' = quests g ->
  enemies g' = enemies g ->
  Sound g -> Sound g'.
Proof.
  destruct g, g'; cbn. intros -> -> -> -> -> H. destruct H.
  constructor; assumption.
Qed.

Lemma Sound_say3 (g : t) (lines : list Screen3.line) : Sound g -> Sound (say g lines).
Proof. apply Sound_same3; reflexivity. Qed.

(** A change of the player that keeps name, inventory, counters of items,
    vitals and flags. *)
Lemma Sound_player3 (g : t) (p : Player.t) :
  Player.name p = Player.name (player g) ->
  Player.inventory p = Player.inventory (player g) ->
  Player.itemsCollected p = Player.itemsCollected (player g) ->
  Player.health p = Player.health (player g) ->
  Player.energy p = Player.energy (player g) ->
  Player.questFlags p = Player.questFlags (player g) ->
  Sound g -> Sound (setPlayer g p).
Proof.
  intros Hn Hi Hc Hh He Hf Hs.
  destruct Hs as [Hidx Hstock Hinv Hcol Hflags Hread Hsuit Hen Hvit Hq].
  constructor; unfold has, Player.hasQuestFlag in *; cbn; rewrite ?Hn, ?Hi, ?Hc, ?Hh, ?He, ?Hf;
    assumption.
Qed.

Lemma Sound_gainExperience3 (g : t) (exp : Z) :
  Sound g -> Sound (tell g (Player.gainExperience (player g) exp)).
Proof.
  intros Hs. unfold tell. apply Sound_say3.
  unfold Player.gainExperience. destruct (0 <? exp); cbn [fst];
    apply Sound_player3; try reflexivity; exact Hs.
Qed.

Lemma Sound_setFlag3 (g : t) (flag : string) :
  Sound g ->
  flag ∈ knownFlags ->
  (flag = "read_classified_info" -> has g datapad = true) ->
  (flag = "spacesuit_equipped" -> has g spacesuit = true) ->
  Sound (setPlayer g (Player.setQuestFlag (player g) flag)).
Proof.
  intros Hs Hknown Hr Hsu.
  destruct Hs as [Hidx Hstock Hinv Hcol Hflags Hread Hsuit Hen Hvit Hq].
  constructor; unfold has in *; cbn; try assumption.
  - intros f. rewrite hasQuestFlag_setQuestFlag, orb_true_iff, bool_decide_eq_true.
    intros [-> | Hf]; [exact Hknown | apply Hflags; exact Hf].
  - rewrite hasQuestFlag_setQuestFlag, orb_true_iff, bool_decide_eq_true.
    intros [Heq | Hf]; [apply Hr; congruence | apply Hread; exact Hf].
  - rewrite hasQuestFlag_setQuestFlag, orb_true_iff, bool_decide_eq_true.
    intros [Heq | Hf]; [apply Hsu; congruence | apply Hsuit; exact Hf].
  - destruct Hq as [Hq | (Hq & H1 & H2 & H3)]; [left; exact Hq|].
    right. rewrite !hasQuestFlag_setQuestFlag, H1, H2, H3, !orb_true_r. auto.
Qed.

Lemma new_Sound3 (playerName : string) (g : t) : new playerName = Some g -> Sound g.
Proof.
  unfold new. destruct (String.eqb playerName ""); [discriminate|].
  intros [= <-]. constructor; cbn; try reflexivity; try discriminate.
  - lia.
  - split; [constructor | intros item Hin; inversion Hin].
  - split; reflexivity.
  - left. reflexivity.
Qed.

Lemma Sound_unknown_flag3 (g : t) (flag : string) :
  Sound g -> flag ∉ knownFlags -> Player.hasQuestFlag (player g) flag = false.
Proof.
  intros Hs Hnot. apply not_true_is_false. intros Hset.
  apply Hnot. apply (sound_flags g Hs). exact Hset.
Qed.

Lemma Sound_locations_length3 (g : t) : Sound g -> length (locations g) = 4%nat.
Proof. intros Hs. rewrite (sound_stock g Hs). reflexivity. Qed.


(** The location the player is at exists, and everything lying there can
    be picked up, is not carried yet, and leaves the stock without it. *)
Lemma Sound_here3 (g : t) :
  Sound g ->
  exists l,
    here g = Some l
    /\ forall k item,
         Location.items l !! k = Some item ->
         has g item = false
         /\ item ∈ home
         /\ Item.isPickable item = true
         /\ <[Z.to_nat (currentLocation g) := Location.removeItem l (Item.name item)]>
              (locations g)
            = stock (Player.name (player g))
                (has g datapad || bool_decide (datapad = item))
                (has g keycard || bool_decide (keycard = item))
                (has g spacesuit || bool_decide (spacesuit = item)).
Proof.
  intros Hs. pose proof (sound_index g Hs) as Hi. pose proof (sound_stock g Hs) as Hst.
  unfold here. rewrite (proj2 (Z.ltb_ge _ _)) by lia. rewrite Hst.
  assert (Hc : currentLocation g = 0 \/ currentLocation g = 1
               \/ currentLocation g = 2 \/ currentLocation g = 3) by lia.
  destruct (has g datapad) eqn:Ha; destruct (has g keycard) eqn:Hb;
    destruct (has g spacesuit) eqn:Hd;
    destruct Hc as [Hc | [Hc | [Hc | Hc]]]; rewrite Hc; cbn;
    (eexists; split; [reflexivity|]);
    intros k item; destruct k as [|[|k]]; cbn; intros Hk;
    try discriminate; injection Hk as <-;
    repeat split; try assumption; try reflexivity; elem_of_listed.
Qed.

Lemma Sound_inventory_small3 (g : t) :
  Sound g -> (length (Player.inventory (player g)) <= 3)%nat.
Proof.
  intros Hs. destruct (sound_inventory g Hs) as [Hnd Hsub].
  change 3%nat with (length home).
  apply submseteq_length, NoDup_submseteq; assumption.
Qed.

Lemma pickupItem_Sound3 (g : t) (n : Z) :
  Sound g -> exists g', pickupItem g n = Some g' /\ Sound g'.
Proof.
  intros Hs.
  destruct (Sound_here3 g Hs) as (l & Hhere & Hpick).
  unfold pickupItem. rewrite Hhere. unfold Location.getItems.
  destruct (Location.items l) as [|first others] eqn:Hitems.
  - eexists. split; [reflexivity|]. apply Sound_say3. exact Hs.
  - rewrite <- Hitems in *.
    destruct ((0 <? n) && (n <=? Z.of_nat (length (Location.items l)))) eqn:Hrange;
      [|eexists; split; [reflexivity|]; apply Sound_say3; exact Hs].
    apply andb_true_iff in Hrange. destruct Hrange as [Hlo Hhi].
    apply Z.ltb_lt in Hlo. apply Z.leb_le in Hhi.
    destruct (lookup_lt_is_Some_2 (Location.items l) (Z.to_nat (n - 1)))
      as [item Hitem]; [lia|].
    rewrite Hitem.
    destruct (Hpick _ _ Hitem) as (Hhas & Hhome & Hpickable & Hrem).
    rewrite Hpickable. eexists. split; [reflexivity|].
    unfold tell. apply Sound_say3.
    pose proof (Sound_inventory_small3 g Hs) as Hsmall.
    destruct Hs as [Hidx Hstock [Hnd Hsub] Hcol Hflags Hread Hsuit Hen Hvit Hq].
    apply bool_decide_eq_false in Hhas.
    constructor; unfold has in *; cbn; try assumption.
    + rewrite !has_after_pickup. exact Hrem.
    + split.
      * apply NoDup_app. split; [exact Hnd|]. split.
        -- intros x Hx Hin. apply list_elem_of_singleton in Hin. subst x.
           apply Hhas. exact Hx.
        -- apply NoDup_singleton.
      * intros x Hx. apply elem_of_app in Hx as [Hx | Hx]; [apply Hsub; exact Hx|].
        apply list_elem_of_singleton in Hx. subst x. exact Hhome.
    + rewrite length_app. cbn. rewrite Int.add_exact by (int_bounds; lia). lia.
    + intros Hf. rewrite has_after_pickup, (Hread Hf). reflexivity.
    + intros Hf. rewrite has_after_pickup, (Hsuit Hf). reflexivity.
Qed.


Lemma here_Some3 (g : t) : Sound g -> exists l, here g = Some l.
Proof. intros Hs. destruct (Sound_here3 g Hs) as (l & Hl & _). eauto. Qed.

Lemma examine_Sound3 (g : t) : Sound g -> exists g', examine g = Some g' /\ Sound g'.
Proof.
  intros Hs. unfold examine.
  destruct (currentLocation g =? 2).
  - destruct (here_Some3 (say g [Screen3.Monolith]) (Sound_say3 _ _ Hs)) as (l & ->).
    eexists. split; [reflexivity|]. do 2 apply Sound_say3. exact Hs.
  - destruct (here_Some3 g Hs) as (l & ->).
    eexists. split; [reflexivity|]. apply Sound_say3. exact Hs.
Qed.

Lemma move_Sound3 (g : t) (loc : Z) : Sound g -> Sound (move g loc).
Proof.
  intros Hs. unfold move.
  change (locations (say g [Screen3.AvailableLocations (map Location.name (locations g))]))
    with (locations g).
  rewrite (Sound_locations_length3 g Hs). change (Z.of_nat 4) with 4.
  destruct ((1 <=? loc) && (loc <=? 4)) eqn:Hrange; [|apply Sound_say3; exact Hs].
  apply andb_true_iff in Hrange. destruct Hrange as [Hlo Hhi].
  apply Z.leb_le in Hlo. apply Z.leb_le in Hhi.
  apply Sound_gainExperience3.
  apply Sound_player3; try reflexivity.
  destruct Hs as [Hidx Hstock Hinv Hcol Hflags Hread Hsuit Hen Hvit Hq].
  constructor; cbn; try assumption.
  rewrite Int.sub_exact by (int_bounds; lia). lia.
Qed.

Lemma Sound_setDiscovered3 (g : t) (d : gset string) : Sound g -> Sound (setDiscovered g d).
Proof. apply Sound_same3; reflexivity. Qed.

Lemma interactWith_Sound3 (g : t) (n : Z) :
  Sound g -> exists g', interactWith g n = Some g' /\ Sound g'.
Proof.
  intros Hs. destruct (here_Some3 g Hs) as (l & Hhere).
  unfold interactWith. rewrite Hhere. unfold Location.getAvailableInteractions.
  destruct ((1 <=? n) && (n <=? Z.of_nat (length (Location.availableInteractions l))))
    eqn:Hrange; [|eexists; split; [reflexivity|]; apply Sound_say3; exact Hs].
  apply andb_true_iff in Hrange. destruct Hrange as [Hlo Hhi].
  apply Z.leb_le in Hlo. apply Z.leb_le in Hhi.
  destruct (lookup_lt_is_Some_2 (Location.availableInteractions l) (Z.to_nat (n - 1)))
    as [action Haction]; [lia|].
  rewrite Haction.
  match goal with
  | |- context [setDiscovered ?g2 ?d] =>
      assert (Hs3 : Sound (setDiscovered g2 d))
        by (apply Sound_setDiscovered3; do 2 apply Sound_say3; exact Hs);
      generalize dependent (setDiscovered g2 d)
  end.
  intros g3 Hs3.
  destruct (String.eqb action "touch monolith").
  - eexists. split; [reflexivity|]. apply Sound_gainExperience3.
    apply Sound_setFlag3; [exact Hs3 | elem_of_listed | discriminate | discriminate].
  - destruct (String.eqb action "examine tools" || String.eqb action "look under desk").
    + eexists. split; [reflexivity|]. apply Sound_gainExperience3. exact Hs3.
    + destruct (String.eqb action "inspect emergency gear");
        [|eexists; split; [reflexivity | exact Hs3]].
      destruct (negb (Player.hasQuestFlag (player g3) "found_spacesuit"));
        [|eexists; split; [reflexivity | exact Hs3]].
      eexists. split; [reflexivity|]. apply Sound_gainExperience3.
      apply Sound_setFlag3; [exact Hs3 | elem_of_listed | discriminate | discriminate].
Qed.

Lemma use_Sound3 (g : t) (item : Item.t) :
  Sound g -> has g item = true -> Sound (use g item).
Proof.
  intros Hs Hhas.
  assert (Hin : item ∈ home).
  { apply (proj2 (sound_inventory g Hs)).
    unfold has in Hhas. apply bool_decide_eq_true in Hhas. exact Hhas. }
  unfold home in Hin.
  repeat (apply elem_of_cons in Hin as [-> | Hin]); [..|inversion Hin].
  - change (use g datapad) with (effect g Item.ReadDatapad). cbn [effect].
    apply Sound_setFlag3;
      [apply Sound_say3; exact Hs | elem_of_listed | | discriminate].
    intros _. exact Hhas.
  - change (use g keycard) with (effect g Item.SwipeKeycard). cbn [effect].
    destruct (currentLocation g =? 1); [|apply Sound_say3; exact Hs].
    apply Sound_gainExperience3. apply Sound_say3. exact Hs.
  - change (use g spacesuit) with (effect g Item.WearSpacesuit). cbn [effect].
    destruct (currentLocation g =? 3); [|apply Sound_say3; exact Hs].
    apply Sound_setFlag3;
      [apply Sound_say3; exact Hs | elem_of_listed | discriminate |].
    intros _. exact Hhas.
Qed.

Lemma useItem_Sound3 (g : t) (n : Z) :
  Sound g -> exists g', useItem g n = Some g' /\ Sound g'.
Proof.
  intros Hs. unfold useItem, Player.getInventory.
  destruct (Player.inventory (player g)) as [|first others] eqn:Hinv.
  - eexists. split; [reflexivity|]. apply Sound_say3. exact Hs.
  - rewrite <- Hinv in *.
    destruct ((1 <=? n) && (n <=? Z.of_nat (length (Player.inventory (player g)))))
      eqn:Hrange; [|eexists; split; [reflexivity|]; apply Sound_say3; exact Hs].
    apply andb_true_iff in Hrange. destruct Hrange as [Hlo Hhi].
    apply Z.leb_le in Hlo. apply Z.leb_le in Hhi.
    destruct (lookup_lt_is_Some_2 (Player.inventory (player g)) (Z.to_nat (n - 1)))
      as [item Hitem]; [lia|].
    rewrite Hitem.
    destruct (Item.isUsable item);
      [|eexists; split; [reflexivity|]; do 2 apply Sound_say3; exact Hs].
    eexists. split; [reflexivity|]. apply Sound_gainExperience3.
    apply use_Sound3; [apply Sound_say3; exact Hs|].
    apply bool_decide_eq_true_2. cbn. apply list_elem_of_lookup. eauto.
Qed.

Lemma quit_Sound3 (g : t) (answer : ascii) : Sound g -> Sound (quit g answer).
Proof.
  intros Hs. unfold quit, displayEndGameStats.
  destruct (Ascii.eqb answer "y" || Ascii.eqb answer "Y");
    [apply Sound_say3; apply (Sound_same3 (say g [Screen3.ConfirmQuit])); try reflexivity|];
    apply Sound_say3; exact Hs.
Qed.

Lemma dispatch_Sound3 (g : t) (turn : Turn) (rounds : list Game.Round) :
  Sound g -> SoundOutcome (dispatch g turn rounds).
Proof.
  intros Hs. unfold dispatch.
  assert (Hdefault : SoundOutcome (Thrown g "Invalid choice!")) by exact Hs.
  destruct (choice turn) as [|c|c]; [exact Hdefault | | exact Hdefault].
  destruct c as [[[|[]|]|[|[]|]|]|[[[]|[]|]|[|[]|]|]|]; try exact Hdefault;
    first [ apply Sound_say3; exact Hs
          | apply move_Sound3; exact Hs
          | apply quit_Sound3; exact Hs
          | destruct (examine_Sound3 g Hs) as (g' & -> & Hs'); exact Hs'
          | destruct (interactWith_Sound3 g (number turn) Hs) as (g' & -> & Hs'); exact Hs'
          | destruct (pickupItem_Sound3 g (number turn) Hs) as (g' & -> & Hs'); exact Hs'
          | destruct (useItem_Sound3 g (number turn) Hs) as (g' & -> & Hs'); exact Hs' ].
Qed.


Lemma ambush_Sound3 (g : t) (rounds : list Game.Round) :
  Sound g -> ambush g rounds = Continue g rounds.
Proof.
  intros Hs. unfold ambush.
  rewrite (Sound_unknown_flag3 g "hack_attempt" Hs).
  - rewrite andb_false_r. reflexivity.
  - unfold knownFlags. intros Hin. not_listed Hin.
Qed.

Lemma updateObjective_again3 :
  Quest.updateObjective (Quest.updateObjective mainQuest 0 1) 0 1
  = Quest.updateObjective mainQuest 0 1.
Proof. reflexivity. Qed.

Lemma questProgress_Sound3 (g : t) :
  Sound g -> exists g', questProgress g = Some g' /\ Sound g'.
Proof.
  intros Hs. unfold questProgress.
  destruct (Player.hasQuestFlag (player g) "read_classified_info") eqn:H1;
    [|eexists; split; [reflexivity | exact Hs]].
  destruct (Player.hasQuestFlag (player g) "touched_monolith") eqn:H2;
    [|eexists; split; [reflexivity | exact Hs]].
  destruct (Player.hasQuestFlag (player g) "spacesuit_equipped") eqn:H3;
    [|eexists; split; [reflexivity | exact Hs]].
  cbn [andb].
  destruct Hs as [Hidx Hstock Hinv Hcol Hflags Hread Hsuit Hen Hvit Hq].
  assert (Hq' : exists q, quests g = [q]
                          /\ Quest.updateObjective q 0 1 = Quest.updateObjective mainQuest 0 1).
  { destruct Hq as [Hq | (Hq & _)]; rewrite Hq; eexists; split; reflexivity. }
  destruct Hq' as (q & Hqs & Hupd). rewrite Hqs. cbn [lookup list_lookup].
  eexists. split; [reflexivity|].
  constructor; cbn; try assumption.
  right. rewrite Hupd. auto.
Qed.

Lemma wrapUp_Sound3 (g : t) : Sound g -> Sound (wrapUp g).
Proof.
  intros Hs. unfold wrapUp. destruct (negb (gameOver g)); [apply Sound_say3|]; exact Hs.
Qed.

Lemma pass_Sound3 (g : t) (turn : Turn) (rounds : list Game.Round) :
  Sound g -> SoundOutcome (pass g turn rounds).
Proof.
  intros Hs. unfold pass, displayLocation.
  destruct (here_Some3 g Hs) as (l & Hhere). rewrite Hhere.
  match goal with
  | |- context [dispatch ?g1 turn rounds] =>
      assert (Hd : SoundOutcome (dispatch g1 turn rounds))
        by (apply dispatch_Sound3; do 2 apply Sound_say3; exact Hs);
      destruct (dispatch g1 turn rounds) as [g2 rounds2 | s | g2 what |]
  end; try exact Hd.
  cbn [andThen SoundOutcome] in *.
  rewrite (ambush_Sound3 g2 rounds2 Hd). cbn [andThen].
  destruct (questProgress_Sound3 g2 Hd) as (g3 & -> & Hs3). cbn.
  apply wrapUp_Sound3. exact Hs3.
Qed.

Lemma loop_Sound3 (turns : list Turn) (g : t) (rounds : list Game.Round) :
  Sound g -> SoundRun (loop g turns rounds).
Proof.
  revert g rounds. induction turns as [|turn rest IH]; intros g rounds Hs; cbn [loop].
  - destruct (negb (gameOver g)); exact Hs.
  - destruct (negb (gameOver g)); [|exact Hs].
    pose proof (pass_Sound3 g turn rounds Hs) as Hp.
    destruct (pass g turn rounds) as [g' rounds' | s | g' what |]; try exact Hp.
    + apply IH. exact Hp.
    + apply Sound_say3. exact Hp.
Qed.

Lemma run_Sound3 (playerName : string) (g : t) (turns : list Turn)
    (rounds : list Game.Round) :
  new playerName = Some g -> SoundRun (run g turns rounds).
Proof.
  intros Hnew. unfold run. apply loop_Sound3, Sound_say3.
  apply (new_Sound3 playerName). exact Hnew.
Qed.

Lemma run_reaches3 (playerName : string) (g : t) (turns : list Turn)
    (rounds : list Game.Round) :
  new playerName = Some g ->
  exists g', reached (run g turns rounds) = Some g' /\ Sound g'.
Proof.
  intros Hnew. pose proof (run_Sound3 playerName g turns rounds Hnew) as Hs.
  destruct (run g turns rounds); cbn in *; try contradiction; eauto.
Qed.

(** X20. In checkpoint 3 the encounter of [run] is dead code.  Whatever is
    typed, [run] never indexes a vector out of range and never waits for a
    combat round; the flags "hack_attempt" and "combat_complete" are never
    set, so [handleCombat] is never called: the enemies are as the
    constructor made them and health and energy are still 100. *)
Theorem checkpoint3_run_never_fights (playerName : string) (g : t)
    (turns : list Turn) (rounds : list Game.Round) :
  new playerName = Some g ->
  exists g',
    reached (run g turns rounds) = Some g'
    /\ 0 <= currentLocation g' < Z.of_nat (length (locations g'))
    /\ Player.hasQuestFlag (player g') "hack_attempt" = false
    /\ Player.hasQuestFlag (player g') "combat_complete" = false
    /\ enemies g' = initializeEnemies
    /\ Player.health (player g') = Stat.new "Health" 100
    /\ Player.energy (player g') = Stat.new "Energy" 100.
Proof.
  intros Hnew. destruct (run_reaches3 playerName g turns rounds Hnew) as (g' & Hr & Hs).
  exists g'. split; [exact Hr|].
  rewrite (Sound_locations_length3 g' Hs).
  split; [exact (sound_index g' Hs)|].
  split; [apply Sound_unknown_flag3; [exact Hs | intros Hin; not_listed Hin]|].
  split; [apply Sound_unknown_flag3; [exact Hs | intros Hin; not_listed Hin]|].
  split; [exact (sound_enemies g' Hs)|].
  exact (sound_vitals g' Hs).
Qed.

Lemma checkpoint3_run_never_fights_witness :
  exists g, reached (run (fresh "Ada") walkthrough []) = Some g
            /\ enemies g = initializeEnemies.
Proof.
  destruct (checkpoint3_run_never_fights "Ada" (fresh "Ada") walkthrough [] eq_refl)
    as (g & Hr & _ & _ & _ & Hen & _).
  exists g. split; assumption.
Defined.

Lemma reached_Sound3 (playerName : string) (g g' : t) (turns : list Turn)
    (rounds : list Game.Round) :
  new playerName = Some g ->
  reached (run g turns rounds) = Some g' ->
  Sound g'.
Proof.
  intros Hnew Hreach.
  destruct (run_reaches3 playerName g turns rounds Hnew) as (g'' & Hr & Hs).
  congruence.
Qed.

(** X21. The main quest of checkpoint 3 is never completed.  [quests]
    always holds that one quest, either untouched or with its first
    objective met, the latter only once all three story flags are set; the
    other two objectives are never updated, so [isCompleted] stays false. *)
Theorem checkpoint3_quest_stays_open (playerName : string) (g g' : t)
    (turns : list Turn) (rounds : list Game.Round) :
  new playerName = Some g ->
  reached (run g turns rounds) = Some g' ->
  exists q,
    quests g' = [q]
    /\ Quest.isCompleted q = false
    /\ (q = mainQuest \/ q = Quest.updateObjective mainQuest 0 1)
    /\ (q <> mainQuest ->
        Player.hasQuestFlag (player g') "read_classified_info" = true
        /\ Player.hasQuestFlag (player g') "touched_monolith" = true
        /\ Player.hasQuestFlag (player g') "spacesuit_equipped" = true).
Proof.
  intros Hnew Hreach.
  pose proof (reached_Sound3 playerName g g' turns rounds Hnew Hreach) as Hs.
  destruct (sound_quests g' Hs) as [Hq | (Hq & Hflags)].
  - exists mainQuest. split; [exact Hq|]. split; [reflexivity|].
    split; [left; reflexivity|]. intros Hne. congruence.
  - exists (Quest.updateObjective mainQuest 0 1). split; [exact Hq|].
    split; [reflexivity|]. split; [right; reflexivity|]. intros _. exact Hflags.
Qed.

Lemma checkpoint3_quest_stays_open_witness :
  match reached (run (fresh "Ada") walkthrough []) with
  | Some g => exists q, quests g = [q] /\ Quest.isCompleted q = false
  | None => False
  end.
Proof.
  destruct (reached (run (fresh "Ada") walkthrough [])) as [g|] eqn:Hr;
    [|vm_compute in Hr; discriminate].
  destruct (checkpoint3_quest_stays_open "Ada" (fresh "Ada") g walkthrough [] eq_refl Hr)
    as (q & Hq & Hopen & _).
  exists q. split; assumption.
Defined.


Lemma has_true3 (g : t) (item : Item.t) :
  has g item = true -> item ∈ Player.inventory (player g).
Proof. apply bool_decide_eq_true_1. Qed.

Lemma has_false3 (g : t) (item : Item.t) :
  has g item = false -> item ∉ Player.inventory (player g).
Proof. apply bool_decide_eq_false_1. Qed.

Lemma Sound_conserves_items3 (g : t) :
  Sound g ->
  Player.inventory (player g) ++ concat (map Location.items (locations g)) ≡ₚ home.
Proof.
  intros Hs. destruct (sound_inventory g Hs) as [Hnd Hsub].
  rewrite (sound_stock g Hs).
  destruct (has g datapad) eqn:Ha; [apply has_true3 in Ha | apply has_false3 in Ha];
  (destruct (has g keycard) eqn:Hb; [apply has_true3 in Hb | apply has_false3 in Hb]);
  (destruct (has g spacesuit) eqn:Hd; [apply has_true3 in Hd | apply has_false3 in Hd]);
  cbn;
  (apply NoDup_Permutation;
   [ apply NoDup_app; split; [exact Hnd|]; split;
     [ intros x Hx Hin;
       repeat (apply elem_of_cons in Hin as [-> | Hin]; [contradiction|]);
       inversion Hin
     | apply (bool_decide_unpack _); vm_compute; exact I ]
   | apply (bool_decide_unpack _); vm_compute; exact I
   | intros x; split;
     [ intros Hx; apply elem_of_app in Hx as [Hx | Hx]; [apply Hsub; exact Hx|];
       repeat (apply elem_of_cons in Hx as [-> | Hx]; [unfold home; elem_of_listed|]);
       inversion Hx
     | intros Hx; unfold home in Hx;
       repeat (apply elem_of_cons in Hx as [-> | Hx];
               [apply elem_of_app; first [left; assumption | right; elem_of_listed]|]);
       inversion Hx ] ]).
Qed.

(** X22. Checkpoint 3 neither loses nor doubles an item: the inventory and
    the locations' item lists together hold the datapad, the keycard and the
    spacesuit, each once, and [itemsCollected] is the size of the inventory,
    hence at most 3. *)
Theorem checkpoint3_items_are_conserved (playerName : string) (g g' : t)
    (turns : list Turn) (rounds : list Game.Round) :
  new playerName = Some g ->
  reached (run g turns rounds) = Some g' ->
  Player.inventory (player g') ++ concat (map Location.items (locations g')) ≡ₚ home
  /\ NoDup (Player.inventory (player g'))
  /\ Player.itemsCollected (player g') = Z.of_nat (length (Player.inventory (player g')))
  /\ 0 <= Player.itemsCollected (player g') <= 3.
Proof.
  intros Hnew Hreach.
  pose proof (reached_Sound3 playerName g g' turns rounds Hnew Hreach) as Hs.
  split; [apply Sound_conserves_items3; exact Hs|].
  split; [exact (proj1 (sound_inventory g' Hs))|].
  split; [exact (sound_collected g' Hs)|].
  rewrite (sound_collected g' Hs). pose proof (Sound_inventory_small3 g' Hs). lia.
Qed.

Lemma checkpoint3_items_are_conserved_witness :
  match reached (run (fresh "Ada") walkthrough []) with
  | Some g =>
      Player.inventory (player g) ++ concat (map Location.items (locations g)) ≡ₚ home
  | None => False
  end.
Proof.
  destruct (reached (run (fresh "Ada") walkthrough [])) as [g|] eqn:Hr;
    [|vm_compute in Hr; discriminate].
  exact (proj1 (checkpoint3_items_are_conserved "Ada" (fresh "Ada") g walkthrough []
                  eq_refl Hr)).
Defined.

(** X23. A flag that is set in checkpoint 3 is one of four, and the two
    flags set by using an item are only set on a player who carries it:
    "read_classified_info" the datapad, "spacesuit_equipped" the spacesuit. *)
Theorem checkpoint3_flags_need_items (playerName : string) (g g' : t)
    (turns : list Turn) (rounds : list Game.Round) (flag : string) :
  new playerName = Some g ->
  reached (run g turns rounds) = Some g' ->
  Player.hasQuestFlag (player g') flag = true ->
  flag ∈ knownFlags
  /\ (flag = "read_classified_info" -> datapad ∈ Player.inventory (player g'))
  /\ (flag = "spacesuit_equipped" -> spacesuit ∈ Player.inventory (player g')).
Proof.
  intros Hnew Hreach Hflag.
  pose proof (reached_Sound3 playerName g g' turns rounds Hnew Hreach) as Hs.
  split; [exact (sound_flags g' Hs flag Hflag)|].
  split; intros ->; apply has_true3.
  - exact (sound_read g' Hs Hflag).
  - exact (sound_suited g' Hs Hflag).
Qed.

Lemma checkpoint3_flags_need_items_witness :
  match reached (run (fresh "Ada") walkthrough []) with
  | Some g => spacesuit ∈ Player.inventory (player g)
  | None => False
  end.
Proof.
  destruct (reached (run (fresh "Ada") walkthrough [])) as [g|] eqn:Hr;
    [|vm_compute in Hr; discriminate].
  assert (Hflag :
            option_map (fun g => Player.hasQuestFlag (player g) "spacesuit_equipped")
              (reached (run (fresh "Ada") walkthrough [])) = Some true)
    by (vm_compute; reflexivity).
  rewrite Hr in Hflag. cbn [option_map] in Hflag. injection Hflag as Hflag.
  exact (proj2 (proj2 (checkpoint3_flags_need_items "Ada" (fresh "Ada") g walkthrough []
                         "spacesuit_equipped" eq_refl Hr Hflag)) eq_refl).
Defined.

Lemma loop_AwaitingTurn3 (turns : list Turn) (g g' : t) (rounds : list Game.Round) :
  loop g turns rounds = AwaitingTurn g' ->
  gameOver g' = false
  /\ forall more, exists rounds', loop g (turns ++ more) rounds = loop g' more rounds'.
Proof.
  revert g rounds. induction turns as [|turn rest IH]; intros g rounds; cbn [loop app].
  - destruct (negb (gameOver g)) eqn:Hopen; [|discriminate].
    intros [= <-]. apply negb_true_iff in Hopen.
    split; [exact Hopen|]. intros more. exists rounds. reflexivity.
  - destruct (negb (gameOver g)); [|discriminate].
    destruct (pass g turn rounds) as [g1 rounds1 | s | g1 what |]; try discriminate.
    apply IH.
Qed.

Lemma invalid_dispatch3 (g : t) (turn : Turn) (rounds : list Game.Round) :
  ~ (1 <= choice turn <= 8) ->
  dispatch g turn rounds = Thrown g "Invalid choice!".
Proof.
  intros Hout. unfold dispatch.
  destruct (choice turn) as [|c|c]; try reflexivity.
  do 4 (try (destruct c as [c|c|]; try reflexivity)); exfalso; apply Hout; lia.
Qed.

(** X24. In checkpoint 3 a menu choice outside 1..8 ends the run through
    the exception handler of [run]: the location is shown, then the options,
    then the error; the rest of the input is not read, the player and the
    locations are as they were, and [gameOver] is still unset. *)
Theorem checkpoint3_invalid_choice_ends_run (playerName : string) (g g' : t)
    (turns rest : list Turn) (rounds : list Game.Round) (turn : Turn) :
  new playerName = Some g ->
  run g turns rounds = AwaitingTurn g' ->
  ~ (1 <= choice turn <= 8) ->
  exists g'' shown,
    run g (turns ++ turn :: rest) rounds = Aborted g''
    /\ out g'' = out g' ++ shown ++ [Screen3.Options; Screen3.Error "Invalid choice!"]
    /\ player g'' = player g' /\ locations g'' = locations g'
    /\ currentLocation g'' = currentLocation g' /\ gameOver g'' = false.
Proof.
  intros Hnew Hrun Hout.
  assert (Hs : Sound g')
    by (apply (reached_Sound3 playerName g g' turns rounds Hnew); rewrite Hrun; reflexivity).
  unfold run in *.
  destruct (loop_AwaitingTurn3 turns _ g' rounds Hrun) as (Hgo & Happ).
  destruct (Happ (turn :: rest)) as (rounds' & ->).
  cbn [loop]. rewrite Hgo. cbn [negb].
  unfold pass, displayLocation. destruct (here_Some3 g' Hs) as (l & ->).
  rewrite invalid_dispatch3 by exact Hout. cbn [andThen].
  eexists. eexists. split; [reflexivity|].
  cbn [out say player locations currentLocation gameOver].
  split; [|repeat split; exact Hgo].
  rewrite <- app_assoc. symmetry. apply app_assoc.
Qed.

Lemma checkpoint3_invalid_choice_ends_run_witness :
  exists g, run (fresh "Ada") ([mkTurn 3 3 "n"; mkTurn 4 1 "n"] ++ mkTurn 9 0 "n" :: walkthrough) []
            = Aborted g
            /\ gameOver g = false.
Proof.
  destruct (run (fresh "Ada") [mkTurn 3 3 "n"; mkTurn 4 1 "n"] []) as [g'|g'|g'|s|] eqn:Hrun;
    try (vm_compute in Hrun; discriminate).
  destruct (checkpoint3_invalid_choice_ends_run "Ada" (fresh "Ada") g'
              [mkTurn 3 3 "n"; mkTurn 4 1 "n"] walkthrough [] (mkTurn 9 0 "n")
              eq_refl Hrun) as (g'' & shown & H1 & _ & _ & _ & _ & H2).
  - cbn. lia.
  - exists g''. split; assumption.
Defined.

End Checkpoint3Run.

(** * The run loop of checkpoint 1 *)

Section Checkpoint1Run.

Import Session1.

Variable playerName : string.

Lemma shown_say (which : Screen1.line -> bool) (g : t) (lines : list Screen1.line) :
  shown which (say g lines)
  = (shown which g + length (List.filter which lines))%nat.
Proof. unfold shown. cbn. rewrite List.filter_app, length_app. reflexivity. Qed.

Lemma Sound_say1 (g : t) (lines : list Screen1.line) :
  Sound playerName g ->
  List.filter Screen1.isInsight lines = [] ->
  List.filter Screen1.isAiWelcome lines = [] ->
  Sound playerName (say g lines).
Proof.
  intros [Hidx Hname Hloc Hvit Hch Hinv Hins Hwel Hacc] Hi Hw.
  constructor; try assumption.
  - rewrite shown_say, Hi, Nat.add_0_r. exact Hins.
  - rewrite shown_say, Hw, Nat.add_0_r. exact Hwel.
Qed.

Lemma new_Sound1 : Sound playerName (new playerName).
Proof. constructor; cbn; try reflexivity; lia. Qed.

Lemma here_Some1 (g : t) : Sound playerName g -> exists l, here g = Some l.
Proof.
  intros Hs. pose proof (sound_index _ g Hs) as Hidx. unfold here.
  destruct (Z.ltb_spec (currentLocation g) 0) as [|_]; [lia|].
  apply lookup_lt_is_Some_2. rewrite (sound_locations _ g Hs). cbn. lia.
Qed.

Lemma examine_Sound1 (g : t) :
  Sound playerName g -> SoundOutcome playerName (lift (examine g)).
Proof.
  intros Hs. unfold examine.
  assert (Hs1 : Sound playerName (say g [Screen1.Examining])) by (apply Sound_say1; auto).
  destruct (here_Some1 _ Hs1) as (l & ->). cbn [lift SoundOutcome].
  apply Sound_say1; auto.
Qed.

Lemma move_Sound1 (g : t) (loc : Z) : Sound playerName g -> Sound playerName (move g loc).
Proof.
  intros Hs. unfold move.
  set (g1 := say g _).
  assert (Hs1 : Sound playerName g1) by (apply Sound_say1; auto).
  assert (Hlen : length (locations g1) = 4%nat)
    by (rewrite (sound_locations _ g1 Hs1); reflexivity).
  rewrite Hlen. clearbody g1.
  destruct (Z.leb_spec 1 loc) as [Hlo|]; [|exact Hs1].
  destruct (Z.leb_spec loc (Z.of_nat 4)) as [Hhi|]; [|exact Hs1].
  cbn [andb].
  assert (Hsub : Int.sub loc 1 = loc - 1) by (apply Int.sub_exact; int_bounds; lia).
  destruct Hs1 as [Hidx Hname Hloc Hvit Hch Hinv Hins Hwel Hacc].
  cbn [currentLocation setCurrentLocation hasAIAccess]. rewrite Hsub.
  destruct (Z.eqb_spec (loc - 1) 1) as [Heq | Hne].
  - destruct (hasAIAccess g1) eqn:Hai; cbn [andb negb].
    + constructor; cbn; try assumption; try lia.
      * rewrite Hai. exact Hwel.
      * rewrite Hai. discriminate.
    + constructor; try assumption.
      * cbn. lia.
      * unfold shown in *.
        cbn [out hasMonolith setHasAIAccess say setCurrentLocation].
        rewrite List.filter_app, length_app, Hins. cbn. apply Nat.add_0_r.
      * unfold shown in *.
        cbn [out hasAIAccess setHasAIAccess say setCurrentLocation].
        rewrite List.filter_app, length_app, Hwel, ?Hai. reflexivity.
      * cbn. discriminate.
  - cbn [andb]. constructor; cbn; try assumption; lia.
Qed.

Lemma interactWith_Sound1 (g : t) (act : string) :
  Sound playerName g -> SoundOutcome playerName (lift (interactWith g act)).
Proof.
  intros Hs. unfold interactWith.
  assert (Hs1 : Sound playerName (say g [Screen1.ActionPrompt])) by (apply Sound_say1; auto).
  destruct (here_Some1 _ Hs1) as (l & ->).
  set (g2 := say (say g _) _).
  assert (Hs2 : Sound playerName g2) by (apply Sound_say1; auto).
  clearbody g2.
  destruct (String.eqb act "touch monolith" && negb (hasMonolith g2)) eqn:Htouch;
    cbn [lift SoundOutcome]; [|exact Hs2].
  apply andb_true_iff in Htouch as [_ Hno]. apply negb_true_iff in Hno.
  destruct Hs2 as [Hidx Hname Hloc Hvit Hch Hinv Hins Hwel Hacc].
  constructor; try assumption.
  - cbn [player say setPlayer setHasMonolith hasMonolith Player1.inventory Player1.addItem].
    rewrite Hinv, Hno. reflexivity.
  - unfold shown in *. cbn [out hasMonolith setPlayer setHasMonolith say].
    rewrite List.filter_app, length_app, Hins, ?Hno. reflexivity.
  - unfold shown in *. cbn [out hasAIAccess setPlayer setHasMonolith say].
    rewrite List.filter_app, length_app, Hwel. cbn. apply Nat.add_0_r.
Qed.

Lemma dispatch_Sound1 (g : t) (turn : Turn) :
  Sound playerName g -> SoundOutcome playerName (dispatch g turn).
Proof.
  intros Hs. unfold dispatch.
  destruct (choice turn) as [|c|c]; try exact Hs.
  do 3 (try (destruct c as [c|c|]; try exact Hs)).
  - apply move_Sound1. exact Hs.
  - apply interactWith_Sound1. exact Hs.
  - apply Sound_say1; auto.
  - apply examine_Sound1. exact Hs.
Qed.

Lemma pass_Sound1 (g : t) (turn : Turn) :
  Sound playerName g -> SoundOutcome playerName (pass g turn).
Proof.
  intros Hs. unfold pass, displayLocation.
  destruct (here_Some1 g Hs) as (l & ->).
  apply dispatch_Sound1. do 2 (apply Sound_say1; auto).
Qed.

Lemma loop_Sound1 (turns : list Turn) (g : t) :
  Sound playerName g -> SoundRun playerName (loop g turns).
Proof.
  revert g. induction turns as [|turn rest IH]; intros g Hs; cbn [loop]; [exact Hs|].
  pose proof (pass_Sound1 g turn Hs) as Hp.
  destruct (pass g turn) as [g' | g' | g' what |]; try exact Hp.
  - apply IH. exact Hp.
  - apply Sound_say1; auto.
Qed.

Lemma run_Sound1 (turns : list Turn) : SoundRun playerName (run (new playerName) turns).
Proof. unfold run. apply loop_Sound1, Sound_say1; auto. apply new_Sound1. Qed.

Lemma run_reaches1 (turns : list Turn) :
  exists g, reached (run (new playerName) turns) = Some g /\ Sound playerName g.
Proof.
  pose proof (run_Sound1 turns) as Hs.
  destruct (run (new playerName) turns); cbn in *; try contradiction; eauto.
Qed.

(** X25. Checkpoint 1 never leaves its four rooms.  Whatever name and input
    it is given, [run] never indexes [locations] out of range; the rooms
    are as the constructor made them, the chapter is still 1, and nothing
    touches the player's health. *)
Theorem checkpoint1_run_stays_in_bounds (turns : list Turn) :
  exists g,
    reached (run (new playerName) turns) = Some g
    /\ 0 <= currentLocation g < Z.of_nat (length (locations g))
    /\ locations g = initializeLocations playerName
    /\ chapter g = 1
    /\ Player1.health (player g) = 100.
Proof.
  destruct (run_reaches1 turns) as (g & Hr & Hs). exists g.
  split; [exact Hr|]. rewrite (sound_locations _ g Hs).
  split; [exact (sound_index _ g Hs)|].
  split; [reflexivity|].
  split; [exact (sound_chapter _ g Hs)|].
  exact (proj1 (sound_vitals _ g Hs)).
Qed.

(** X26. The one-off events of checkpoint 1 happen at most once.  At every
    point of a game the inventory is empty or holds "Monolith Knowledge"
    once, according to [hasMonolith], and the insight message was printed
    as often; the AI's welcome was printed once if [hasAIAccess] is set and
    never otherwise, and the player has not been in the terminal room
    without it. *)
Theorem checkpoint1_events_happen_once (turns : list Turn) :
  exists g,
    reached (run (new playerName) turns) = Some g
    /\ Player1.inventory (player g)
       = (if hasMonolith g then ["Monolith Knowledge"] else [])
    /\ shown Screen1.isInsight g = (if hasMonolith g then 1%nat else 0%nat)
    /\ shown Screen1.isAiWelcome g = (if hasAIAccess g then 1%nat else 0%nat)
    /\ (currentLocation g = 1 -> hasAIAccess g = true).
Proof.
  destruct (run_reaches1 turns) as (g & Hr & Hs). exists g.
  split; [exact Hr|].
  split; [exact (sound_inventory _ g Hs)|].
  split; [exact (sound_insight _ g Hs)|].
  split; [exact (sound_welcome _ g Hs)|].
  intros Hloc. destruct (hasAIAccess g) eqn:Hai; [reflexivity|].
  exfalso. exact (sound_access _ g Hs Hai Hloc).
Qed.

Lemma loop_AwaitingTurn1 (turns more : list Turn) (g g' : t) :
  loop g turns = AwaitingTurn g' -> loop g (turns ++ more) = loop g' more.
Proof.
  revert g. induction turns as [|turn rest IH]; intros g; cbn [loop app].
  - intros [= <-]. reflexivity.
  - destruct (pass g turn) as [g1 | g1 | g1 what |]; try discriminate. apply IH.
Qed.

(** X27. The monolith need not be there.  Option 4 compares only the text
    typed: wherever the player stands, the first "touch monolith" sets
    [hasMonolith] and adds "Monolith Knowledge" to the inventory, and
    outside the Monolith Chamber the answer printed before it is "Nothing
    interesting happens." *)
Theorem checkpoint1_touch_monolith_anywhere (turns : list Turn) (g : t) (n : Z) :
  run (new playerName) turns = AwaitingTurn g ->
  hasMonolith g = false ->
  exists g' l,
    run (new playerName) (turns ++ [mkTurn 4 n "touch monolith"]) = AwaitingTurn g'
    /\ hasMonolith g' = true
    /\ Player1.inventory (player g') = ["Monolith Knowledge"]
    /\ currentLocation g' = currentLocation g
    /\ here g = Some l
    /\ out g'
       = out g
         ++ [Screen1.LocationHeader (Location1.name l) (Location1.description l);
             Screen1.Options; Screen1.ActionPrompt;
             Screen1.Narrative
               (if currentLocation g =? 2
                then "As your fingers brush the surface, you feel a strange vibration. Images of a distant habitable world flash through your mind."
                else "Nothing interesting happens.");
             Screen1.Insight].
Proof.
  intros Hrun Hno.
  assert (Hs : Sound playerName g).
  { pose proof (run_Sound1 turns) as Hs. rewrite Hrun in Hs. exact Hs. }
  unfold run in *. rewrite (loop_AwaitingTurn1 turns _ _ g Hrun).
  cbn [loop]. unfold pass, displayLocation.
  destruct (here_Some1 g Hs) as (l & Hl). rewrite Hl.
  cbn [dispatch choice action lift]. unfold interactWith.
  change (here (say (say (say g ?a) ?b) ?c)) with (here g). rewrite Hl.
  cbn [hasMonolith say]. rewrite Hno. cbn [String.eqb andb negb].
  change (String.eqb "touch monolith" "touch monolith") with true. cbn [andb lift].
  eexists. exists l. split; [reflexivity|].
  cbn [hasMonolith setPlayer setHasMonolith say player Player1.inventory Player1.addItem
       currentLocation out].
  rewrite (sound_inventory _ g Hs), Hno.
  repeat split.
  rewrite <- !app_assoc. cbn [app]. do 4 f_equal.
  assert (Hnarr : Location1.interact l "touch monolith"
                  = if currentLocation g =? 2
                    then "As your fingers brush the surface, you feel a strange vibration. Images of a distant habitable world flash through your mind."
                    else "Nothing interesting happens.").
  { unfold here in Hl. pose proof (sound_index _ g Hs) as Hidx.
    destruct (Z.ltb_spec (currentLocation g) 0) as [|_]; [lia|].
    rewrite (sound_locations _ g Hs) in Hl.
    assert (Hcases : currentLocation g = 0 \/ currentLocation g = 1
                     \/ currentLocation g = 2 \/ currentLocation g = 3) by lia.
    destruct Hcases as [H | [H | [H | H]]]; rewrite H in *;
      cbn in Hl; injection Hl as <-; reflexivity. }
  rewrite Hnarr. reflexivity.
Qed.

End Checkpoint1Run.

Lemma checkpoint1_touch_monolith_anywhere_witness :
  exists g, Session1.run (Session1.new "Ada") ([] ++ [Session1.mkTurn 4 0 "touch monolith"])
            = Session1.AwaitingTurn g
            /\ Player1.inventory (Session1.player g) = ["Monolith Knowledge"]
            /\ Session1.currentLocation g = 0.
Proof.
  destruct (checkpoint1_touch_monolith_anywhere "Ada" []
              (Session1.say (Session1.new "Ada")
                 [Screen1.Title; Screen1.Introduction 1 "Ada"]) 0 eq_refl eq_refl)
    as (g' & l & Hrun & _ & Hinv & Hloc & _).
  exists g'. repeat split; assumption.
Defined.

Section Checkpoint1Health.

(** X28. [Character::takeDamage] of checkpoint 1, where health is a plain
    [int]: a negative damage is refused with an exception; otherwise, for a
    character whose health is not negative, the subtraction cannot overflow
    and the new health is [max 0 (health - damage)], which is neither
    negative nor more than before.  Nothing else changes. *)
Theorem checkpoint1_takeDamage_exact (c : Player1.t) (damage : Z) :
  0 <= Player1.health c ->
  Int.in_range (Player1.health c) ->
  Int.in_range damage ->
  if damage <? 0 then Player1.takeDamage c damage = None
  else exists c',
      Player1.takeDamage c damage = Some c'
      /\ Player1.health c' = Z.max 0 (Player1.health c - damage)
      /\ 0 <= Player1.health c' <= Player1.health c
      /\ Player1.maxHealth c' = Player1.maxHealth c
      /\ Player1.inventory c' = Player1.inventory c
      /\ Player1.name c' = Player1.name c.
Proof.
  intros Hpos Hh Hd. unfold Player1.takeDamage.
  destruct (Z.ltb_spec damage 0) as [|Hge]; [reflexivity|].
  eexists. split; [reflexivity|]. cbn.
  rewrite Int.sub_exact by (int_bounds; lia).
  repeat split; lia.
Qed.

Lemma checkpoint1_takeDamage_exact_witness :
  exists c', Player1.takeDamage (Player1.new "Ada") 130 = Some c' /\ Player1.health c' = 0.
Proof.
  destruct (checkpoint1_takeDamage_exact (Player1.new "Ada") 130) as (c' & H1 & H2 & _).
  - cbn. lia.
  - cbn. int_bounds. lia.
  - int_bounds. lia.
  - exists c'. split; [exact H1|]. rewrite H2. reflexivity.
Defined.

End Checkpoint1Health.

(** * The run loop of checkpoint 2 *)

Section Checkpoint2Run.

Import Session2.

Lemma Grows_refl (g : t) : inBounds g -> Grows g g.
Proof. intros [Hidx Hlen]. constructor; auto. Qed.

Lemma Grows_say (g g' : t) (lines : list Screen2.line) :
  Grows g g' ->
  List.filter Screen2.isTheEscape lines = [] ->
  List.filter Screen2.isChapterBonus lines = [] ->
  Grows g (say g' lines).
Proof.
  intros [Hidx Hlen Hch Hfl He Hb] Hle Hlb. constructor; try assumption.
  - rewrite <- He. unfold shown. cbn [out say].
    rewrite List.filter_app, length_app, Hle. apply Nat.add_0_r.
  - rewrite <- Hb. unfold shown. cbn [out say].
    rewrite List.filter_app, length_app, Hlb. apply Nat.add_0_r.
Qed.

Lemma Grows_setPlayer (g g' : t) (op : Player.Op) :
  Grows g g' -> Grows g (setPlayer g' (Player.apply (player g') op)).
Proof.
  intros [Hidx Hlen Hch Hfl He Hb]. constructor; try assumption.
  intros flag Hflag. cbn [player setPlayer]. apply apply_keeps_flag, Hfl, Hflag.
Qed.

Lemma Grows_tell (g g' : t) (exp : Z) :
  Grows g g' -> exp <> 50 -> Grows g (tell g' (Player.gainExperience (player g') exp)).
Proof.
  intros Hg Hexp. unfold tell. apply Grows_say.
  - apply (Grows_setPlayer g g' (Player.GainExperience exp)). exact Hg.
  - unfold Player.gainExperience. destruct (0 <? exp); reflexivity.
  - unfold Player.gainExperience. destruct (0 <? exp); [|reflexivity].
    cbn. destruct (Z.eqb_spec exp 50); [contradiction | reflexivity].
Qed.

Lemma Grows_setDiscovered (g g' : t) (d : gset string) :
  Grows g g' -> Grows g (setDiscovered g' d).
Proof. intros [Hidx Hlen Hch Hfl He Hb]. constructor; assumption. Qed.

Lemma Grows_setGameOver (g g' : t) (b : bool) :
  Grows g g' -> Grows g (setGameOver g' b).
Proof. intros [Hidx Hlen Hch Hfl He Hb]. constructor; assumption. Qed.

Lemma Grows_setCurrentLocation (g g' : t) (i : Z) :
  Grows g g' -> 0 <= i < 4 -> Grows g (setCurrentLocation g' i).
Proof. intros [Hidx Hlen Hch Hfl He Hb] Hi. constructor; assumption. Qed.

Lemma Grows_setLocations (g g' : t) (ls : list Location.t) :
  Grows g g' -> length ls = 4%nat -> Grows g (setLocations g' ls).
Proof. intros [Hidx Hlen Hch Hfl He Hb] Hls. constructor; assumption. Qed.

Lemma Grows_here (g g' : t) : Grows g g' -> exists l, here g' = Some l.
Proof.
  intros Hg. pose proof (grows_index g g' Hg) as Hidx. unfold here.
  destruct (Z.ltb_spec (currentLocation g') 0) as [|_]; [lia|].
  apply lookup_lt_is_Some_2. rewrite (grows_locations g g' Hg). lia.
Qed.

Lemma examine_Grows (g g' : t) : Grows g g' -> GrowsOutcome g (lift (examine g')).
Proof.
  intros Hg. unfold examine.
  set (g1 := if currentLocation g' =? 2 then _ else _).
  assert (Hg1 : Grows g g1).
  { subst g1. destruct (currentLocation g' =? 2); [apply Grows_say; auto | exact Hg]. }
  clearbody g1. destruct (Grows_here g g1 Hg1) as (l & ->).
  cbn [lift GrowsOutcome]. apply Grows_say; auto.
Qed.

Lemma move_Grows (g g' : t) (loc : Z) : Grows g g' -> Grows g (move g' loc).
Proof.
  intros Hg. unfold move. cbv zeta.
  assert (Hg1 : Grows g (say g' [Screen2.AvailableLocations (map Location.name (locations g'))]))
    by (apply Grows_say; auto).
  cbn [locations say]. rewrite (grows_locations g g' Hg).
  destruct (Z.leb_spec 1 loc) as [Hlo|]; [|exact Hg1].
  destruct (Z.leb_spec loc (Z.of_nat 4)) as [Hhi|]; [|exact Hg1].
  cbn [andb].
  apply Grows_tell; [|lia].
  apply (Grows_setPlayer g _ Player.IncrementSteps).
  apply Grows_setCurrentLocation; [exact Hg1|].
  rewrite Int.sub_exact by (int_bounds; lia). lia.
Qed.

Lemma interactWith_Grows (g g' : t) (n : Z) :
  Grows g g' -> GrowsOutcome g (lift (interactWith g' n)).
Proof.
  intros Hg. unfold interactWith. destruct (Grows_here g g' Hg) as (l & ->). cbv zeta.
  assert (Hg1 : Grows g (say g' [Screen2.AvailableInteractions
                                   (Location.getAvailableInteractions l)]))
    by (apply Grows_say; auto).
  destruct (Z.leb_spec 1 n) as [Hlo|]; [|exact Hg1].
  destruct (Z.leb_spec n (Z.of_nat (length (Location.getAvailableInteractions l))))
    as [Hhi|]; [|exact Hg1].
  cbn [andb].
  destruct (lookup_lt_is_Some_2 (Location.getAvailableInteractions l) (Z.to_nat (n - 1))
              ltac:(lia)) as (action & ->).
  match goal with
  | |- context [setDiscovered ?a ?b] =>
      assert (Hg3 : Grows g (setDiscovered a b))
        by (apply Grows_setDiscovered, Grows_say; auto)
  end.
  destruct (String.eqb action "touch monolith").
  { cbn [lift GrowsOutcome]. apply Grows_tell; [|lia].
    apply (Grows_setPlayer g _ (Player.SetQuestFlag "touched_monolith")). exact Hg3. }
  destruct (String.eqb action "examine tools" || String.eqb action "look under desk").
  { cbn [lift GrowsOutcome]. apply Grows_tell; [exact Hg3 | lia]. }
  destruct (String.eqb action "inspect emergency gear"); [|exact Hg3].
  destruct (negb _); [|exact Hg3].
  cbn [lift GrowsOutcome]. apply Grows_tell; [|lia].
  apply (Grows_setPlayer g _ (Player.SetQuestFlag "found_spacesuit")). exact Hg3.
Qed.

Lemma pickupItem_Grows (g g' : t) (n : Z) :
  Grows g g' -> GrowsOutcome g (lift (pickupItem g' n)).
Proof.
  intros Hg. unfold pickupItem. destruct (Grows_here g g' Hg) as (l & ->). cbv zeta.
  destruct (Location.getItems l) as [|first others] eqn:Hitems.
  { cbn [lift GrowsOutcome]. apply Grows_say; auto. }
  assert (Hg1 : Grows g (say g' [Screen2.AvailableItems
                                   (Session3.listing (first :: others))]))
    by (apply Grows_say; auto).
  destruct (Z.ltb_spec 0 n) as [Hlo|]; [|exact Hg1].
  destruct (Z.leb_spec n (Z.of_nat (length (first :: others)))) as [Hhi|]; [|exact Hg1].
  cbn [andb].
  destruct (lookup_lt_is_Some_2 (first :: others) (Z.to_nat (n - 1)) ltac:(lia))
    as (item & ->).
  destruct (Item.isPickable item); cbn [lift GrowsOutcome]; [|apply Grows_say; auto].
  apply Grows_tell; [|lia]. apply Grows_say; auto.
  apply (Grows_setPlayer g _ Player.IncrementItemsCollected).
  apply Grows_setLocations.
  - apply (Grows_setPlayer g _ (Player.AddItem item)). exact Hg1.
  - rewrite length_insert. exact (grows_locations g g' Hg).
Qed.

Lemma use_Grows (g g' : t) (item : Item.t) : Grows g g' -> Grows g (use g' item).
Proof.
  intros Hg. unfold use.
  destruct (Item.isUsable item); [|exact Hg].
  destruct (Item.useEffect item) as [[ | | ]|]; [ | | | exact Hg ]; cbn [effect].
  - apply (Grows_setPlayer g _ (Player.SetQuestFlag "read_classified_info")).
    apply Grows_say; auto.
  - destruct (currentLocation g' =? 1); [|apply Grows_say; auto].
    apply Grows_tell; [|lia]. apply Grows_say; auto.
  - destruct (currentLocation g' =? 3); [|apply Grows_say; auto].
    apply (Grows_setPlayer g _ (Player.SetQuestFlag "spacesuit_equipped")).
    apply Grows_say; auto.
Qed.

Lemma useItem_Grows (g g' : t) (n : Z) :
  Grows g g' -> GrowsOutcome g (lift (useItem g' n)).
Proof.
  intros Hg. unfold useItem. cbv zeta. unfold Player.getInventory.
  destruct (Player.inventory (player g')) as [|first others] eqn:Hinv.
  { cbn [lift GrowsOutcome]. apply Grows_say; auto. }
  set (g1 := say g' _).
  assert (Hg1 : Grows g g1) by (apply Grows_say; auto).
  clearbody g1.
  destruct (Z.leb_spec 1 n) as [Hlo|]; [|exact Hg1].
  destruct (Z.leb_spec n (Z.of_nat (length (first :: others)))) as [Hhi|]; [|exact Hg1].
  cbn [andb].
  destruct (lookup_lt_is_Some_2 (first :: others) (Z.to_nat (n - 1)) ltac:(lia))
    as (item & ->).
  destruct (Item.isUsable item) eqn:Husable; cbn [lift GrowsOutcome];
    [|apply Grows_say; auto].
  apply Grows_tell; [|lia]. apply use_Grows. exact Hg1.
Qed.

Lemma quit_Grows (g g' : t) (answer : Ascii.ascii) : Grows g g' -> Grows g (quit g' answer).
Proof.
  intros Hg. unfold quit. cbv zeta.
  destruct (Ascii.eqb answer "y" || Ascii.eqb answer "Y"); [|apply Grows_say; auto].
  unfold displayEndGameStats. apply Grows_say; auto.
  apply Grows_setGameOver, Grows_say; auto.
Qed.

Lemma dispatch_Grows (g g' : t) (turn : Turn) :
  Grows g g' -> GrowsOutcome g (dispatch g' turn).
Proof.
  intros Hg. unfold dispatch.
  destruct (choice turn) as [|c|c]; try exact Hg.
  do 3 (try (destruct c as [c|c|]; try exact Hg));
    first [ apply quit_Grows | apply move_Grows | apply pickupItem_Grows
          | apply useItem_Grows | apply interactWith_Grows | apply examine_Grows
          | apply Grows_say; [|reflexivity..] ];
    exact Hg.
Qed.

Lemma Sound_inBounds (g : t) : Sound g -> inBounds g.
Proof. intros Hs. split; [exact (sound_index g Hs) | exact (sound_locations g Hs)]. Qed.

Lemma Sound_say2 (g : t) (lines : list Screen2.line) :
  Sound g ->
  List.filter Screen2.isTheEscape lines = [] ->
  List.filter Screen2.isChapterBonus lines = [] ->
  Sound (say g lines).
Proof.
  intros Hs Hle Hlb.
  pose proof (Grows_say g g lines (Grows_refl g (Sound_inBounds g Hs)) Hle Hlb) as Hg.
  destruct Hs as [Hidx Hlen Hch He Hb], Hg as [_ _ _ _ He' Hb'].
  constructor; try assumption.
  - rewrite He'. exact He.
  - rewrite Hb'. exact Hb.
Qed.

Lemma gathered_grows (g g' : t) :
  Grows g g' -> gathered (player g) = true -> gathered (player g') = true.
Proof.
  intros Hg. unfold gathered. rewrite !andb_true_iff.
  intros [[H1 H2] H3]. repeat split; apply (grows_flags g g' Hg); assumption.
Qed.

Lemma chapterCompletion_Sound (g g' : t) :
  Sound g -> Grows g g' -> Sound (chapterCompletion g').
Proof.
  intros Hs Hg. unfold chapterCompletion.
  destruct Hs as [Hidx Hlen Hch He Hb].
  pose proof (gathered_grows g g' Hg) as Hmono.
  destruct Hg as [Hidx' Hlen' Hch' Hfl He' Hb'].
  destruct (gathered (player g')) eqn:Hg'.
  - destruct (gathered (player g)) eqn:Hg0.
    + rewrite Hch', Hch. cbn [Z.eqb andb Pos.eqb].
      constructor; try assumption.
      * rewrite Hg'. congruence.
      * rewrite Hg', He'. exact He.
      * rewrite Hg', Hb'. exact Hb.
    + rewrite Hch', Hch. cbn [Z.eqb andb Pos.eqb]. cbv zeta.
      set (g2 := tell _ _).
      assert (Hchap : chapter g2 = 2) by reflexivity.
      assert (Hgath : gathered (player g2) = gathered (player g')) by reflexivity.
      assert (Hout : out g2
                     = out g' ++ [Screen2.TheEscape 2;
                                  Screen2.Said (Console.GainedExperience 50)])
        by (subst g2; cbn; rewrite <- app_assoc; reflexivity).
      assert (Hi : currentLocation g2 = currentLocation g') by reflexivity.
      assert (Hl : locations g2 = locations g') by reflexivity.
      clearbody g2.
      constructor.
      * rewrite Hi. exact Hidx'.
      * rewrite Hl. exact Hlen'.
      * rewrite Hchap, Hgath, Hg'. reflexivity.
      * unfold shown in *.
        rewrite Hout, List.filter_app, length_app, Hgath, Hg', He', He. reflexivity.
      * unfold shown in *.
        rewrite Hout, List.filter_app, length_app, Hgath, Hg', Hb', Hb. reflexivity.
  - cbn [andb].
    assert (Hg0 : gathered (player g) = false).
    { destruct (gathered (player g)); [|reflexivity]. discriminate (Hmono eq_refl). }
    rewrite Hg0 in *.
    constructor; try assumption.
    + rewrite Hg'. congruence.
    + rewrite Hg', He'. exact He.
    + rewrite Hg', Hb'. exact Hb.
Qed.

Lemma wrapUp_Sound2 (g : t) : Sound g -> Sound (wrapUp g).
Proof.
  intros Hs. unfold wrapUp. destruct (negb (gameOver g)); [apply Sound_say2; auto | exact Hs].
Qed.

Lemma dispatch_Thrown (g g' : t) (turn : Turn) (what : string) :
  dispatch g turn = Thrown g' what -> g' = g.
Proof.
  unfold dispatch, lift.
  destruct (choice turn) as [|c|c]; try (intros [= <- _]; reflexivity).
  do 3 (try (destruct c as [c|c|]; try (intros [= <- _]; reflexivity)));
    try discriminate;
    match goal with |- match ?x with _ => _ end = _ -> _ => destruct x; discriminate end.
Qed.

Lemma pass_Sound2 (g : t) (turn : Turn) : Sound g -> SoundOutcome (pass g turn).
Proof.
  intros Hs. unfold pass, displayLocation.
  pose proof (Grows_refl g (Sound_inBounds g Hs)) as Hg.
  destruct (Grows_here g g Hg) as (l & ->).
  set (g1 := say (say g _) _).
  assert (Hs1 : Sound g1)
    by (subst g1; do 2 (apply Sound_say2; [|destruct (Location.getItems l); reflexivity..]);
        exact Hs).
  clearbody g1.
  pose proof (dispatch_Grows g1 g1 turn (Grows_refl g1 (Sound_inBounds g1 Hs1))) as Hd.
  destruct (dispatch g1 turn) as [g2 | g2 what |] eqn:Hdispatch;
    cbn [SoundOutcome GrowsOutcome] in *.
  - apply wrapUp_Sound2. apply (chapterCompletion_Sound g1 g2 Hs1 Hd).
  - apply dispatch_Thrown in Hdispatch. subst g2. exact Hs1.
  - exact Hd.
Qed.

Lemma loop_Sound2 (turns : list Turn) (g : t) : Sound g -> SoundRun (loop g turns).
Proof.
  revert g. induction turns as [|turn rest IH]; intros g Hs; cbn [loop].
  - destruct (negb (gameOver g)); exact Hs.
  - destruct (negb (gameOver g)); [|exact Hs].
    pose proof (pass_Sound2 g turn Hs) as Hp.
    destruct (pass g turn) as [g' | g' what |]; try exact Hp.
    + apply IH. exact Hp.
    + apply Sound_say2; auto.
Qed.

Lemma new_Sound2 (playerName : string) (g : t) : new playerName = Some g -> Sound g.
Proof.
  unfold new. destruct (String.eqb playerName ""); [discriminate|].
  intros [= <-]. constructor; cbn; try reflexivity. lia.
Qed.

(** X29. Checkpoint 2 tells "The Escape" once.  Whatever is typed, [run]
    never indexes a vector out of range, and at every point of a game the
    chapter is 2 if the three flags "read_classified_info",
    "touched_monolith" and "spacesuit_equipped" are all set and 1 otherwise;
    the chapter's announcement and its 50 experience points have been given
    once in the first case and never in the second. *)
Theorem checkpoint2_chapter_follows_flags (playerName : string) (g : t)
    (turns : list Turn) :
  new playerName = Some g ->
  exists g',
    reached (run g turns) = Some g'
    /\ 0 <= currentLocation g' < Z.of_nat (length (locations g'))
    /\ chapter g' = (if gathered (player g') then 2 else 1)
    /\ shown Screen2.isTheEscape g' = (if gathered (player g') then 1%nat else 0%nat)
    /\ shown Screen2.isChapterBonus g' = (if gathered (player g') then 1%nat else 0%nat).
Proof.
  intros Hnew.
  assert (Hrun : SoundRun (run g turns)).
  { unfold run. apply loop_Sound2, Sound_say2; auto. apply (new_Sound2 playerName), Hnew. }
  destruct (run g turns) as [g' | g' | g' |]; cbn in *; try contradiction;
    (exists g'; split; [reflexivity|];
     rewrite (sound_locations g' Hrun);
     split; [exact (sound_index g' Hrun)|];
     split; [exact (sound_chapter g' Hrun)|];
     split; [exact (sound_escape g' Hrun) | exact (sound_bonus g' Hrun)]).
Qed.

Lemma checkpoint2_chapter_follows_flags_witness :
  exists g, reached (run (fresh "Ada") walkthrough) = Some g
            /\ chapter g = 2
            /\ shown Screen2.isChapterBonus g = 1%nat.
Proof.
  destruct (checkpoint2_chapter_follows_flags "Ada" (fresh "Ada") walkthrough eq_refl)
    as (g & Hr & _ & Hch & _ & Hb).
  exists g. split; [exact Hr|].
  assert (Hflag : option_map (fun g => gathered (player g))
                    (reached (run (fresh "Ada") walkthrough)) = Some true)
    by (vm_compute; reflexivity).
  rewrite Hr in Hflag. cbn [option_map] in Hflag. injection Hflag as Hflag.
  rewrite Hflag in Hch, Hb. split; assumption.
Defined.

Lemma chapterCompletion_flags (g : t) (flag : string) :
  Player.hasQuestFlag (player g) flag = true ->
  Player.hasQuestFlag (player (wrapUp (chapterCompletion g))) flag = true.
Proof.
  intros Hflag. unfold wrapUp, chapterCompletion.
  destruct (gathered (player g) && (chapter g =? 1));
    match goal with |- context [negb ?b] => destruct b end; exact Hflag.
Qed.

Lemma pass_keeps_flags (g g' : t) (turn : Turn) (flag : string) :
  Sound g ->
  pass g turn = Continue g' ->
  Player.hasQuestFlag (player g) flag = true ->
  Player.hasQuestFlag (player g') flag = true.
Proof.
  intros Hs. unfold pass, displayLocation.
  pose proof (Grows_refl g (Sound_inBounds g Hs)) as Hg.
  destruct (Grows_here g g Hg) as (l & ->).
  set (g1 := say (say g _) _).
  assert (Hg1 : Grows g g1)
    by (subst g1; do 2 (apply Grows_say; [|destruct (Location.getItems l); reflexivity..]);
        exact Hg).
  clearbody g1.
  pose proof (dispatch_Grows g g1 turn Hg1) as Hd.
  destruct (dispatch g1 turn) as [g2 | g2 what |]; try discriminate.
  intros [= <-] Hflag. apply chapterCompletion_flags.
  exact (grows_flags g g2 Hd flag Hflag).
Qed.

Lemma loop_keeps_flags (turns : list Turn) (g g' : t) (flag : string) :
  Sound g ->
  reached (loop g turns) = Some g' ->
  Player.hasQuestFlag (player g) flag = true ->
  Player.hasQuestFlag (player g') flag = true.
Proof.
  revert g. induction turns as [|turn rest IH]; intros g Hs; cbn [loop].
  - destruct (negb (gameOver g)); intros [= <-]; auto.
  - destruct (negb (gameOver g)); [|intros [= <-]; auto].
    pose proof (pass_Sound2 g turn Hs) as Hp.
    destruct (pass g turn) as [g1 | g1 what |] eqn:Hpass; [| |discriminate].
    + intros Hreach Hflag. apply (IH g1 Hp Hreach).
      exact (pass_keeps_flags g g1 turn flag Hs Hpass Hflag).
    + unfold pass, displayLocation in Hpass.
      destruct (here g) as [l|]; [|discriminate].
      match type of Hpass with
      | context [dispatch ?g0 turn] =>
          destruct (dispatch g0 turn) as [g2 | g2 what2 |] eqn:Hdispatch; try discriminate
      end.
      apply dispatch_Thrown in Hdispatch. injection Hpass as <- _. subst g2.
      intros [= <-]. auto.
Qed.

Lemma loop_AwaitingTurn2 (turns more : list Turn) (g g' : t) :
  loop g turns = AwaitingTurn g' -> loop g (turns ++ more) = loop g' more.
Proof.
  revert g. induction turns as [|turn rest IH]; intros g; cbn [loop app].
  - destruct (negb (gameOver g)) eqn:Hopen; [|discriminate].
    intros [= <-]. destruct more; cbn [loop]; rewrite Hopen; reflexivity.
  - destruct (negb (gameOver g)); [|discriminate].
    destruct (pass g turn) as [g1 | g1 what |]; try discriminate. apply IH.
Qed.

(** X30. Nothing gained in checkpoint 2 is lost again: a quest flag that is
    set when the game waits at its menu is still set after any further
    input, and the chapter never goes back. *)
Theorem checkpoint2_progress_is_kept (playerName : string) (g g1 g2 : t)
    (turns more : list Turn) :
  new playerName = Some g ->
  run g turns = AwaitingTurn g1 ->
  reached (run g (turns ++ more)) = Some g2 ->
  (forall flag,
      Player.hasQuestFlag (player g1) flag = true ->
      Player.hasQuestFlag (player g2) flag = true)
  /\ chapter g1 <= chapter g2.
Proof.
  intros Hnew Hrun Hreach. unfold run in *.
  assert (Hs1 : Sound g1).
  { match type of Hrun with
    | loop ?g0 turns = _ =>
        assert (Hs : SoundRun (loop g0 turns))
          by (apply loop_Sound2, Sound_say2; auto; apply (new_Sound2 playerName), Hnew)
    end.
    rewrite Hrun in Hs. exact Hs. }
  rewrite (loop_AwaitingTurn2 turns more _ g1 Hrun) in Hreach.
  assert (Hs2 : Sound g2).
  { pose proof (loop_Sound2 more g1 Hs1) as Hs.
    destruct (loop g1 more); cbn in *; try discriminate; injection Hreach as <-; exact Hs. }
  assert (Hflags : forall flag,
             Player.hasQuestFlag (player g1) flag = true ->
             Player.hasQuestFlag (player g2) flag = true)
    by (intros flag; apply (loop_keeps_flags more g1 g2 flag Hs1 Hreach)).
  split; [exact Hflags|].
  rewrite (sound_chapter g1 Hs1), (sound_chapter g2 Hs2).
  destruct (gathered (player g1)) eqn:Hg1; [|destruct (gathered (player g2)); lia].
  assert (Hg2 : gathered (player g2) = true).
  { unfold gathered in *. rewrite !andb_true_iff in *.
    destruct Hg1 as [[H1 H2] H3]. repeat split; apply Hflags; assumption. }
  rewrite Hg2. lia.
Qed.

Lemma checkpoint2_progress_is_kept_witness :
  match reached (run (fresh "Ada") ([mkTurn 5 1 "n"; mkTurn 6 1 "n"] ++ walkthrough)) with
  | Some g => Player.hasQuestFlag (player g) "read_classified_info" = true
  | None => False
  end.
Proof.
  destruct (run (fresh "Ada") [mkTurn 5 1 "n"; mkTurn 6 1 "n"]) as [g1|g1|g1|] eqn:Hrun;
    try (vm_compute in Hrun; discriminate).
  destruct (reached (run (fresh "Ada") ([mkTurn 5 1 "n"; mkTurn 6 1 "n"] ++ walkthrough)))
    as [g2|] eqn:Hreach; [|vm_compute in Hreach; discriminate].
  apply (proj1 (checkpoint2_progress_is_kept "Ada" (fresh "Ada") g1 g2
                  [mkTurn 5 1 "n"; mkTurn 6 1 "n"] walkthrough eq_refl Hrun Hreach)).
  assert (Hflag : match run (fresh "Ada") [mkTurn 5 1 "n"; mkTurn 6 1 "n"] with
                  | AwaitingTurn g => Player.hasQuestFlag (player g) "read_classified_info"
                  | _ => false
                  end = true)
    by (vm_compute; reflexivity).
  rewrite Hrun in Hflag. exact Hflag.
Defined.

End Checkpoint2Run.
